(** * goleveldb: the compaction core (leveldb/db_compaction.go)

    A shallow embedding of the error state machine [compactionError], the
    retry wrapper [compactionTransact], [tableCompaction] with its full merge,
    and [tableRangeCompaction], followed by the properties of the compaction
    specification stated over them.

    Channels are modelled from the point of view of the goroutine that runs
    the code: every [select] becomes a choice supplied by the environment, and
    every call into the file system or the session may fail as the
    environment says.  What db_compaction.go uses from the rest of the
    package without defining it is collected in the class [Leveldb]. *)

From Stdlib Require Import ZArith Lia.
From stdpp Require Import base gmap sets list strings.

Local Open Scope Z_scope.

(** ** Machine integers *)

(** Go's [int] and [int64] (and so [time.Duration]) on the 64-bit targets:
    arithmetic wraps around in two's complement. *)
Definition wrap_int (z : Z) : Z := (z + 2 ^ 63) mod 2 ^ 64 - 2 ^ 63.

(** [x++] on an [int]. *)
Definition incr (x : Z) : Z := wrap_int (x + 1).

(** ** Keys, tables and the collaborators of the file *)

(** [[]byte] values. *)
Definition ikey := string.
Definition ukey := string.
Definition value := string.

Inductive keyType := ktDel | ktVal.

(** Modelled from the spec: a table file (the type [tFile] is declared
    elsewhere in the package) is its file number and the sorted entries
    written to it; the [size], [imin] and [imax] the source reads from it
    are functions of the entries. *)
Record tFile := TFile {
  file_num : N;
  file_entries : list (ikey * value)
}.

Definition tFiles := list tFile.

(** Modelled from the spec: the session record (declared elsewhere in the
    package) is a staged delta, of which this file uses the tables added
    and the tables deleted, per level, and the compaction pointers. *)
Record sessionRecord := SessionRecord {
  compPtrs : list (Z * ikey);
  addedTables : list (Z * tFile);
  deletedTables : list (Z * N)
}.

Definition addCompPtr (level : Z) (k : ikey) (r : sessionRecord) :=
  SessionRecord (compPtrs r ++ [(level, k)]) (addedTables r) (deletedTables r).
Definition addTableFile (level : Z) (t : tFile) (r : sessionRecord) :=
  SessionRecord (compPtrs r) (addedTables r ++ [(level, t)]) (deletedTables r).
Definition delTable (level : Z) (num : N) (r : sessionRecord) :=
  SessionRecord (compPtrs r) (addedTables r) (deletedTables r ++ [(level, num)]).

(** Modelled from the spec: the compaction object handed out by the
    session (declared elsewhere in the package) carries its source level,
    the tables of the two levels, a largest key, the predicates [trivial],
    [shouldStopBefore] and [baseLevelForKey], and the merging iterator over
    the source tables; [newIterator] is the sorted sequence of records that
    iterator yields. *)
Record compaction := Compaction {
  c_level : Z;
  c_tables : tFiles * tFiles;
  c_imax : ikey;
  trivial : bool;
  newIterator : list (ikey * value);
  shouldStopBefore : ikey -> bool;
  baseLevelForKey : ukey -> bool
}.

(** The result of [parseIkey]: the three components, or [kerr]. *)
Inductive parsed (error : Type) :=
| Parsed (uk : ukey) (seq : Z) (kt : keyType)
| ParseErr (kerr : error).
Arguments Parsed {error}.
Arguments ParseErr {error}.

(** What the file takes from the rest of the package and its imports. *)
Class Leveldb := {
  (* package errors *)
  error : Type;
  IsCorrupted : error -> bool;
  (* key.go *)
  parseIkey : ikey -> parsed error;
  kMaxSeq : Z;
  (* table.go: the serialized length of a writer holding these entries *)
  BytesLen : list (ikey * value) -> Z;
  (* session: its state, the tables of the current version by level, the
     effect of a successful commit, and the range query *)
  session : Type;
  version_tables : session -> list tFiles;
  commit : sessionRecord -> session -> session;
  getCompactionRange : session -> Z -> ukey -> ukey -> option compaction;
  overlaps : tFiles -> ukey -> ukey -> bool
}.

(** The options and the other values read from the [DB] handle. *)
Record DB := {
  uCompare : ukey -> ukey -> Z;             (* db.s.icmp.uCompare *)
  GetStrict : bool;                         (* db.s.o.GetStrict(opt.StrictCompaction) *)
  GetCompactionTableSize : Z -> Z;          (* db.s.o.GetCompactionTableSize(level) *)
  GetDisableCompactionBackoff : bool;
  minSeq : Z                                (* db.minSeq() *)
}.

(** ** The error state machine: [compactionError] *)

Module CompErr.
Section Machine.
Context `{Leveldb}.

(** The three labels of the function. *)
Inductive label := noerr | haserr | hasperr.

(** The label the goroutine is looping at, with its two locals. *)
Record machine := Machine {
  pc : label;
  err : option error;
  wlocked : bool
}.

Definition init : machine := Machine noerr None false.

(** The cases of the three [select] statements. *)
Inductive event :=
| RecvSet (e : option error)   (* err = <-db.compErrSetC *)
| SendErr                      (* db.compErrC <- err *)
| SendPerErr                   (* db.compPerErrC <- err *)
| SendWriteLock                (* db.writeLockC <- struct{}{} *)
| RecvClose.                   (* <-db.closeC *)

Inductive outcome :=
| Running (m : machine)
| Returned (released : bool)   (* the function returned; [released] tells
                                  whether it drained db.writeLockC first *)
| NotOffered.                  (* the select at this label has no such case *)

(** The [switch] on a value received from db.compErrSetC. *)
Definition target (e : option error) : label :=
  match e with
  | None => noerr
  | Some x => if IsCorrupted x then hasperr else haserr
  end.

Definition step (m : machine) (ev : event) : outcome :=
  match pc m with
  | noerr =>
      match ev with
      | RecvSet e => Running (Machine (target e) e (wlocked m))
      | RecvClose => Returned false
      | _ => NotOffered
      end
  | haserr =>
      match ev with
      | SendErr => Running m
      | RecvSet e => Running (Machine (target e) e (wlocked m))
      | RecvClose => Returned false
      | _ => NotOffered
      end
  | hasperr =>
      match ev with
      | SendErr => Running m
      | SendPerErr => Running m
      | SendWriteLock => Running (Machine hasperr (err m) true)
      | RecvClose => Returned (wlocked m)
      | RecvSet _ => NotOffered
      end
  end.

(** A run of the goroutine over a sequence of events; an event that is not
    offered leaves the goroutine where it is (its peer stays blocked). *)
Fixpoint run (m : machine) (evs : list event) : outcome :=
  match evs with
  | [] => Running m
  | ev :: evs' =>
      match step m ev with
      | Running m' => run m' evs'
      | Returned r => Returned r
      | NotOffered => run m evs'
      end
  end.

(** The function, started at [noerr] with its locals at their zero
    values. *)
Definition compactionError (evs : list event) : outcome := run init evs.

(** The publication rendezvous of [compactionTransact] seen from this
    goroutine: the runner selects on sending to db.compErrSetC and on
    receiving from db.compPerErrC, so the value is taken by [RecvSet] where
    that case is offered and otherwise answered through [SendPerErr]. *)
Definition publish (m : machine) (e : option error) : outcome :=
  match step m (RecvSet e) with
  | NotOffered => step m SendPerErr
  | o => o
  end.

(** The three states of the specification. *)
Inductive status := NoError | Transient (e : error) | Persistent (e : error).

Definition status_of (m : machine) : option status :=
  match pc m, err m with
  | noerr, None => Some NoError
  | haserr, Some e => Some (Transient e)
  | hasperr, Some e => Some (Persistent e)
  | _, _ => None
  end.

(** The row of the transition table for the two states that accept input. *)
Definition table_row (e : option error) : status :=
  match e with
  | None => NoError
  | Some x => if IsCorrupted x then Persistent x else Transient x
  end.

End Machine.
End CompErr.

(** ** The retry wrapper: [compactionTransact] *)

Module Transact.
Section Runner.
Context `{Leveldb}.

(** The state the two closures [exec] and [rollback] read and write. *)
Context {S : Type}.

(** [time.Second], in nanoseconds. *)
Definition Second : Z := 1000000000.

Definition backoffMin : Z := wrap_int (1 * Second).
Definition backoffMax : Z := wrap_int (8 * Second).
Definition backoffMul : Z := wrap_int (2 * Second).

(** How one call of [exec] ends: it returns [err] having advanced the
    counter to [cnt], or it unwinds through [compactionExitTransact]. *)
Inductive exec_result :=
| ExecRet (err : option error) (cnt : Z) (s : S)
| ExecExit (s : S).

(** The cases taken in the two [select] statements of one iteration, and the
    answer of [db.isClosed()] at its start. *)
Inductive publish_case := PubSent | PubPerErr | PubClosed.
Inductive wait_case := TimerFired | WaitClosed.

Record attempt := Attempt {
  isClosed : bool;
  pub : publish_case;
  wait : wait_case
}.

(** Lines 235-249: the duration handed to [backoffT.Reset] and the new values
    of [backoff] and [lastCnt]. *)
Definition backoff_step (backoff lastCnt cnt : Z) : Z * (Z * Z) :=
  let '(backoff1, lastCnt1) :=
    if lastCnt <? cnt then (backoffMin, cnt) else (backoff, lastCnt) in
  let backoff2 :=
    if backoff1 <? backoffMax then
      let b := wrap_int (backoff1 * backoffMul) in
      if backoffMax <? b then backoffMax else b
    else backoff1 in
  (backoff1, (backoff2, lastCnt1)).

(** How the [for] loop ends.  [Pending] is the loop still running when the
    environment's trace of attempts is used up. *)
Inductive loop_end :=
| Return (s : S)
| Exit (s : S)
| Pending (s : S).

(** The loop of lines 199-257.  [exec n] is the behaviour of the closure at
    its call number [n]; [waits] collects the durations passed to
    [backoffT.Reset]. *)
Fixpoint loop (db : DB) (exec : nat -> S -> exec_result)
    (n : nat) (backoff lastCnt : Z) (tr : list attempt) (s : S)
    (waits : list Z) : list Z * loop_end :=
  match tr with
  | [] => (waits, Pending s)
  | a :: tr' =>
      if isClosed a then (waits, Exit s) else
      match exec n s with
      | ExecExit s' => (waits, Exit s')
      | ExecRet err cnt s' =>
          match pub a, err with
          | PubClosed, _ => (waits, Exit s')
          | PubPerErr, Some _ => (waits, Exit s')
          | _, None => (waits, Return s')
          | _, Some e =>
              if IsCorrupted e then (waits, Exit s') else
              if GetDisableCompactionBackoff db then
                loop db exec (Datatypes.S n) backoff lastCnt tr' s' waits
              else
                let '(w, (backoff', lastCnt')) :=
                  backoff_step backoff lastCnt cnt in
                match wait a with
                | WaitClosed => (waits ++ [w], Exit s')
                | TimerFired =>
                    loop db exec (Datatypes.S n) backoff' lastCnt' tr' s'
                      (waits ++ [w])
                end
          end
      end
  end.

(** How the call ends for its caller. *)
Inductive outcome :=
| Done (s : S)
| Unwound (s : S) (logged : option error)
    (* the panic with errCompactionTransactExiting propagates; [logged] is
       the error of the rollback, which is only written to the log *)
| Running (s : S).

(** The function with its deferred handler: on the sentinel panic it runs
    the rollback, when there is one, and panics again with the same value. *)
Definition compactionTransact (db : DB) (exec : nat -> S -> exec_result)
    (rollback : option (S -> option error * S)) (tr : list attempt) (s : S)
    : list Z * outcome :=
  let '(waits, e) := loop db exec 0%nat backoffMin 0 tr s [] in
  match e with
  | Return s' => (waits, Done s')
  | Pending s' => (waits, Running s')
  | Exit s' =>
      match rollback with
      | Some rb => let '(err, s'') := rb s' in (waits, Unwound s'' err)
      | None => (waits, Unwound s' None)
      end
  end.

(** The attempts of a trace all find the database open, have their
    publication accepted and wait until the timer fires. *)
Definition all_quiet (tr : list attempt) : Prop :=
  Forall (fun a => isClosed a = false /\ pub a = PubSent
                   /\ wait a = TimerFired) tr.

End Runner.
Arguments exec_result {H} S.
Arguments outcome {H} S.
End Transact.

(** ** The full merge of [tableCompaction] *)

Module Merge.
Section Build.
Context `{Leveldb}.

(** Modelled from the spec: the table writer of the table-ops layer, which
    is not in the source file.  A [tWriter] is the number of the output file
    it has opened and the entries appended to it so far. *)
Record tWriter := TWriter {
  tw_num : N;
  tw_entries : list (ikey * value)
}.

(** Modelled from the spec: [w.empty()], no entry has been appended. *)
Definition empty (w : tWriter) : bool :=
  match tw_entries w with [] => true | _ => false end.

(** Modelled from the spec: [tw.append(ikey, value)] when it succeeds. *)
Definition tw_append (w : tWriter) (ik : ikey) (v : value) : tWriter :=
  TWriter (tw_num w) (tw_entries w ++ [(ik, v)]).

(** The tracking variables [hasLastUkey], [lastUkey], [lastSeq]. *)
Record track := Track {
  hasLastUkey : bool;
  lastUkey : ukey;
  lastSeq : Z
}.

(** The six variables of the retry snapshot. *)
Record snapshot := Snapshot {
  snapHasLastUkey : bool;
  snapLastUkey : ukey;
  snapLastSeq : Z;
  snapIter : Z;
  snapKerrCnt : Z;
  snapDropCnt : Z
}.

(** What of the database the compaction changes: the next free file number,
    the set of finished table files on disk, and the session. *)
Record store := Store {
  nextFileNum : N;
  disk : gset N;
  sess : session
}.

(** Modelled from the spec: [tops.create()] when it succeeds opens a new
    output file under the next free file number. *)
Definition tops_create (s : store) : tWriter * store :=
  (TWriter (nextFileNum s) [],
   Store (N.succ (nextFileNum s)) (disk s) (sess s)).

(** Modelled from the spec: [tw.finish()] when it succeeds produces the
    table file of the entries written, which is then on disk. *)
Definition tw_finish (w : tWriter) (s : store) : tFile * store :=
  (TFile (tw_num w) (tw_entries w),
   Store (nextFileNum s) ({[ tw_num w ]} ∪ disk s) (sess s)).

(** Modelled from the spec: [f.Remove()] when it succeeds takes the table
    file off the disk. *)
Definition Remove (num : N) (d : gset N) : gset N := d ∖ {[ num ]}.

(** What outlives one call of the closure: the variables it captures, the
    session record, and the store. *)
Record build := Build {
  snap : snapshot;
  kerrCnt : Z;
  dropCnt : Z;
  rec : sessionRecord;
  sto : store
}.

(** The variables that live for one call of the closure; [cnt] is the
    transact counter the call is given. *)
Record locals := Locals {
  trk : track;
  snapSched : bool;
  tw : option tWriter;
  cnt : Z
}.

Definition st : Type := build * locals.

(** The fallible operations of one call, named by the iteration [i] they
    belong to. *)
Inductive op :=
| OpCreate (i : Z)        (* db.s.tops.create() *)
| OpAppend (i : Z)        (* tw.append(ikey, iter.Value()) *)
| OpFinishStop (i : Z)    (* finish() before a grandparent boundary *)
| OpFinishSize (i : Z)    (* finish() of a table that is big enough *)
| OpFinishLast.           (* finish() of the last table *)

(** The non-blocking [select] before a new table is created. *)
Inductive pause_case :=
| NoEvent                 (* default *)
| Paused (resumed : bool) (* db.pauseCompaction(ch): resumed, or closed *)
| CloseSeen.              (* <-db.closeC *)

(** What the outside world does during one call: where the iterator stops
    with an error (after yielding that many records), which operations
    fail, and what the pause [select] of an iteration sees. *)
Record world := World {
  iterErr : option (nat * error);
  fault : op -> option error;
  pauseAt : Z -> pause_case
}.

(** How a piece of the loop body ends: go on with the next statement,
    [continue] with the next record, return an error, or unwind through
    [compactionExitTransact]. *)
Inductive flow :=
| Go (s : st)
| Skip (s : st)
| Fail (e : error) (s : st)
| Unwind (s : st).

Definition andThen (f : flow) (k : st -> flow) : flow :=
  match f with
  | Go s => k s
  | other => other
  end.

Definition with_tw (lo : locals) (w : option tWriter) : locals :=
  Locals (trk lo) (snapSched lo) w (cnt lo).
Definition with_trk (lo : locals) (t : track) : locals :=
  Locals t (snapSched lo) (tw lo) (cnt lo).
Definition with_snapSched (lo : locals) (b : bool) : locals :=
  Locals (trk lo) b (tw lo) (cnt lo).
Definition with_cnt (lo : locals) (c : Z) : locals :=
  Locals (trk lo) (snapSched lo) (tw lo) c.

(** The closure [finish] on the writer [w]: the finished table is staged in
    the record at [c.level+1]. *)
Definition finish (wd : world) (c : compaction) (o : op) (w : tWriter)
    (b : build) : error + build :=
  match fault wd o with
  | Some e => inl e
  | None =>
      let t := fst (tw_finish w (sto b)) in
      inr (Build (snap b) (kerrCnt b) (dropCnt b)
             (addTableFile (wrap_int (c_level c + 1)) t (rec b))
             (snd (tw_finish w (sto b))))
  end.

(** [finish(); snapSched = true; tw = nil], as both call sites in the loop
    have it. *)
Definition finish_table (wd : world) (c : compaction) (o : op) (w : tWriter)
    (s : st) : flow :=
  match finish wd c o w (fst s) with
  | inl e => Fail e s
  | inr b' => Go (b', with_tw (with_snapSched (snd s) true) None)
  end.

(** Lines 427-434. *)
Definition stopBefore (wd : world) (c : compaction) (i : Z) (ik : ikey)
    (s : st) : flow :=
  match parseIkey ik with
  | ParseErr _ => Go s
  | Parsed _ _ _ =>
      if shouldStopBefore c ik then
        match tw (snd s) with
        | Some w => finish_table wd c (OpFinishStop i) w s
        | None => Go s
        end
      else Go s
  end.

(** Lines 438-446. *)
Definition takeSnapshot (i : Z) (s : st) : flow :=
  let '(b, lo) := s in
  if snapSched lo then
    Go (Build (Snapshot (hasLastUkey (trk lo)) (lastUkey (trk lo))
                 (lastSeq (trk lo)) i (kerrCnt b) (dropCnt b))
          (kerrCnt b) (dropCnt b) (rec b) (sto b),
        with_snapSched lo false)
  else Go s.

(** Lines 449-454: the tracking variables once the user key of a
    well-formed record has been looked at. *)
Definition observe (db : DB) (t : track) (uk : ukey) : track :=
  if negb (hasLastUkey t) || negb (uCompare db (lastUkey t) uk =? 0)
  then Track true uk kMaxSeq
  else t.

(** The condition of the two [case]s of lines 457 and 460, the first
    falling through to the second. *)
Definition dropped (db : DB) (c : compaction) (t : track) (seq : Z)
    (kt : keyType) : bool :=
  (lastSeq t <=? minSeq db)
  || (match kt with ktDel => true | ktVal => false end
      && (seq <=? minSeq db) && baseLevelForKey c (lastUkey t)).

Definition with_counts (b : build) (k d : Z) : build :=
  Build (snap b) k d (rec b) (sto b).

(** Lines 448-484. *)
Definition classify (db : DB) (c : compaction) (ik : ikey) (s : st) : flow :=
  let '(b, lo) := s in
  match parseIkey ik with
  | Parsed uk seq kt =>
      let t := observe db (trk lo) uk in
      let t' := Track (hasLastUkey t) (lastUkey t) seq in
      if dropped db c t seq kt
      then Skip (with_counts b (kerrCnt b) (incr (dropCnt b)), with_trk lo t')
      else Go (b, with_trk lo t')
  | ParseErr kerr =>
      if GetStrict db then Fail kerr s
      else Go (with_counts b (incr (kerrCnt b)) (dropCnt b),
               with_trk lo (Track false "" kMaxSeq))
  end.

(** Lines 487-502: the writer the record goes to, created when there is
    none, after the non-blocking look at the pause and close channels. *)
Definition withWriter (wd : world) (i : Z) (s : st)
    (k : tWriter -> st -> flow) : flow :=
  let '(b, lo) := s in
  match tw lo with
  | Some w => k w s
  | None =>
      match pauseAt wd i with
      | CloseSeen | Paused false => Unwind s
      | NoEvent | Paused true =>
          match fault wd (OpCreate i) with
          | Some e => Fail e s
          | None =>
              let w := fst (tops_create (sto b)) in
              k w (Build (snap b) (kerrCnt b) (dropCnt b) (rec b)
                     (snd (tops_create (sto b))),
                   with_tw lo (Some w))
          end
      end
  end.

(** Lines 505-518: append, then finish the table if it is big enough. *)
Definition append (wd : world) (db : DB) (c : compaction) (i : Z)
    (ik : ikey) (v : value) (w : tWriter) (s : st) : flow :=
  match fault wd (OpAppend i) with
  | Some e => Fail e s
  | None =>
      let w' := tw_append w ik v in
      let s' := (fst s, with_tw (snd s) (Some w')) in
      if GetCompactionTableSize db (wrap_int (c_level c + 1))
           <=? BytesLen (tw_entries w')
      then finish_table wd c (OpFinishSize i) w' s'
      else Go s'
  end.

(** Lines 448-518: the record is classified and, when it is kept, written
    to the output. *)
Definition handle (wd : world) (db : DB) (c : compaction) (i : Z)
    (r : ikey * value) (s : st) : flow :=
  andThen (classify db c (fst r) s) (fun s3 =>
  withWriter wd i s3 (append wd db c i (fst r) (snd r))).

(** The body of the [for] loop from line 423 on. *)
Definition body (wd : world) (db : DB) (c : compaction) (i : Z)
    (r : ikey * value) (s : st) : flow :=
  andThen (stopBefore wd c i (fst r) s) (fun s1 =>
  andThen (takeSnapshot i s1) (handle wd db c i r)).

(** The [for] loop over the records the iterator yields. *)
Fixpoint loop (wd : world) (db : DB) (c : compaction) (i : Z)
    (rs : list (ikey * value)) (s : st) : flow :=
  match rs with
  | [] => Go s
  | r :: rs' =>
      let s1 := (fst s, with_cnt (snd s) (incr (cnt (snd s)))) in
      if i <? snapIter (snap (fst s1)) then loop wd db c (incr i) rs' s1
      else
        match body wd db c i r s1 with
        | Go s2 | Skip s2 => loop wd db c (incr i) rs' s2
        | other => other
        end
  end.

(** The records [iter.Next()] yields in this call, and [iter.Error()]. *)
Definition yielded (wd : world) (c : compaction) : list (ikey * value) :=
  match iterErr wd with
  | Some (p, _) => take p (newIterator c)
  | None => newIterator c
  end.

Definition iterError (wd : world) : option error :=
  match iterErr wd with
  | Some (_, e) => Some e
  | None => None
  end.

(** The variables of lines 384-389 at the start of a call. *)
Definition enter (b : build) : st :=
  (with_counts b (snapKerrCnt (snap b)) (snapDropCnt (snap b)),
   Locals (Track (snapHasLastUkey (snap b)) (snapLastUkey (snap b))
             (snapLastSeq (snap b)))
     (snapIter (snap b) =? 0) None 0).

(** Lines 521-534, after the loop: the error of the iterator, then the
    last table. *)
Definition conclude (wd : world) (c : compaction) (s : st)
    : Transact.exec_result build :=
  match iterError wd with
  | Some e => Transact.ExecRet (Some e) (cnt (snd s)) (fst s)
  | None =>
      match tw (snd s) with
      | Some w =>
          if empty w then Transact.ExecRet None (cnt (snd s)) (fst s)
          else
            match finish wd c OpFinishLast w (fst s) with
            | inl e => Transact.ExecRet (Some e) (cnt (snd s)) (fst s)
            | inr b' => Transact.ExecRet None (cnt (snd s)) b'
            end
      | None => Transact.ExecRet None (cnt (snd s)) (fst s)
      end
  end.

(** The loop over the records [rs] from iteration [i] on, and what follows
    it. *)
Definition finishRun (wd : world) (db : DB) (c : compaction) (i : Z)
    (rs : list (ikey * value)) (s : st) : Transact.exec_result build :=
  match loop wd db c i rs s with
  | Go s' | Skip s' => conclude wd c s'
  | Fail e s' => Transact.ExecRet (Some e) (cnt (snd s')) (fst s')
  | Unwind s' => Transact.ExecExit (fst s')
  end.

(** The closure passed to the "table@build" transact, lines 383-535.  The
    deferred [tw.drop()] belongs to the writer's own file, which is not
    among the finished tables. *)
Definition exec (db : DB) (c : compaction) (wd : world) (b : build)
    : Transact.exec_result build :=
  finishRun wd db c 0 (yielded wd c) (enter b).

(** A call in which nothing fails and nobody pauses or closes. *)
Definition calm : world := World None (fun _ => None) (fun _ => NoEvent).

(** The loop of the rollback closure, lines 536-543: [remove] tells which
    [f.Remove()] fails. *)
Fixpoint removeTables (remove : N -> option error) (ats : list (Z * tFile))
    (d : gset N) : option error * gset N :=
  match ats with
  | [] => (None, d)
  | r :: ats' =>
      match remove (file_num (snd r)) with
      | Some e => (Some e, d)
      | None => removeTables remove ats' (Remove (file_num (snd r)) d)
      end
  end.

Definition rollback (remove : N -> option error) (b : build)
    : option error * build :=
  let '(e, d) := removeTables remove (addedTables (rec b)) (disk (sto b)) in
  (e, Build (snap b) (kerrCnt b) (dropCnt b) (rec b)
        (Store (nextFileNum (sto b)) d (sess (sto b)))).

End Build.
End Merge.

(** ** [tableCompaction] and [tableRangeCompaction] *)

Module Compaction.
Section Table.
Context `{Leveldb}.

(** What the outside world does during one call of [tableCompaction]: the
    traces of its transacts, which commits fail, what happens in each call
    of the build closure, and which file removals fail. *)
Record tc_world := TcWorld {
  move_trace : list Transact.attempt;
  move_fault : nat -> option error;
  build_trace : list Transact.attempt;
  build_world : nat -> Merge.world;
  remove_fault : N -> option error;
  commit_trace : list Transact.attempt;
  commit_fault : nat -> option error
}.

(** The closures that call [db.s.commit(rec)]; they do not touch the
    counter. *)
Definition commit_exec (fails : nat -> option error) (n : nat)
    (b : Merge.build) : Transact.exec_result Merge.build :=
  match fails n with
  | Some e => Transact.ExecRet (Some e) 0 b
  | None =>
      Transact.ExecRet None 0
        (Merge.Build (Merge.snap b) (Merge.kerrCnt b) (Merge.dropCnt b)
           (Merge.rec b)
           (Merge.Store (Merge.nextFileNum (Merge.sto b))
              (Merge.disk (Merge.sto b))
              (commit (Merge.rec b) (Merge.sess (Merge.sto b)))))
  end.

(** The two ways a compaction is carried out. *)
Inductive path := TrivialMove | FullMerge.

Inductive tc_end :=
| TcDone (p : path) (b : Merge.build)  (* returned *)
| TcUnwound (b : Merge.build)          (* the sentinel panic propagates *)
| TcRunning (b : Merge.build)          (* a transact is still retrying *)
| TcIndexPanic.                        (* c.tables[0][0] out of range *)

(** The variables declared at lines 369-378 hold their zero values. *)
Definition fresh (r : sessionRecord) (s : Merge.store) : Merge.build :=
  Merge.Build (Merge.Snapshot false "" 0 0 0 0) 0 0 r s.

(** Lines 358-364: every input table is staged as deleted. *)
Definition delInputs (c : compaction) (r : sessionRecord) : sessionRecord :=
  let r0 :=
    foldl (fun r t => delTable (wrap_int (c_level c + 0)) (file_num t) r)
      r (fst (c_tables c)) in
  foldl (fun r t => delTable (wrap_int (c_level c + 1)) (file_num t) r)
    r0 (snd (c_tables c)).

Definition tableCompaction (db : DB) (c : compaction) (noTrivial : bool)
    (w : tc_world) (s : Merge.store) : tc_end :=
  let rec0 := addCompPtr (c_level c) (c_imax c) (SessionRecord [] [] []) in
  if negb noTrivial && trivial c then
    match fst (c_tables c) with
    | [] => TcIndexPanic
    | t :: _ =>
        let rec1 :=
          addTableFile (wrap_int (c_level c + 1)) t
            (delTable (c_level c) (file_num t) rec0) in
        match snd (Transact.compactionTransact db
                     (commit_exec (move_fault w)) None (move_trace w)
                     (fresh rec1 s)) with
        | Transact.Done b => TcDone TrivialMove b
        | Transact.Unwound b _ => TcUnwound b
        | Transact.Running b => TcRunning b
        end
    end
  else
    match snd (Transact.compactionTransact db
                 (fun n => Merge.exec db c (build_world w n))
                 (Some (Merge.rollback (remove_fault w))) (build_trace w)
                 (fresh (delInputs c rec0) s)) with
    | Transact.Done b =>
        match snd (Transact.compactionTransact db
                     (commit_exec (commit_fault w)) None (commit_trace w)
                     b) with
        | Transact.Done b' => TcDone FullMerge b'
        | Transact.Unwound b' _ => TcUnwound b'
        | Transact.Running b' => TcRunning b'
        end
    | Transact.Unwound b _ => TcUnwound b
    | Transact.Running b => TcRunning b
    end.

(** One [tableCompaction] call made by the range compaction. *)
Record call := Call {
  call_level : Z;
  call_c : compaction;
  call_noTrivial : bool;
  call_end : tc_end
}.

Inductive range_end :=
| RangeDone (s : Merge.store)
| RangeAborted (e : tc_end)   (* a call did not return *)
| RangeSlicePanic             (* v.tables[1:] out of range *)
| RangeFuel.

(** Lines 565-568 and 580-582: the compaction of one level, if the session
    yields one. *)
Definition compactLevel (db : DB) (w : Z -> tc_world) (level : Z)
    (umin umax : ukey) (s : Merge.store) : list call * range_end :=
  match getCompactionRange (Merge.sess s) level umin umax with
  | None => ([], RangeDone s)
  | Some c =>
      let e := tableCompaction db c true (w level) s in
      ([Call level c true e],
       match e with
       | TcDone _ b => RangeDone (Merge.sto b)
       | other => RangeAborted other
       end)
  end.

(** Lines 571-576: [m] after the loop over [v.tables[1:]], whose index [i]
    starts at [0]. *)
Fixpoint deepest (umin umax : ukey) (i : Z) (ts : list tFiles) (m : Z) : Z :=
  match ts with
  | [] => m
  | t :: ts' =>
      deepest umin umax (incr i) ts'
        (if overlaps t umin umax then wrap_int (i + 1) else m)
  end.

(** Lines 579-583. *)
Fixpoint levelsLoop (fuel : nat) (db : DB) (w : Z -> tc_world)
    (level m : Z) (umin umax : ukey) (s : Merge.store)
    : list call * range_end :=
  if level <? m then
    match fuel with
    | O => ([], RangeFuel)
    | Datatypes.S fuel' =>
        match compactLevel db w level umin umax s with
        | (cs, RangeDone s') =>
            let '(cs', e) :=
              levelsLoop fuel' db w (incr level) m umin umax s' in
            (cs ++ cs', e)
        | other => other
        end
    end
  else ([], RangeDone s).

Definition tableRangeCompaction (db : DB) (w : Z -> tc_world) (level : Z)
    (umin umax : ukey) (s : Merge.store) : list call * range_end :=
  if 0 <=? level then compactLevel db w level umin umax s
  else
    match version_tables (Merge.sess s) with
    | [] => ([], RangeSlicePanic)
    | _ :: deeper =>
        let m := deepest umin umax 0 deeper 1 in
        levelsLoop (Z.to_nat m) db w 0 m umin umax s
    end.

(** The range compaction in the words of the specification: going up from
    [level] to [m - 1], a level for which the session yields no compaction
    is passed over, a level for which it yields one has it run as a full
    merge with [noTrivial = true], and the walk ends at [m] or at the first
    call that does not return. *)
Inductive visits (db : DB) (w : Z -> tc_world) (umin umax : ukey) (m : Z)
    : Z -> Merge.store -> list call -> range_end -> Prop :=
| visits_end level s :
    m <= level ->
    visits db w umin umax m level s [] (RangeDone s)
| visits_none level s cs e :
    level < m ->
    getCompactionRange (Merge.sess s) level umin umax = None ->
    visits db w umin umax m (level + 1) s cs e ->
    visits db w umin umax m level s cs e
| visits_run level s c b cs e :
    level < m ->
    getCompactionRange (Merge.sess s) level umin umax = Some c ->
    tableCompaction db c true (w level) s = TcDone FullMerge b ->
    visits db w umin umax m (level + 1) (Merge.sto b) cs e ->
    visits db w umin umax m level s
      (Call level c true (TcDone FullMerge b) :: cs) e
| visits_abort level s c e :
    level < m ->
    getCompactionRange (Merge.sess s) level umin umax = Some c ->
    tableCompaction db c true (w level) s = e ->
    (forall p b, e <> TcDone p b) ->
    visits db w umin umax m level s [Call level c true e] (RangeAborted e).

End Table.
End Compaction.

(** ** Observations used in the statements *)

Module Obs.
Section Obs.
Context `{Leveldb}.

(** [x++] repeated [n] times. *)
Fixpoint incr_by (n : nat) (x : Z) : Z :=
  match n with
  | O => x
  | Datatypes.S n' => incr_by n' (incr x)
  end.


(** The entries of the tables staged as added, table by table. *)
Definition staged (b : Merge.build) : list (list (ikey * value)) :=
  map (fun r => file_entries (snd r)) (addedTables (Merge.rec b)).

(** Everything appended to the output so far: the staged tables followed by
    the entries of the open writer. *)
Definition output (s : Merge.st) : list (ikey * value) :=
  concat (staged (fst s))
  ++ match Merge.tw (snd s) with
     | Some w => Merge.tw_entries w
     | None => []
     end.

(** What the course of a call depends on in a state: everything but the
    transact counter, the file numbers and the store. *)
Definition view (s : Merge.st)
    : Merge.snapshot * Z * Z * list (list (ikey * value)) * Merge.track
      * bool * option (list (ikey * value)) :=
  (Merge.snap (fst s), Merge.kerrCnt (fst s), Merge.dropCnt (fst s),
   staged (fst s), Merge.trk (snd s), Merge.snapSched (snd s),
   option_map Merge.tw_entries (Merge.tw (snd s))).

(** Two pieces of the loop body end the same way, in states with the same
    view. *)
Inductive alike : Merge.flow -> Merge.flow -> Prop :=
| alike_go s s' : view s = view s' -> alike (Merge.Go s) (Merge.Go s')
| alike_skip s s' : view s = view s' -> alike (Merge.Skip s) (Merge.Skip s')
| alike_fail e s s' :
    view s = view s' -> alike (Merge.Fail e s) (Merge.Fail e s')
| alike_unwind s s' :
    view s = view s' -> alike (Merge.Unwind s) (Merge.Unwind s').

(** The tables a call that succeeded has staged. *)
Definition finalOf (r : Transact.exec_result Merge.build)
    : option (list (list (ikey * value))) :=
  match r with
  | Transact.ExecRet None _ b => Some (staged b)
  | _ => None
  end.

(** Started from the build [b], a call in which nothing fails ends with
    the tables [F] staged. *)
Definition resumes_to (db : DB) (c : compaction) (b : Merge.build)
    (F : list (list (ikey * value))) : Prop :=
  finalOf (Merge.exec db c Merge.calm b) = Some F.

(** The rest of a call from line 448 of iteration [i] on. *)
Definition resumeAt (wd : Merge.world) (db : DB) (c : compaction) (i : Z)
    (r : ikey * value) (rs : list (ikey * value)) (s : Merge.st)
    : Transact.exec_result Merge.build :=
  match Merge.handle wd db c i r s with
  | Merge.Go s' | Merge.Skip s' => Merge.finishRun wd db c (incr i) rs s'
  | Merge.Fail e s' =>
      Transact.ExecRet (Some e) (Merge.cnt (snd s')) (fst s')
  | Merge.Unwind s' => Transact.ExecExit (fst s')
  end.

(** A state from which a failure is harmless: the snapshot is up to date,
    or it is about to be retaken and no table is open. *)
Definition safe (db : DB) (c : compaction) (F : list (list (ikey * value)))
    (s : Merge.st) : Prop :=
  (Merge.snapSched (snd s) = false -> resumes_to db c (fst s) F)
  /\ (Merge.snapSched (snd s) = true -> Merge.tw (snd s) = None).

(** A call ends well: with the tables [F] staged when it succeeds, ready to
    be resumed towards [F] when it fails. *)
Definition sound (db : DB) (c : compaction) (F : list (list (ikey * value)))
    (r : Transact.exec_result Merge.build) : Prop :=
  match r with
  | Transact.ExecRet None _ b => staged b = F
  | Transact.ExecRet (Some _) _ b => resumes_to db c b F
  | Transact.ExecExit _ => True
  end.

(** A table file staged as added in the record that is still on disk. *)
Definition dangling (b : Merge.build) (n : N) : Prop :=
  n ∈ map (fun r => file_num (snd r)) (addedTables (Merge.rec b))
  /\ n ∈ Merge.disk (Merge.sto b).

(** Two states of a call with the same tracking variables, the same
    counters and the same output. *)
Definition same_merge (s s' : Merge.st) : Prop :=
  Merge.trk (snd s') = Merge.trk (snd s)
  /\ Merge.kerrCnt (fst s') = Merge.kerrCnt (fst s)
  /\ Merge.dropCnt (fst s') = Merge.dropCnt (fst s)
  /\ output s' = output s.

(** The record handled between [s] and [s'] was dropped: nothing was
    appended, [dropCnt] was incremented and [lastSeq] is its sequence. *)
Definition dropped_into (s s' : Merge.st) (seq : Z) : Prop :=
  output s' = output s
  /\ Merge.dropCnt (fst s') = incr (Merge.dropCnt (fst s))
  /\ Merge.kerrCnt (fst s') = Merge.kerrCnt (fst s)
  /\ Merge.hasLastUkey (Merge.trk (snd s')) = true
  /\ Merge.lastSeq (Merge.trk (snd s')) = seq.

(** The iteration [i] that handles the record [r] in state [s] drops it;
    the only other way for it to end is that the table before a grandparent
    boundary cannot be finished, which fails the call before the record is
    looked at. *)
Definition body_drops (wd : Merge.world) (db : DB) (c : compaction) (i : Z)
    (r : ikey * value) (s : Merge.st) (seq : Z) : Prop :=
  (exists e, Merge.body wd db c i r s = Merge.Fail e s
             /\ Merge.fault wd (Merge.OpFinishStop i) = Some e)
  \/ (exists s', Merge.body wd db c i r s = Merge.Skip s'
                 /\ dropped_into s s' seq).

(** The call that starts from [b] and has handled the records [pre],
    reaching state [s1], passes over the next record: the rest of the loop
    is the loop over the records [post] from a state with the output of
    [s1] and one more in [dropCnt] (or the call fails at that record's
    grandparent boundary). *)
Definition passes_over (wd : Merge.world) (db : DB) (c : compaction)
    (b : Merge.build) (pre post : list (ikey * value)) (s1 : Merge.st)
    : Prop :=
  let i := incr_by (length pre) 0 in
  (exists e s, Merge.loop wd db c 0 (Merge.yielded wd c) (Merge.enter b)
               = Merge.Fail e s
               /\ Merge.fault wd (Merge.OpFinishStop i) = Some e)
  \/ (exists s', output s' = output s1
        /\ Merge.dropCnt (fst s') = incr (Merge.dropCnt (fst s1))
        /\ Merge.loop wd db c 0 (Merge.yielded wd c) (Merge.enter b)
           = Merge.loop wd db c (incr i) post s').

(** In iteration [i] nobody pauses or closes and no table operation
    fails. *)
Definition calm_at (wd : Merge.world) (i : Z) : Prop :=
  Merge.pauseAt wd i = Merge.NoEvent
  /\ Merge.fault wd (Merge.OpCreate i) = None
  /\ Merge.fault wd (Merge.OpAppend i) = None
  /\ Merge.fault wd (Merge.OpFinishSize i) = None.

(** A run of well-formed records of the user key tracked in [lastUkey],
    with sequence numbers strictly below [bound] and strictly descending. *)
Fixpoint older_versions (db : DB) (u : ukey) (bound : Z)
    (rs : list (ikey * value)) : Prop :=
  match rs with
  | [] => True
  | r :: rs' =>
      match parseIkey (fst r) with
      | Parsed uk seq _ =>
          uCompare db u uk = 0 /\ seq < bound
          /\ older_versions db u seq rs'
      | ParseErr _ => False
      end
  end.

(** The deepest level from [1] on whose tables overlap the range, in the
    words of the specification; [None] when there is none. *)
Definition overlapping (tables : list tFiles) (umin umax : ukey) (l : nat)
    : bool :=
  match tables !! l with
  | Some t => overlaps t umin umax
  | None => false
  end.

End Obs.
End Obs.

(** ** An instance for the scenarios *)

Module Scenario.

Inductive err :=
| ErrIO (msg : string)
| ErrCorrupted (msg : string).

(** The keys of the scenarios, by name: ["a#5"] is user key ["a"] at
    sequence 5, ["a#7D"] a deletion; any other key does not parse. *)
Definition parse (k : ikey) : parsed err :=
  if String.eqb k "a#5" then Parsed "a" 5 ktVal
  else if String.eqb k "a#3" then Parsed "a" 3 ktVal
  else if String.eqb k "a#7D" then Parsed "a" 7 ktDel
  else if String.eqb k "a#2" then Parsed "a" 2 ktVal
  else if String.eqb k "b#1" then Parsed "b" 1 ktVal
  else if String.eqb k "c#1" then Parsed "c" 1 ktVal
  else ParseErr (ErrCorrupted k).

Definition compareBytes (a b : ukey) : Z :=
  match String.compare a b with
  | Eq => 0
  | Lt => -1
  | Gt => 1
  end.

(** A session whose state is the list of its tables by level, where a
    commit changes nothing and every range query at level 0 or 1 yields the
    compaction [c]. *)
Definition rangeQuery (c : compaction) (s : list tFiles) (level : Z)
    (umin umax : ukey) : option compaction :=
  if (0 <=? level) && (level <=? 1) then Some c else None.

Definition mergeOf (records : list (ikey * value)) : compaction :=
  Compaction 0 ([], []) "" false records (fun _ => false) (fun _ => true).

#[local] Instance leveldb : Leveldb := {|
  error := err;
  IsCorrupted := fun e => match e with ErrCorrupted _ => true | _ => false end;
  parseIkey := parse;
  kMaxSeq := 2 ^ 56 - 1;
  BytesLen := fun es => Z.of_nat (length es);
  session := list tFiles;
  version_tables := fun s => s;
  commit := fun _ s => s;
  getCompactionRange := rangeQuery (mergeOf [("b#1", "x")]);
  overlaps := fun t _ _ => match t with [] => false | _ => true end
|}.

Definition db (minSeq tableSize : Z) (strict : bool) : DB :=
  Build_DB compareBytes strict (fun _ => tableSize) false minSeq.

Definition calm : Merge.world := Merge.calm.

(** An attempt of a transact whose publication is accepted and whose timer
    fires. *)
Definition quiet : Transact.attempt :=
  Transact.Attempt false Transact.PubSent Transact.TimerFired.

Definition emptyStore : Merge.store := Merge.Store 0 ∅ [].

Definition start : Merge.build :=
  Compaction.fresh (SessionRecord [] [] []) emptyStore.

(** Two versions of one user key. *)
Definition versions : compaction := mergeOf [("a#5", "v5"); ("a#3", "v3")].

(** The state of the merge of [versions] when its second record arrives:
    ["a"] is tracked at sequence 5 and the first record is in the writer. *)
Definition second : Merge.st :=
  (Merge.Build (Merge.Snapshot false "" 0 0 0 0) 0 0 (SessionRecord [] [] [])
     (Merge.Store 1 ∅ []),
   Merge.Locals (Merge.Track true "a" 5) false
     (Some (Merge.TWriter 0 [("a#5", "v5")])) 1).

(** A tombstone and a key that does not parse. *)
Definition tombstone : compaction := mergeOf [("a#7D", ""); ("a#2", "v2")].
Definition garbled : compaction := mergeOf [("zzz", "?"); ("a#2", "v2")].

(** Two user keys, merged into tables of one entry each. *)
Definition two : compaction := mergeOf [("b#1", "x"); ("c#1", "y")].

(** A call in which the iterator fails after its first record. *)
Definition readFails : Merge.world :=
  Merge.World (Some (1%nat, ErrIO "read")) (fun _ => None)
    (fun _ => Merge.NoEvent).

(** A call in which the second table cannot be created. *)
Definition createFails (e : err) : Merge.world :=
  Merge.World None
    (fun o => match o with
              | Merge.OpCreate i => if i =? 1 then Some e else None
              | _ => None
              end)
    (fun _ => Merge.NoEvent).

(** A compaction during which nothing fails, and one whose first call of
    the build closure is [wd]. *)
Definition steady : Compaction.tc_world :=
  Compaction.TcWorld [quiet] (fun _ => None) [quiet; quiet] (fun _ => calm)
    (fun _ => None) [quiet] (fun _ => None).

Definition firstCall (wd : Merge.world) (remove : N -> option err)
    : Compaction.tc_world :=
  Compaction.TcWorld [quiet] (fun _ => None) [quiet; quiet]
    (fun n => match n with O => wd | _ => calm end)
    remove [quiet] (fun _ => None).

(** What a compaction that returned has staged as added. *)
Definition stagedBy (e : Compaction.tc_end)
    : option (list (list (ikey * value))) :=
  match e with
  | Compaction.TcDone _ b => Some (Obs.staged b)
  | _ => None
  end.

(** What a call of the build closure that succeeded has staged, with its
    [dropCnt] and [kerrCnt]. *)
Definition emitted (r : Transact.exec_result Merge.build)
    : option (list (list (ikey * value)) * Z * Z) :=
  match r with
  | Transact.ExecRet None _ b =>
      Some (Obs.staged b, Merge.dropCnt b, Merge.kerrCnt b)
  | _ => None
  end.

(** A closure that fails with a transient error and counts [k]. *)
Definition failing (k : Z) (n : nat) (s : unit)
    : Transact.exec_result unit :=
  Transact.ExecRet (Some (ErrIO "disk full")) k s.


(** A tombstone, a key that does not parse, and an older version of the
    deleted key. *)
Definition interrupted : compaction :=
  mergeOf [("a#7D", ""); ("zzz", "?"); ("a#2", "v2")].

(** A build with one finished table, staged at level 1 and on disk. *)
Definition oneStaged : Merge.build :=
  Merge.Build (Merge.Snapshot false "" 0 1 0 0) 0 0
    (SessionRecord [] [(1, TFile 0 [("b#1", "x")])] [])
    (Merge.Store 1 {[ 0%N ]} []).

(** The state of the merge of [tombstone] after its first record, at
    [minSeq = 7]. *)
Definition afterTombstone : Merge.st :=
  match Merge.body calm (db 7 100 false) tombstone 0 ("a#7D", "")
          (Merge.enter start) with
  | Merge.Skip s => s
  | _ => Merge.enter start
  end.

(** A store with an empty level 0 and one table at level 1. *)
Definition twoLevels : Merge.store :=
  Merge.Store 8 {[ 7%N ]} [[]; [TFile 7 [("b#0", "w")]]].

End Scenario.

(** ** Invariants of the merge and of the compactions *)

Module Inv.
Section Inv.
Context `{Leveldb}.

(** The size at which the output tables of the compaction [c] are cut. *)
Definition tableSize (db : DB) (c : compaction) : Z :=
  GetCompactionTableSize db (wrap_int (c_level c + 1)).

(** The entries [es] of a table end with the record that closed it: before
    that record the table was empty or below the size threshold. *)
Definition cut_in_time (db : DB) (c : compaction)
    (es : list (ikey * value)) : Prop :=
  exists es' e, es = es' ++ [e]
    /\ (es' = [] \/ BytesLen es' < tableSize db c).

Definition tables_cut_in_time (db : DB) (c : compaction) (b : Merge.build)
    : Prop :=
  Forall (cut_in_time db c) (Obs.staged b).

(** The state a piece of the loop ends in. *)
Definition state_of (f : Merge.flow) : Merge.st :=
  match f with
  | Merge.Go s | Merge.Skip s | Merge.Fail _ s | Merge.Unwind s => s
  end.

(** The build a call of the closure leaves. *)
Definition build_of (r : Transact.exec_result Merge.build) : Merge.build :=
  match r with
  | Transact.ExecRet _ _ b | Transact.ExecExit b => b
  end.

(** The file numbers of the tables staged as added. *)
Definition staged_nums (b : Merge.build) : list N :=
  map (fun r : Z * tFile => file_num (snd r)) (addedTables (Merge.rec b)).

(** The staged tables are distinct files numbered from [n0] on and below
    the next free number, and they are on disk. *)
Definition fresh_files (n0 : N) (b : Merge.build) : Prop :=
  NoDup (staged_nums b)
  /\ (n0 <= Merge.nextFileNum (Merge.sto b))%N
  /\ forall n, n ∈ staged_nums b ->
       (n0 <= n < Merge.nextFileNum (Merge.sto b))%N
       /\ n ∈ Merge.disk (Merge.sto b).

(** A property [PB] of the build holds in a state of the loop, with the
    property [PW] of its open writer. *)
Definition kept (PB : Merge.build -> Prop)
    (PW : Merge.build -> Merge.tWriter -> Prop) (s : Merge.st) : Prop :=
  PB (fst s)
  /\ match Merge.tw (snd s) with
     | Some w => PW (fst s) w
     | None => True
     end.

(** A piece of the loop ends in a state where they hold; when it returns an
    error or unwinds the writer is dropped and only [PB] is left. *)
Definition keeps (PB : Merge.build -> Prop)
    (PW : Merge.build -> Merge.tWriter -> Prop) (f : Merge.flow) : Prop :=
  match f with
  | Merge.Go s | Merge.Skip s => kept PB PW s
  | Merge.Fail _ s | Merge.Unwind s => PB (fst s)
  end.

(** The input tables of a compaction with the level each one is deleted
    from, in the order of lines 358-364. *)
Definition inputs (c : compaction) : list (Z * N) :=
  map (fun t => (wrap_int (c_level c + 0), file_num t)) (fst (c_tables c))
  ++ map (fun t => (wrap_int (c_level c + 1), file_num t))
       (snd (c_tables c)).

(** The build [b] with the session [ss]. *)
Definition with_sess (b : Merge.build) (ss : session) : Merge.build :=
  Merge.Build (Merge.snap b) (Merge.kerrCnt b) (Merge.dropCnt b)
    (Merge.rec b)
    (Merge.Store (Merge.nextFileNum (Merge.sto b)) (Merge.disk (Merge.sto b))
       ss).

(** The build [b] once its record is committed. *)
Definition committed (b : Merge.build) : Merge.build :=
  with_sess b (commit (Merge.rec b) (Merge.sess (Merge.sto b))).

(** The record of a full merge under way: the compaction pointer and the
    deletions it was given, tables added at the target level only, and the
    session [ss] not touched. *)
Definition merge_record (c : compaction) (cp : list (Z * ikey))
    (dt : list (Z * N)) (ss : session) (b : Merge.build) : Prop :=
  compPtrs (Merge.rec b) = cp
  /\ deletedTables (Merge.rec b) = dt
  /\ Merge.sess (Merge.sto b) = ss
  /\ Forall (fun r : Z * tFile => fst r = wrap_int (c_level c + 1))
       (addedTables (Merge.rec b)).

(** Between the states [s] and [s'] of a call the records [l] were appended
    to the output, and the tables staged in [s] are still staged, in front
    of the later ones. *)
Definition grows (s s' : Merge.st) (l : list (ikey * value)) : Prop :=
  (exists more, Obs.staged (fst s') = Obs.staged (fst s) ++ more)
  /\ Obs.output s' = Obs.output s ++ l.

(** A step of iteration [i] that appends nothing and drops nothing; the
    snapshot, if retaken, is at [i]. *)
Definition still (i : Z) (s s' : Merge.st) : Prop :=
  grows s s' []
  /\ Merge.dropCnt (fst s') = Merge.dropCnt (fst s)
  /\ Merge.cnt (snd s') = Merge.cnt (snd s)
  /\ (Merge.snapIter (Merge.snap (fst s'))
      = Merge.snapIter (Merge.snap (fst s))
      \/ Merge.snapIter (Merge.snap (fst s')) = i).

(** What the body of the loop does with the record [r] at iteration [i]:
    it appends it, or it counts it as dropped; when the body fails the
    record may or may not have been appended. *)
Definition handled (i : Z) (r : ikey * value) (s : Merge.st)
    (f : Merge.flow) : Prop :=
  match f with
  | Merge.Go s' =>
      grows s s' [r]
      /\ Merge.dropCnt (fst s') = Merge.dropCnt (fst s)
      /\ Merge.cnt (snd s') = Merge.cnt (snd s)
      /\ (Merge.snapIter (Merge.snap (fst s'))
          = Merge.snapIter (Merge.snap (fst s))
          \/ Merge.snapIter (Merge.snap (fst s')) = i)
  | Merge.Skip s' =>
      grows s s' []
      /\ Merge.dropCnt (fst s') = incr (Merge.dropCnt (fst s))
      /\ Merge.cnt (snd s') = Merge.cnt (snd s)
      /\ (Merge.snapIter (Merge.snap (fst s'))
          = Merge.snapIter (Merge.snap (fst s))
          \/ Merge.snapIter (Merge.snap (fst s')) = i)
  | Merge.Fail _ s' | Merge.Unwind s' =>
      (grows s s' [] \/ grows s s' [r])
      /\ Merge.cnt (snd s') = Merge.cnt (snd s)
  end.

End Inv.
End Inv.

(** ** [memCompaction] and its helper [cMem] *)

Module Mem.
Section Mem.
Context `{Leveldb}.

(** Modelled from the spec: the level [v.pickLevel] gives for the key range
    of a table in the current version of the session. *)
Variable pickLevel : session -> tFile -> Z.

(** Modelled from the spec: the setters of the journal number and of the
    sequence number of a session record. *)
Variable setJournalNum : Z -> sessionRecord -> sessionRecord.
Variable setSeqNum : Z -> sessionRecord -> sessionRecord.

(** The struct [cMem]; its session is part of the store. *)
Record cMem := CMem {
  level : Z;
  rec : sessionRecord
}.

(** [newCMem]. *)
Definition newCMem : cMem := CMem 0 (SessionRecord [] [] []).

(** What of the database the flush reads and writes: the frozen memtable
    ([None] when there is none) with the journal number and the sequence
    number it was frozen at, and the store. *)
Record mdb := Mdb {
  frozen : option (list (ikey * value));
  journalNum : Z;
  frozenSeq : Z;
  sto : Merge.store
}.

(** Modelled from the spec: [tops.createFrom(iter)] builds one table of the
    entries of the iterator, atomically: when it succeeds the table file is
    on disk under the next free file number. *)
Definition createFrom (es : list (ikey * value)) (s : Merge.store)
    : tFile * Merge.store :=
  (TFile (Merge.nextFileNum s) es,
   Merge.Store (N.succ (Merge.nextFileNum s))
     ({[ Merge.nextFileNum s ]} ∪ Merge.disk s) (Merge.sess s)).

(** [cMem.flush], lines 75-96; [fails] is the error of [createFrom]. *)
Definition flush (fails : option error) (es : list (ikey * value))
    (lvl : Z) (st : cMem * Merge.store) : error + cMem * Merge.store :=
  match fails with
  | Some e => inl e
  | None =>
      let '(t, s') := createFrom es (snd st) in
      let lvl' := if lvl <? 0 then pickLevel (Merge.sess s') t else lvl in
      inr (CMem lvl' (addTableFile lvl' t (rec (fst st))), s')
  end.

(** [cMem.reset], lines 98-100. *)
Definition reset (c : cMem) : cMem := CMem (level c) (SessionRecord [] [] []).

(** [cMem.commit], lines 102-108: the record is stamped, then committed;
    [fails] is the error of [s.commit]. *)
Definition stamp (journal seq : Z) (r : sessionRecord) : sessionRecord :=
  setSeqNum seq (setJournalNum journal r).

Definition commit_rec (fails : option error) (journal seq : Z)
    (st : cMem * Merge.store) : option error * (cMem * Merge.store) :=
  let r := stamp journal seq (rec (fst st)) in
  let c := CMem (level (fst st)) r in
  match fails with
  | Some e => (Some e, (c, snd st))
  | None =>
      (None,
       (c, Merge.Store (Merge.nextFileNum (snd st)) (Merge.disk (snd st))
             (commit r (Merge.sess (snd st)))))
  end.

(** The [select] that pauses the table compaction, lines 285-293, and the
    one that waits for it to resume, lines 327-334. *)
Inductive pause_sel := PauseSent | PausePerErr | PauseClosed.
Inductive resume_sel := Resumed | ResumeClosed.

(** What the outside world does during one call of [memCompaction]. *)
Record mem_world := MemWorld {
  pause : pause_sel;
  flush_trace : list Transact.attempt;
  flush_fault : nat -> option error;
  remove_fault : N -> option error;
  commit_trace : list Transact.attempt;
  commit_fault : nat -> option error;
  resume : resume_sel
}.

(** The closure of the "mem@flush" transact, lines 296-299, and its
    rollback, lines 300-309. *)
Definition flush_exec (w : mem_world) (es : list (ikey * value)) (n : nat)
    (st : cMem * Merge.store) : Transact.exec_result (cMem * Merge.store) :=
  match flush (flush_fault w n) es (-1) st with
  | inl e => Transact.ExecRet (Some e) 0 st
  | inr st' => Transact.ExecRet None 0 st'
  end.

Definition flush_rollback (w : mem_world) (st : cMem * Merge.store)
    : option error * (cMem * Merge.store) :=
  let '(e, d) :=
    Merge.removeTables (remove_fault w) (addedTables (rec (fst st)))
      (Merge.disk (snd st)) in
  (e, (fst st,
       Merge.Store (Merge.nextFileNum (snd st)) d (Merge.sess (snd st)))).

(** The closure of the "mem@commit" transact, lines 312-316. *)
Definition commit_exec (w : mem_world) (journal seq : Z) (n : nat)
    (st : cMem * Merge.store) : Transact.exec_result (cMem * Merge.store) :=
  let '(e, st') := commit_rec (commit_fault w n) journal seq st in
  Transact.ExecRet e 0 st'.

(** How a call of [memCompaction] ends: it returns without a flush or after
    one, having called [compSendTrigger] or not; the sentinel panic
    propagates; or a transact is still retrying.  [c] is the [cMem] of the
    call.  The statistics are left out. *)
Inductive mem_end :=
| MemReturned (triggered : bool) (d : mdb)
| MemFlushed (triggered : bool) (c : cMem) (d : mdb)
| MemUnwound (c : cMem) (d : mdb)
| MemRunning (c : cMem) (d : mdb).

Definition with_sto (d : mdb) (s : Merge.store) : mdb :=
  Mdb (frozen d) (journalNum d) (frozenSeq d) s.

(** [db.dropFrozenMem()]. *)
Definition dropFrozenMem (d : mdb) : mdb :=
  Mdb None (journalNum d) (frozenSeq d) (sto d).

(** [memCompaction], lines 264-338. *)
Definition memCompaction (db : DB) (w : mem_world) (d : mdb) : mem_end :=
  match frozen d with
  | None => MemReturned false d
  | Some es =>
      if (Z.of_nat (length es) =? 0) then MemReturned false (dropFrozenMem d)
      else
        match pause w with
        | PauseClosed => MemReturned false d
        | p =>
            match snd (Transact.compactionTransact db (flush_exec w es)
                         (Some (flush_rollback w)) (flush_trace w)
                         (newCMem, sto d)) with
            | Transact.Done st1 =>
                match snd (Transact.compactionTransact db
                             (commit_exec w (journalNum d) (frozenSeq d))
                             None (commit_trace w) st1) with
                | Transact.Done st2 =>
                    let d' := dropFrozenMem (with_sto d (snd st2)) in
                    match p, resume w with
                    | PauseSent, ResumeClosed => MemFlushed false (fst st2) d'
                    | _, _ => MemFlushed true (fst st2) d'
                    end
                | Transact.Unwound st2 _ =>
                    MemUnwound (fst st2) (with_sto d (snd st2))
                | Transact.Running st2 =>
                    MemRunning (fst st2) (with_sto d (snd st2))
                end
            | Transact.Unwound st1 _ =>
                MemUnwound (fst st1) (with_sto d (snd st1))
            | Transact.Running st1 =>
                MemRunning (fst st1) (with_sto d (snd st1))
            end
        end
  end.

End Mem.
End Mem.

(** ** The commands and the two dispatch loops *)

Module Dispatch.

(** What a command is acknowledged with: [nil] or [ErrClosed]. *)
Inductive ack_err := AckNil | AckClosed.

(** The commands [cIdle] and [cRange], with their [ackC] ([None] for the
    nil channel, otherwise the name of the channel), and a value of any
    other type that implements [cCmd]. *)
Inductive cCmd :=
| CIdle (ackC : option N)
| CRange (level : Z) (min max : ukey) (ackC : option N)
| COther.

(** [cIdle.ack] and [cRange.ack], lines 615-637: the send on [ackC], when
    there is one; a panic of the send is recovered. *)
Definition ack (x : cCmd) (e : ack_err) : list (cCmd * ack_err) :=
  match x with
  | CIdle (Some _) | CRange _ _ _ (Some _) => [(x, e)]
  | _ => []
  end.

Definition ackAll (q : list cCmd) (e : ack_err) : list (cCmd * ack_err) :=
  flat_map (fun x => ack x e) q.

(** How a call made by a loop ends: it returns, it panics with
    [errCompactionTransactExiting], or it panics with something else. *)
Inductive call_end := Returns | Exits | Panics.

(** How a loop ends: it returns after [db.closeW.Done()], it panics, or it
    is waiting for the next event. *)
Inductive loop_end := Stopped | Panicked | Waiting.

(** The cases of the [select] of [tCompaction]; [TDefault] exists only in
    the one taken when a compaction is needed.  The command received is
    not nil: the senders of this file send a [cIdle] or a [cRange]. *)
Inductive t_select :=
| TDefault
| TCmd (x : cCmd)
| TPause (resumed : bool)
| TClose.

(** One iteration of the loop of [tCompaction] as the outside world makes
    it: the answer of [tableNeedCompaction()], the case of the [select],
    and how [tableRangeCompaction] and [tableAutoCompaction] end when they
    are called. *)
Record t_iter := TIter {
  need : bool;
  sel : t_select;
  range_end : call_end;
  auto_end : call_end
}.

(** The deferred function of [tCompaction], lines 727-740, on the sentinel
    panic or the return: the queue is answered, then the command in [x]. *)
Definition closing (ackQ : list cCmd) (x : option cCmd)
    : list (cCmd * ack_err) :=
  ackAll ackQ AckClosed
  ++ match x with
     | Some x => ack x AckClosed
     | None => []
     end.

(** [tCompaction], lines 723-782, with the acknowledgements it sends. *)
Fixpoint tCompaction (its : list t_iter) (ackQ : list cCmd)
    : list (cCmd * ack_err) * loop_end :=
  match its with
  | [] => ([], Waiting)
  | it :: its' =>
      let drained := if need it then [] else ackAll ackQ AckNil in
      let ackQ1 := if need it then ackQ else [] in
      let auto (sent : list (cCmd * ack_err)) (q : list cCmd) :=
        match auto_end it with
        | Returns =>
            let '(acks, l) := tCompaction its' q in (sent ++ acks, l)
        | Exits => (sent ++ closing q None, Stopped)
        | Panics => (sent, Panicked)
        end in
      match sel it with
      | TDefault => if need it then auto drained ackQ1 else (drained, Waiting)
      | TClose => (drained ++ closing ackQ1 None, Stopped)
      | TPause true =>
          let '(acks, l) := tCompaction its' ackQ1 in (drained ++ acks, l)
      | TPause false => (drained ++ closing ackQ1 None, Stopped)
      | TCmd x =>
          match x with
          | CIdle _ => auto drained (ackQ1 ++ [x])
          | CRange _ _ _ _ =>
              match range_end it with
              | Returns => auto (drained ++ ack x AckNil) ackQ1
              | Exits => (drained ++ closing ackQ1 (Some x), Stopped)
              | Panics => (drained, Panicked)
              end
          | COther => (drained, Panicked)
          end
      end
  end.



Definition is_idle (x : cCmd) : bool :=
  match x with CIdle _ => true | _ => false end.

Section MemLoop.
Context `{Leveldb}.
Variable pickLevel : session -> tFile -> Z.
Variable setJournalNum : Z -> sessionRecord -> sessionRecord.
Variable setSeqNum : Z -> sessionRecord -> sessionRecord.

(** The events of [mCompaction]: a command arrives, and the world of the
    call of [memCompaction] it leads to; the close channel is seen; and,
    between two commands, the writer freezes a memtable. *)
Inductive m_event :=
| MCmd (x : cCmd) (w : Mem.mem_world)
| MFreeze (es : list (ikey * value)) (journal seq : Z)
| MClose.

(** An acknowledgement of the mem loop, with the world of the call before
    it and the database as that call left it. *)
Record m_ack := MAck {
  m_cmd : cCmd;
  m_err : ack_err;
  m_world : Mem.mem_world;
  m_after : Mem.mdb
}.

Definition m_acks (x : cCmd) (e : ack_err) (w : Mem.mem_world)
    (d : Mem.mdb) : list m_ack :=
  map (fun a => MAck (fst a) (snd a) w d) (ack x e).

(** [mCompaction], lines 691-721, with the acknowledgements it sends. *)
Fixpoint mCompaction (db : DB) (evs : list m_event) (d : Mem.mdb)
    : list m_ack * loop_end :=
  match evs with
  | [] => ([], Waiting)
  | MClose :: _ => ([], Stopped)
  | MFreeze es journal seq :: evs' =>
      mCompaction db evs' (Mem.Mdb (Some es) journal seq (Mem.sto d))
  | MCmd x w :: evs' =>
      match x with
      | CIdle _ =>
          match Mem.memCompaction pickLevel setJournalNum setSeqNum db w d
          with
          | Mem.MemReturned _ d' | Mem.MemFlushed _ _ d' =>
              let '(acks, l) := mCompaction db evs' d' in
              (m_acks x AckNil w d' ++ acks, l)
          | Mem.MemUnwound _ d' => (m_acks x AckClosed w d', Stopped)
          | Mem.MemRunning _ _ => ([], Waiting)
          end
      | _ => ([], Panicked)
      end
  end.

End MemLoop.

End Dispatch.

(** ** More scenarios *)

Module Cases.
Import Scenario.
#[local] Existing Instance Scenario.leveldb.

(** A database with the backoff disabled. *)
Definition dbNoBackoff : DB := Build_DB compareBytes false (fun _ => 1) true 0.

(** A closure that fails at its first call and succeeds at the second,
    having counted to 3. *)
Definition flaky (n : nat) (s : unit) : Transact.exec_result unit :=
  match n with
  | O => Transact.ExecRet (Some (ErrIO "disk full")) 1 s
  | _ => Transact.ExecRet None 3 s
  end.

(** The build that the merge of [two] into tables of one entry commits. *)
Definition merged : Merge.build :=
  match Compaction.tableCompaction (db 0 1 false) two true steady
          emptyStore with
  | Compaction.TcDone _ b => b
  | _ => start
  end.

(** A compaction of one table that can be moved. *)
Definition movable : compaction :=
  Compaction 0 ([TFile 3 [("b#1", "x")]], []) "b#1" true [("b#1", "x")]
    (fun _ => false) (fun _ => true).

(** A store whose level 0 holds that table. *)
Definition oneTable : Merge.store :=
  Merge.Store 4 {[ 3%N ]} [[TFile 3 [("b#1", "x")]]].

Definition moved : Merge.build :=
  match Compaction.tableCompaction (db 0 1 false) movable false steady
          oneTable with
  | Compaction.TcDone _ b => b
  | _ => start
  end.

(** What the first call of the closure leaves of [versions] at
    [minSeq = 5]. *)
Definition versionsBuilt : Merge.build :=
  Inv.build_of (Merge.exec (db 5 100 false) versions calm start).

(** A frozen memtable of one entry, and a call of [memCompaction] during
    which nothing fails. *)
Definition frozenDb : Mem.mdb :=
  Mem.Mdb (Some [("b#1", "x")]) 4 9 emptyStore.

Definition memWorld : Mem.mem_world :=
  Mem.MemWorld Mem.PauseSent [quiet] (fun _ => None) (fun _ => None)
    [quiet] (fun _ => None) Mem.Resumed.

Definition levelZero (s : session) (t : tFile) : Z := 0.
Definition unstamped (n : Z) (r : sessionRecord) : sessionRecord := r.

Definition flushedCMem : Mem.cMem :=
  match Mem.memCompaction levelZero unstamped unstamped (db 0 1 false)
          memWorld frozenDb with
  | Mem.MemFlushed _ c _ => c
  | _ => Mem.newCMem
  end.

Definition flushedDb : Mem.mdb :=
  match Mem.memCompaction levelZero unstamped unstamped (db 0 1 false)
          memWorld frozenDb with
  | Mem.MemFlushed _ _ d => d
  | _ => frozenDb
  end.

(** The acknowledgement of an idle command by the mem loop. *)
Definition idleAck : Dispatch.m_ack :=
  Dispatch.MAck (Dispatch.CIdle (Some 1%N)) Dispatch.AckNil memWorld
    flushedDb.

(** Three iterations of the table loop: an idle command and a range
    command arrive while compactions are needed, then none is needed and
    the database is closed. *)
Definition busyThenQuiet : list Dispatch.t_iter :=
  [Dispatch.TIter true (Dispatch.TCmd (Dispatch.CIdle (Some 1%N)))
     Dispatch.Returns Dispatch.Returns;
   Dispatch.TIter true (Dispatch.TCmd (Dispatch.CRange 0 "a" "z" (Some 2%N)))
     Dispatch.Returns Dispatch.Returns;
   Dispatch.TIter false Dispatch.TClose Dispatch.Returns Dispatch.Returns].

End Cases.

(** * Properties *)

Lemma wrap_int_small z : - 2 ^ 63 <= z < 2 ^ 63 -> wrap_int z = z.
Proof.
  intros Hz. unfold wrap_int.
  rewrite Z.mod_small; lia.
Qed.

(** ** The error state machine *)

Module CompErrFacts.
Import CompErr.
Section Facts.
Context `{Leveldb}.

Lemma target_status e w :
  status_of (Machine (target e) e w) = Some (table_row e).
Proof.
  destruct e as [x|]; simpl; [|reflexivity].
  destruct (IsCorrupted x); reflexivity.
Qed.

Lemma step_hasperr m ev m' :
  pc m = hasperr -> step m ev = Running m' ->
  pc m' = hasperr /\ err m' = err m.
Proof.
  intros Hpc. unfold step. rewrite Hpc.
  destruct ev; intros Hs; inversion Hs; subst; auto.
Qed.

Lemma run_hasperr evs : forall m,
  pc m = hasperr ->
  match run m evs with
  | Running m' => pc m' = hasperr /\ err m' = err m
  | Returned _ => True
  | NotOffered => False
  end.
Proof.
  induction evs as [|ev evs IH]; intros m Hpc; simpl; [auto|].
  destruct (step m ev) as [m1| |] eqn:Hs; [|exact I|apply IH; exact Hpc].
  destruct (step_hasperr _ _ _ Hpc Hs) as [Hpc1 Herr1].
  specialize (IH m1 Hpc1).
  destruct (run m1 evs); [|exact I|exact IH].
  destruct IH as [-> ->]. auto.
Qed.

(** C4. [compactionError] implements the three-state table: a value
    published while the machine is at [noerr] or [haserr] moves it to
    NoError when it is nil, to Persistent when it is a corruption, and to
    Transient with the new error otherwise; at [hasperr] the machine has no
    case that receives a value, a publication is answered on
    db.compPerErrC and leaves it Persistent with the same error, and so does
    every further run of events until it returns on close. *)
Theorem compactionError_table (w : bool) (x : error) (e : option error)
    (evs : list event) :
  (exists m', publish (Machine noerr None w) e = Running m'
              /\ status_of m' = Some (table_row e))
  /\ (exists m', publish (Machine haserr (Some x) w) e = Running m'
                 /\ status_of m' = Some (table_row e))
  /\ step (Machine hasperr (Some x) w) (RecvSet e) = NotOffered
  /\ publish (Machine hasperr (Some x) w) e
     = Running (Machine hasperr (Some x) w)
  /\ match run (Machine hasperr (Some x) w) evs with
     | Running m' => status_of m' = Some (Persistent x)
     | Returned _ => True
     | NotOffered => False
     end.
Proof.
  split; [|split; [|split; [|split]]].
  - eexists; split; [reflexivity|apply target_status].
  - eexists; split; [reflexivity|apply target_status].
  - reflexivity.
  - reflexivity.
  - pose proof (run_hasperr evs (Machine hasperr (Some x) w) eq_refl) as Hr.
    destruct (run (Machine hasperr (Some x) w) evs) as [m'| |]; auto.
    destruct Hr as [Hpc Herr]. unfold status_of. rewrite Hpc, Herr.
    reflexivity.
Qed.

End Facts.
End CompErrFacts.

(** ** The retry wrapper *)

Module TransactFacts.
Import Transact.
Section Facts.
Context `{Leveldb}.
Context {S : Type}.

Lemma backoffMin_eq : backoffMin = 1000000000.
Proof. reflexivity. Qed.

Lemma backoffMax_eq : backoffMax = 8000000000.
Proof. reflexivity. Qed.

(** One second times two seconds, in nanoseconds, is far above the cap. *)
Lemma backoff_step_first lastCnt cnt :
  backoff_step backoffMin lastCnt cnt
  = (1000000000, (8000000000, if lastCnt <? cnt then cnt else lastCnt)).
Proof.
  unfold backoff_step. destruct (lastCnt <? cnt); reflexivity.
Qed.

Lemma backoff_step_capped lastCnt cnt :
  cnt <= lastCnt ->
  backoff_step backoffMax lastCnt cnt = (8000000000, (8000000000, lastCnt)).
Proof.
  intros Hle. unfold backoff_step.
  destruct (lastCnt <? cnt) eqn:Hlt; [lia|reflexivity].
Qed.


Lemma loop_capped (db : DB) (exec : nat -> S -> exec_result S) e k :
  GetDisableCompactionBackoff db = false ->
  IsCorrupted e = false ->
  (forall n s, exec n s = ExecRet (Some e) k s) ->
  forall tr, all_quiet tr -> forall n lastCnt s waits,
  k <= lastCnt ->
  loop db exec n backoffMax lastCnt tr s waits
  = (waits ++ repeat 8000000000 (length tr), Pending s).
Proof.
  intros Hb He Hx tr Hq.
  induction Hq as [|a tr (Hc & Hp & Hw) _ IH]; intros n lastCnt s waits Hk.
  - simpl. rewrite app_nil_r. reflexivity.
  - simpl. rewrite Hc, Hx, Hp, He, Hb, (backoff_step_capped _ _ Hk), Hw.
    rewrite IH by exact Hk. rewrite <- app_assoc. reflexivity.
Qed.

(** C6. With backoff enabled, when every attempt fails with the same
    transient error and the same counter value, the first wait is one second
    and every later wait is eight seconds: [backoff *= backoffMul]
    multiplies by the number of nanoseconds in two seconds, so the cap is
    reached at the first step and the waits are never two or four
    seconds. *)
Theorem backoff_waits_without_progress (db : DB)
    (exec : nat -> S -> exec_result S) rollback e k tr s :
  GetDisableCompactionBackoff db = false ->
  IsCorrupted e = false ->
  (forall n s, exec n s = ExecRet (Some e) k s) ->
  all_quiet tr ->
  fst (compactionTransact db exec rollback tr s)
  = match tr with
    | [] => []
    | _ :: tr' => 1000000000 :: repeat 8000000000 (length tr')
    end.
Proof.
  intros Hb He Hx Hq. unfold compactionTransact.
  destruct Hq as [|a tr (Hc & Hp & Hw) Hq]; [reflexivity|].
  simpl. rewrite Hc, Hx, Hp, He, Hb, backoff_step_first, Hw.
  change backoffMax with 8000000000 in *.
  pose proof (loop_capped db exec e k Hb He Hx tr Hq 1%nat
                (if 0 <? k then k else 0) s [1000000000]) as Hl.
  change backoffMax with 8000000000 in Hl.
  rewrite Hl; [reflexivity|].
  destruct (0 <? k) eqn:E; lia.
Qed.




End Facts.
End TransactFacts.

(** ** The full merge *)

Module MergeFacts.
Import Merge Obs.
Section Facts.
Context `{Leveldb}.
Variable wd : world.
Variable db : DB.
Variable c : compaction.

Lemma same_merge_refl s : same_merge s s.
Proof. repeat split. Qed.

Lemma same_merge_trans s1 s2 s3 :
  same_merge s1 s2 -> same_merge s2 s3 -> same_merge s1 s3.
Proof.
  intros (A1 & A2 & A3 & A4) (B1 & B2 & B3 & B4).
  repeat split; congruence.
Qed.

Lemma staged_finish o w b b' :
  finish wd c o w b = inr b' ->
  staged b' = staged b ++ [tw_entries w]
  /\ kerrCnt b' = kerrCnt b /\ dropCnt b' = dropCnt b /\ snap b' = snap b.
Proof.
  unfold finish. destruct (fault wd o); [discriminate|].
  intros Hf. inversion Hf; subst; clear Hf.
  unfold staged; simpl. rewrite map_app. auto.
Qed.

(** Finishing the open writer moves its entries among the staged tables. *)
Lemma finish_table_cases o w s :
  tw (snd s) = Some w ->
  match finish_table wd c o w s with
  | Go s' => same_merge s s' /\ tw (snd s') = None
             /\ snapSched (snd s') = true
             /\ snap (fst s') = snap (fst s) /\ fault wd o = None
  | Fail e s' => s' = s /\ fault wd o = Some e
  | _ => False
  end.
Proof.
  intros Hw. unfold finish_table.
  destruct (finish wd c o w (fst s)) as [e|b'] eqn:Hf.
  - split; [reflexivity|]. unfold finish in Hf.
    destruct (fault wd o); [congruence|discriminate].
  - destruct (staged_finish _ _ _ _ Hf) as (Hs & Hk & Hd & Hsn).
    assert (fault wd o = None) as Hnone.
    { unfold finish in Hf. destruct (fault wd o); [discriminate|reflexivity]. }
    repeat split; simpl; auto.
    unfold output; simpl. rewrite Hs, Hw, concat_app. simpl.
    rewrite !app_nil_r. reflexivity.
Qed.

Lemma stopBefore_cases i ik s :
  match stopBefore wd c i ik s with
  | Go s' => same_merge s s'
             /\ snap (fst s') = snap (fst s)
             /\ (s' = s \/ tw (snd s') = None /\ snapSched (snd s') = true)
  | Fail e s' => s' = s /\ fault wd (OpFinishStop i) = Some e
  | _ => False
  end.
Proof.
  unfold stopBefore.
  destruct (parseIkey ik); [|auto using same_merge_refl].
  destruct (shouldStopBefore c ik); [|auto using same_merge_refl].
  destruct (tw (snd s)) as [w|] eqn:Hw; [|auto using same_merge_refl].
  pose proof (finish_table_cases (OpFinishStop i) w s Hw) as Hf.
  destruct (finish_table wd c (OpFinishStop i) w s); tauto.
Qed.

Lemma stopBefore_corrupt i ik kerr s :
  parseIkey ik = ParseErr kerr -> stopBefore wd c i ik s = Go s.
Proof. intros Hp. unfold stopBefore. rewrite Hp. reflexivity. Qed.

Lemma takeSnapshot_cases i s :
  exists s', takeSnapshot i s = Go s' /\ same_merge s s'
             /\ tw (snd s') = tw (snd s) /\ snapSched (snd s') = false
             /\ (snap (fst s') = snap (fst s) \/ snapIter (snap (fst s')) = i).
Proof.
  destruct s as [b lo]. unfold takeSnapshot.
  destruct (snapSched lo) eqn:Hs.
  - eexists; split; [reflexivity|].
    repeat split; simpl; auto.
  - eexists; split; [reflexivity|].
    repeat split; simpl; auto.
Qed.

(** The loop body up to the classification of the record: either the
    table before a grandparent boundary cannot be finished, or the record
    reaches lines 448-484 with the tracking variables, the counters and the
    output as they were. *)
Lemma body_prelude i r s :
  (exists e, body wd db c i r s = Fail e s
             /\ fault wd (OpFinishStop i) = Some e)
  \/ (exists s2, same_merge s s2
        /\ (snapIter (snap (fst s2)) = snapIter (snap (fst s))
            \/ snapIter (snap (fst s2)) = i)
        /\ body wd db c i r s
           = andThen (classify db c (fst r) s2) (fun s3 =>
               withWriter wd i s3 (append wd db c i (fst r) (snd r)))).
Proof.
  unfold body.
  pose proof (stopBefore_cases i (fst r) s) as H1.
  destruct (stopBefore wd c i (fst r) s) as [s1| |e s1|]; try tauto.
  - destruct H1 as (H1 & Hsn & _). cbn [andThen].
    destruct (takeSnapshot_cases i s1) as (s2 & -> & H2 & _ & _ & Hsn2).
    right. exists s2. split; [eapply same_merge_trans; eauto|].
    split; [|reflexivity].
    destruct Hsn2 as [Hsn2|Hsn2]; [left; congruence|right; exact Hsn2].
  - destruct H1 as [-> Hf]. left. eauto.
Qed.

Lemma observe_same t uk :
  hasLastUkey t = true -> uCompare db (lastUkey t) uk = 0 ->
  observe db t uk = t.
Proof.
  intros Hh Hc. unfold observe. rewrite Hh, Hc. reflexivity.
Qed.

Lemma observe_cases t uk :
  (observe db t uk = t /\ hasLastUkey t = true
   /\ uCompare db (lastUkey t) uk = 0)
  \/ observe db t uk = Track true uk kMaxSeq.
Proof.
  unfold observe. destruct (hasLastUkey t) eqn:Hh; simpl; [|auto].
  destruct (uCompare db (lastUkey t) uk =? 0) eqn:Hc; simpl; [|auto].
  left. repeat split. lia.
Qed.

Lemma observe_hasLastUkey t uk : hasLastUkey (observe db t uk) = true.
Proof.
  destruct (observe_cases t uk) as [(-> & Hh & _)| ->]; auto.
Qed.

Lemma classify_parsed ik uk seq kt s :
  parseIkey ik = Parsed uk seq kt ->
  let t := observe db (trk (snd s)) uk in
  classify db c ik s
  = if dropped db c t seq kt
    then Skip (with_counts (fst s) (kerrCnt (fst s)) (incr (dropCnt (fst s))),
               with_trk (snd s) (Track (hasLastUkey t) (lastUkey t) seq))
    else Go (fst s, with_trk (snd s) (Track (hasLastUkey t) (lastUkey t) seq)).
Proof.
  intros Hp. destruct s as [b lo]. unfold classify. rewrite Hp. reflexivity.
Qed.

Lemma classify_drop ik uk seq kt s :
  parseIkey ik = Parsed uk seq kt ->
  dropped db c (observe db (trk (snd s)) uk) seq kt = true ->
  exists s', classify db c ik s = Skip s' /\ dropped_into s s' seq
             /\ lastUkey (trk (snd s'))
                = lastUkey (observe db (trk (snd s)) uk)
             /\ snap (fst s') = snap (fst s)
             /\ cnt (snd s') = cnt (snd s).
Proof.
  intros Hp Hd. rewrite (classify_parsed _ _ _ _ _ Hp). cbv zeta.
  rewrite Hd. eexists; split; [reflexivity|].
  destruct s as [b lo]. unfold dropped_into, output, staged; simpl.
  rewrite observe_hasLastUkey. repeat split.
Qed.

Lemma classify_skip_inv ik s s' :
  classify db c ik s = Skip s' ->
  exists uk seq kt, parseIkey ik = Parsed uk seq kt
    /\ dropped db c (observe db (trk (snd s)) uk) seq kt = true.
Proof.
  destruct s as [b lo]. unfold classify.
  destruct (parseIkey ik) as [uk seq kt|kerr].
  - simpl. destruct (dropped db c (observe db (trk lo) uk) seq kt) eqn:Hd;
      [|discriminate]. intros _. eauto.
  - destruct (GetStrict db); discriminate.
Qed.

(** A record that lines 448-473 drop is dropped by the loop body, unless
    the table before a grandparent boundary cannot be finished. *)
Lemma body_drop i ik v uk seq kt s :
  parseIkey ik = Parsed uk seq kt ->
  dropped db c (observe db (trk (snd s)) uk) seq kt = true ->
  (exists e, body wd db c i (ik, v) s = Fail e s
             /\ fault wd (OpFinishStop i) = Some e)
  \/ (exists s', body wd db c i (ik, v) s = Skip s'
                 /\ dropped_into s s' seq
                 /\ lastUkey (trk (snd s'))
                    = lastUkey (observe db (trk (snd s)) uk)
                 /\ (snapIter (snap (fst s')) = snapIter (snap (fst s))
                     \/ snapIter (snap (fst s')) = i)).
Proof.
  intros Hp Hd.
  destruct (body_prelude i (ik, v) s) as [Hf|(s2 & Hs & Hsn & Hb)];
    [left; exact Hf|].
  right. destruct Hs as (Ht & Hk & Hdc & Ho).
  rewrite <- Ht in Hd.
  destruct (classify_drop ik uk seq kt s2 Hp Hd)
    as (s' & Hc & (D1 & D2 & D3 & D4 & D5) & Hu & Hsn' & _).
  exists s'. simpl in Hb. rewrite Hb, Hc. split; [reflexivity|].
  split; [repeat split; congruence|].
  split; [congruence|].
  rewrite Hsn'. exact Hsn.
Qed.

Lemma append_cases i ik v w s :
  tw (snd s) = Some w ->
  match append wd db c i ik v w s with
  | Go s' => output s' = output s ++ [(ik, v)]
             /\ trk (snd s') = trk (snd s)
             /\ kerrCnt (fst s') = kerrCnt (fst s)
             /\ dropCnt (fst s') = dropCnt (fst s)
  | Fail e _ => fault wd (OpAppend i) = Some e
                \/ fault wd (OpFinishSize i) = Some e
  | _ => False
  end.
Proof.
  intros Hw. unfold append.
  destruct (fault wd (OpAppend i)) as [e|]; [auto|].
  set (w' := tw_append w ik v).
  set (s' := (fst s, with_tw (snd s) (Some w'))).
  assert (output s' = output s ++ [(ik, v)]) as Ho.
  { unfold output. rewrite Hw. simpl. rewrite app_assoc. reflexivity. }
  destruct (_ <=? _).
  - pose proof (finish_table_cases (OpFinishSize i) w' s' eq_refl) as Hf.
    destruct (finish_table wd c (OpFinishSize i) w' s'); try tauto.
    destruct Hf as ((T & K & D & O) & _). simpl in *.
    repeat split; congruence.
  - repeat split; assumption.
Qed.

(** Lines 487-518: the record is appended unless a table operation fails or
    the call unwinds; it is never passed over. *)
Lemma write_cases i ik v s :
  match withWriter wd i s (append wd db c i ik v) with
  | Go s' => output s' = output s ++ [(ik, v)]
             /\ trk (snd s') = trk (snd s)
             /\ kerrCnt (fst s') = kerrCnt (fst s)
             /\ dropCnt (fst s') = dropCnt (fst s)
  | Skip _ => False
  | Fail e _ => fault wd (OpCreate i) = Some e
                \/ fault wd (OpAppend i) = Some e
                \/ fault wd (OpFinishSize i) = Some e
  | Unwind _ => pauseAt wd i = CloseSeen \/ pauseAt wd i = Paused false
  end.
Proof.
  destruct s as [b lo]. unfold withWriter.
  destruct (tw lo) as [w|] eqn:Hw.
  - pose proof (append_cases i ik v w (b, lo) Hw) as Ha.
    destruct (append wd db c i ik v w (b, lo)); tauto.
  - assert (forall s0 w0, tw (snd s0) = Some w0 -> output s0 = output (b, lo)
              -> trk (snd s0) = trk lo -> kerrCnt (fst s0) = kerrCnt b
              -> dropCnt (fst s0) = dropCnt b ->
              match append wd db c i ik v w0 s0 with
              | Go s' => output s' = output (b, lo) ++ [(ik, v)]
                         /\ trk (snd s') = trk (snd (b, lo))
                         /\ kerrCnt (fst s') = kerrCnt (fst (b, lo))
                         /\ dropCnt (fst s') = dropCnt (fst (b, lo))
              | Skip _ => False
              | Fail e _ => fault wd (OpCreate i) = Some e
                            \/ fault wd (OpAppend i) = Some e
                            \/ fault wd (OpFinishSize i) = Some e
              | Unwind _ => pauseAt wd i = CloseSeen
                            \/ pauseAt wd i = Paused false
              end) as Hgen.
    { intros s0 w0 Hw0 Ho Ht Hk Hd.
      pose proof (append_cases i ik v w0 s0 Hw0) as Ha.
      destruct (append wd db c i ik v w0 s0); try tauto.
      simpl. destruct Ha as (A1 & A2 & A3 & A4).
      repeat split; congruence. }
    assert (forall b' w0, staged b' = staged b -> tw_entries w0 = [] ->
              output (b', with_tw lo (Some w0)) = output (b, lo)) as Hout.
    { intros b' w0 Hs He. unfold output. simpl. rewrite Hs, He, Hw.
      reflexivity. }
    destruct (pauseAt wd i) as [|[|]|] eqn:Hp; auto.
    + destruct (fault wd (OpCreate i)) as [e|]; [auto|].
      eapply Hgen; simpl; eauto.
    + destruct (fault wd (OpCreate i)) as [e|]; [auto|].
      eapply Hgen; simpl; eauto.
Qed.

Lemma write_calm i ik v s :
  calm_at wd i ->
  exists s', withWriter wd i s (append wd db c i ik v) = Go s'
    /\ output s' = output s ++ [(ik, v)]
    /\ trk (snd s') = trk (snd s)
    /\ kerrCnt (fst s') = kerrCnt (fst s)
    /\ dropCnt (fst s') = dropCnt (fst s).
Proof.
  intros (Hp & Hc & Ha & Hf).
  pose proof (write_cases i ik v s) as Hw.
  destruct (withWriter wd i s (append wd db c i ik v)) as [s'| |e s'|s'].
  - exists s'. tauto.
  - contradiction.
  - exfalso. destruct Hw as [Hw|[Hw|Hw]]; congruence.
  - exfalso. destruct Hw as [Hw|Hw]; congruence.
Qed.

Lemma body_skip_inv i ik v s s1 :
  body wd db c i (ik, v) s = Skip s1 ->
  exists uk seq kt, parseIkey ik = Parsed uk seq kt
    /\ dropped db c (observe db (trk (snd s)) uk) seq kt = true.
Proof.
  intros Hb.
  destruct (body_prelude i (ik, v) s) as [(e & Hf & _)|(s2 & Hs & _ & Hb2)];
    [congruence|].
  rewrite Hb in Hb2. simpl in Hb2.
  destruct (classify db c ik s2) as [s3|s3|e s3|s3] eqn:Hc;
    simpl in Hb2; try discriminate.
  - pose proof (write_cases i ik v s3) as Hw.
    rewrite <- Hb2 in Hw. contradiction.
  - destruct (classify_skip_inv _ _ _ Hc) as (uk & seq & kt & Hp & Hd).
    destruct Hs as (Ht & _). rewrite Ht in Hd. eauto.
Qed.

(** The loop over a list of records that ends with [rest]. *)
Lemma loop_app pre : forall i rest s,
  loop wd db c i (pre ++ rest) s
  = match loop wd db c i pre s with
    | Go s' | Skip s' => loop wd db c (incr_by (length pre) i) rest s'
    | other => other
    end.
Proof.
  induction pre as [|r pre IH]; intros i rest s; [reflexivity|].
  simpl. destruct (i <? _); [apply IH|].
  destruct (body wd db c i r _); auto.
Qed.

Lemma incr_in_range i : - 2 ^ 63 <= i -> i + 1 < 2 ^ 63 -> incr i = i + 1.
Proof.
  intros Hl Hu. unfold incr. apply wrap_int_small. lia.
Qed.

(** Older versions of the tracked user key that arrive when [lastSeq] is
    not above [minSeq] are all dropped. *)
Lemma loop_older_versions rs : forall i s,
  hasLastUkey (trk (snd s)) = true ->
  lastSeq (trk (snd s)) <= minSeq db ->
  older_versions db (lastUkey (trk (snd s))) (lastSeq (trk (snd s))) rs ->
  snapIter (snap (fst s)) <= i ->
  - 2 ^ 63 <= i ->
  i + Z.of_nat (length rs) < 2 ^ 63 ->
  match loop wd db c i rs s with
  | Go s' => output s' = output s
             /\ dropCnt (fst s') = incr_by (length rs) (dropCnt (fst s))
             /\ kerrCnt (fst s') = kerrCnt (fst s)
             /\ hasLastUkey (trk (snd s')) = true
             /\ lastUkey (trk (snd s')) = lastUkey (trk (snd s))
             /\ lastSeq (trk (snd s')) <= minSeq db
  | Fail e s' => (exists j, fault wd (OpFinishStop j) = Some e)
                 /\ output s' = output s
  | _ => False
  end.
Proof.
  induction rs as [|r rs IH]; intros i s Hh Hl Ho Hsn Hlo Hhi.
  - simpl. repeat split; auto.
  - simpl in Ho. destruct r as [ik v]. simpl in Ho.
    destruct (parseIkey ik) as [uk seq kt|] eqn:Hp; [|contradiction].
    destruct Ho as (Hu & Hseq & Ho).
    simpl length in Hhi.
    cbn [loop]. set (s1 := (fst s, with_cnt (snd s) (incr (cnt (snd s))))).
    assert ((i <? snapIter (snap (fst s1))) = false) as -> by (simpl; lia).
    assert (observe db (trk (snd s1)) uk = trk (snd s)) as Hobs
      by (apply observe_same; assumption).
    assert (dropped db c (observe db (trk (snd s1)) uk) seq kt = true) as Hd.
    { rewrite Hobs. unfold dropped.
      assert ((lastSeq (trk (snd s)) <=? minSeq db) = true) as -> by lia.
      reflexivity. }
    destruct (body_drop i ik v uk seq kt s1 Hp Hd)
      as [(e & -> & Hf)|(s' & -> & (D1 & D2 & D3 & D4 & D5) & D6 & D7)].
    + split; [eauto|]. reflexivity.
    + rewrite Hobs in D6.
      assert (incr i = i + 1) as Hi by (apply incr_in_range; lia).
      specialize (IH (incr i) s').
      rewrite D4, D5, D6 in IH.
      assert (snapIter (snap (fst s')) <= incr i) as Hsn'.
      { rewrite Hi. destruct D7 as [D7|D7]; rewrite D7; simpl; lia. }
      specialize (IH eq_refl ltac:(lia) Ho Hsn' ltac:(lia) ltac:(lia)).
      destruct (loop wd db c (incr i) rs s') as [s2| |e s2|]; auto.
      * destruct IH as (I1 & I2 & I3 & I4 & I5 & I6).
        repeat split; try congruence.
        -- rewrite I1, D1. reflexivity.
        -- rewrite I2, D2. reflexivity.
        -- rewrite I3, D3. reflexivity.
      * destruct IH as [I1 I2]. split; [exact I1|].
        rewrite I2, D1. reflexivity.
Qed.

(** A record that lines 448-473 drop is passed over by the whole call. *)
Lemma dropped_record ik v uk seq kt :
  parseIkey ik = Parsed uk seq kt ->
  (forall s, dropped db c (observe db (trk (snd s)) uk) seq kt = true ->
     (exists s', classify db c ik s = Skip s' /\ dropped_into s s' seq)
     /\ forall i, body_drops wd db c i (ik, v) s seq)
  /\ (forall b pre post s1,
        yielded wd c = pre ++ (ik, v) :: post ->
        loop wd db c 0 pre (enter b) = Go s1 ->
        (incr_by (length pre) 0 <? snapIter (snap (fst s1))) = false ->
        dropped db c (observe db (trk (snd s1)) uk) seq kt = true ->
        passes_over wd db c b pre post s1).
Proof.
  intros Hp. split.
  - intros s Hd. split.
    + destruct (classify_drop ik uk seq kt s Hp Hd) as (s' & Hc & Hdi & _).
      eauto.
    + intros i. unfold body_drops.
      destruct (body_drop i ik v uk seq kt s Hp Hd)
        as [Hf|(s' & Hb & Hdi & _)]; [left; exact Hf|right; eauto].
  - intros b pre post s1 Hy Hpre Hskip Hd. unfold passes_over. cbv zeta.
    rewrite Hy, loop_app, Hpre. cbn [loop fst]. rewrite Hskip.
    set (s1' := (fst s1, with_cnt (snd s1) (incr (cnt (snd s1))))).
    destruct (body_drop (incr_by (length pre) 0) ik v uk seq kt s1' Hp Hd)
      as [(e & -> & Hf)|(s' & -> & (D1 & D2 & _) & _)].
    + left. eauto.
    + right. exists s'. repeat split; assumption.
Qed.

Lemma rule_A_dropped t uk seq kt :
  hasLastUkey t = true -> uCompare db (lastUkey t) uk = 0 ->
  lastSeq t <= minSeq db ->
  dropped db c (observe db t uk) seq kt = true.
Proof.
  intros Hh Hu Hl. rewrite observe_same by assumption. unfold dropped.
  assert ((lastSeq t <=? minSeq db) = true) as -> by lia.
  reflexivity.
Qed.

(** Rule A over the classification, the loop body and the whole call. *)
Lemma rule_A_drops ik v uk seq kt :
  parseIkey ik = Parsed uk seq kt ->
  (forall s,
     hasLastUkey (trk (snd s)) = true ->
     uCompare db (lastUkey (trk (snd s))) uk = 0 ->
     lastSeq (trk (snd s)) <= minSeq db ->
     (exists s', classify db c ik s = Skip s' /\ dropped_into s s' seq)
     /\ forall i, body_drops wd db c i (ik, v) s seq)
  /\ (forall b pre post s1,
        yielded wd c = pre ++ (ik, v) :: post ->
        loop wd db c 0 pre (enter b) = Go s1 ->
        (incr_by (length pre) 0 <? snapIter (snap (fst s1))) = false ->
        hasLastUkey (trk (snd s1)) = true ->
        uCompare db (lastUkey (trk (snd s1))) uk = 0 ->
        lastSeq (trk (snd s1)) <= minSeq db ->
        passes_over wd db c b pre post s1).
Proof.
  intros Hp. destruct (dropped_record ik v uk seq kt Hp) as [H1 H2]. split.
  - intros s Hh Hu Hl. apply H1. apply rule_A_dropped; assumption.
  - intros b pre post s1 Hy Hpre Hskip Hh Hu Hl.
    apply H2; try assumption. apply rule_A_dropped; assumption.
Qed.

(** C2. A well-formed deletion whose sequence is not above [minSeq] and
    whose user key is at its base level is dropped by lines 448-473: nothing
    is appended to any output table and [dropCnt] is incremented; the
    iteration of the loop that handles it drops it (or fails before looking
    at it, when the table before a grandparent boundary cannot be
    finished), and the call that reaches it passes over it, so that it is in
    no output table.  The compaction object is assumed to agree with the
    comparator: [baseLevelForKey] does not tell apart user keys that
    [uCompare] finds equal (the source asks it about [lastUkey]). *)
Theorem rule_B_drops_tombstone ik v uk seq :
  (forall a b, uCompare db a b = 0 ->
               baseLevelForKey c a = baseLevelForKey c b) ->
  parseIkey ik = Parsed uk seq ktDel ->
  seq <= minSeq db ->
  baseLevelForKey c uk = true ->
  (forall s,
     (exists s', classify db c ik s = Skip s' /\ dropped_into s s' seq)
     /\ forall i, body_drops wd db c i (ik, v) s seq)
  /\ (forall b pre post s1,
        yielded wd c = pre ++ (ik, v) :: post ->
        loop wd db c 0 pre (enter b) = Go s1 ->
        (incr_by (length pre) 0 <? snapIter (snap (fst s1))) = false ->
        passes_over wd db c b pre post s1).
Proof.
  intros Hcoh Hp Hseq Hbase.
  assert (forall t, dropped db c (observe db t uk) seq ktDel = true) as Hd.
  { intros t. unfold dropped.
    assert (baseLevelForKey c (lastUkey (observe db t uk)) = true) as ->.
    { destruct (observe_cases t uk) as [(-> & _ & Hu)| ->].
      - rewrite (Hcoh _ _ Hu). exact Hbase.
      - exact Hbase. }
    assert ((seq <=? minSeq db) = true) as -> by lia.
    simpl. apply orb_true_r. }
  destruct (dropped_record ik v uk seq ktDel Hp) as [H1 H2]. split.
  - intros s. apply H1. apply Hd.
  - intros b pre post s1 Hy Hpre Hskip. apply H2; try assumption. apply Hd.
Qed.

Lemma classify_corrupt ik kerr s :
  parseIkey ik = ParseErr kerr ->
  classify db c ik s
  = if GetStrict db then Fail kerr s
    else Go (with_counts (fst s) (incr (kerrCnt (fst s))) (dropCnt (fst s)),
             with_trk (snd s) (Track false "" kMaxSeq)).
Proof.
  intros Hp. destruct s as [b lo]. unfold classify. rewrite Hp. reflexivity.
Qed.

Lemma body_corrupt i ik v kerr s :
  parseIkey ik = ParseErr kerr ->
  exists s2, same_merge s s2
    /\ body wd db c i (ik, v) s
       = andThen (classify db c ik s2) (fun s3 =>
           withWriter wd i s3 (append wd db c i ik v)).
Proof.
  intros Hp. unfold body. simpl fst. simpl snd.
  rewrite (stopBefore_corrupt i ik kerr s Hp). cbn [andThen].
  destruct (takeSnapshot_cases i s) as (s2 & -> & Hs & _).
  exists s2. split; [exact Hs|reflexivity].
Qed.

(** C9. A record whose key does not parse: in strict mode the loop body,
    and with it the call of the closure, returns the parse error; otherwise
    the body resets the tracking variables, increments [kerrCnt] and goes on
    to append the record, which it never passes over; when no table
    operation fails and nobody pauses or closes, the record is the new last
    entry of the output; and after the reset the next well-formed key is
    tracked as a first occurrence. *)
Theorem corrupt_key_handling i ik v kerr s :
  parseIkey ik = ParseErr kerr ->
  (GetStrict db = true ->
     (exists s2, same_merge s s2 /\ body wd db c i (ik, v) s = Fail kerr s2)
     /\ forall b pre post s1,
          yielded wd c = pre ++ (ik, v) :: post ->
          loop wd db c 0 pre (enter b) = Go s1 ->
          (incr_by (length pre) 0 <? snapIter (snap (fst s1))) = false ->
          exists n b', exec db c wd b = Transact.ExecRet (Some kerr) n b')
  /\ (GetStrict db = false ->
       (exists s3,
          body wd db c i (ik, v) s
          = withWriter wd i s3 (append wd db c i ik v)
          /\ output s3 = output s
          /\ kerrCnt (fst s3) = incr (kerrCnt (fst s))
          /\ dropCnt (fst s3) = dropCnt (fst s)
          /\ trk (snd s3) = Track false "" kMaxSeq)
       /\ (forall s', body wd db c i (ik, v) s <> Skip s')
       /\ (calm_at wd i ->
           exists s', body wd db c i (ik, v) s = Go s'
             /\ output s' = output s ++ [(ik, v)]
             /\ kerrCnt (fst s') = incr (kerrCnt (fst s))
             /\ dropCnt (fst s') = dropCnt (fst s)
             /\ trk (snd s') = Track false "" kMaxSeq)
       /\ forall uk, observe db (Track false "" kMaxSeq) uk
                     = Track true uk kMaxSeq).
Proof.
  intros Hp. split; intros Hstrict.
  - assert (forall i s, exists s2, same_merge s s2
              /\ body wd db c i (ik, v) s = Fail kerr s2) as Hbody.
    { intros i0 s0.
      destruct (body_corrupt i0 ik v kerr s0 Hp) as (s2 & Hs & ->).
      rewrite (classify_corrupt ik kerr s2 Hp), Hstrict. eauto. }
    split; [apply Hbody|].
    intros b pre post s1 Hy Hpre Hskip.
    unfold exec, finishRun. rewrite Hy, loop_app, Hpre. cbn [loop fst].
    rewrite Hskip.
    destruct (Hbody (incr_by (length pre) 0)
                (fst s1, with_cnt (snd s1) (incr (cnt (snd s1)))))
      as (s2 & _ & ->).
    eauto.
  - destruct (body_corrupt i ik v kerr s Hp) as (s2 & Hs & Hb).
    rewrite (classify_corrupt ik kerr s2 Hp), Hstrict in Hb.
    cbn [andThen] in Hb.
    destruct Hs as (Ht & Hk & Hd & Ho).
    set (s3 := (with_counts (fst s2) (incr (kerrCnt (fst s2)))
                  (dropCnt (fst s2)),
                with_trk (snd s2) (Track false "" kMaxSeq))) in *.
    assert (output s3 = output s) as Ho3 by (rewrite <- Ho; reflexivity).
    assert (kerrCnt (fst s3) = incr (kerrCnt (fst s))) as Hk3
      by (simpl; rewrite Hk; reflexivity).
    assert (dropCnt (fst s3) = dropCnt (fst s)) as Hd3 by exact Hd.
    split; [|split; [|split]].
    + exists s3. repeat split; assumption.
    + intros s' Hskip. rewrite Hb in Hskip.
      pose proof (write_cases i ik v s3) as Hw.
      rewrite Hskip in Hw. exact Hw.
    + intros Hcalm.
      destruct (write_calm i ik v s3 Hcalm) as (s' & Hw & W1 & W2 & W3 & W4).
      exists s'. rewrite Hb, Hw.
      rewrite W1, W2, W3, W4, Ho3, Hk3, Hd3. repeat split.
    + intros uk. reflexivity.
Qed.

(** C10. A dropped record leaves its sequence in [lastSeq], and that
    sequence is not above [minSeq]; the well-formed records that follow it
    without interruption in the merge, with the same user key and strictly
    descending sequences, are then all dropped, each leaving [lastSeq] not
    above [minSeq]: the loop over them appends nothing and counts each in
    [dropCnt] (or the call fails at a grandparent boundary whose table
    cannot be finished).  The run ends at a record that does not parse,
    which resets the tracking.  The dropped record's sequence is not above
    the tracked one, as the order of the merging iterator has it
    ([kMaxSeq] for a first occurrence). *)
Theorem drop_is_sticky i ik v uk seq kt s s1 rs :
  parseIkey ik = Parsed uk seq kt ->
  body wd db c i (ik, v) s = Skip s1 ->
  seq <= lastSeq (observe db (trk (snd s)) uk) ->
  older_versions db (lastUkey (trk (snd s1))) seq rs ->
  snapIter (snap (fst s)) <= i ->
  - 2 ^ 63 <= i ->
  i + 1 + Z.of_nat (length rs) < 2 ^ 63 ->
  lastSeq (trk (snd s1)) = seq
  /\ seq <= minSeq db
  /\ match loop wd db c (incr i) rs s1 with
     | Go s' => output s' = output s1
                /\ dropCnt (fst s') = incr_by (length rs) (dropCnt (fst s1))
                /\ lastSeq (trk (snd s')) <= minSeq db
     | Fail e s' => (exists j, fault wd (OpFinishStop j) = Some e)
                    /\ output s' = output s1
     | _ => False
     end.
Proof.
  intros Hp Hb Hsorted Ho Hsn Hlo Hhi.
  destruct (body_skip_inv i ik v s s1 Hb) as (uk' & seq' & kt' & Hp' & Hd).
  rewrite Hp in Hp'. inversion Hp'; subst uk' seq' kt'; clear Hp'.
  destruct (body_drop i ik v uk seq kt s Hp Hd)
    as [(e & Hf & _)|(s' & Hb' & (D1 & D2 & D3 & D4 & D5) & D6 & D7)];
    [congruence|].
  rewrite Hb in Hb'. inversion Hb'; subst s'; clear Hb'.
  assert (seq <= minSeq db) as Hseq.
  { unfold dropped in Hd. apply orb_true_iff in Hd. destruct Hd as [Hd|Hd].
    - apply Z.leb_le in Hd. lia.
    - apply andb_true_iff in Hd. destruct Hd as [Hd _].
      apply andb_true_iff in Hd. destruct Hd as [_ Hd].
      apply Z.leb_le in Hd. exact Hd. }
  split; [exact D5|]. split; [exact Hseq|].
  assert (incr i = i + 1) as Hi by (apply incr_in_range; lia).
  pose proof (loop_older_versions rs (incr i) s1) as Hrun.
  rewrite D4, D5 in Hrun.
  assert (snapIter (snap (fst s1)) <= incr i) as Hsn'.
  { rewrite Hi. destruct D7 as [D7|D7]; rewrite D7; lia. }
  specialize (Hrun eq_refl Hseq Ho Hsn' ltac:(lia) ltac:(lia)).
  destruct (loop wd db c (incr i) rs s1); auto.
  tauto.
Qed.

End Facts.
End MergeFacts.

(** ** Retrying the merge *)

Module RetryFacts.
Import Merge Obs.
Section Facts.
Context `{Leveldb}.
Variable wd : world.
Variable db : DB.
Variable c : compaction.

Lemma view_inv s s' :
  view s = view s' ->
  snap (fst s) = snap (fst s')
  /\ kerrCnt (fst s) = kerrCnt (fst s')
  /\ dropCnt (fst s) = dropCnt (fst s')
  /\ staged (fst s) = staged (fst s')
  /\ trk (snd s) = trk (snd s')
  /\ snapSched (snd s) = snapSched (snd s')
  /\ option_map tw_entries (tw (snd s)) = option_map tw_entries (tw (snd s')).
Proof.
  unfold view. intros Hv. inversion Hv. repeat split; assumption.
Qed.

Lemma view_intro s s' :
  snap (fst s) = snap (fst s') ->
  kerrCnt (fst s) = kerrCnt (fst s') ->
  dropCnt (fst s) = dropCnt (fst s') ->
  staged (fst s) = staged (fst s') ->
  trk (snd s) = trk (snd s') ->
  snapSched (snd s) = snapSched (snd s') ->
  option_map tw_entries (tw (snd s)) = option_map tw_entries (tw (snd s')) ->
  view s = view s'.
Proof.
  unfold view. intros -> -> -> -> -> -> ->. reflexivity.
Qed.

Ltac view_done :=
  apply view_intro; simpl in *;
  first [assumption | congruence | reflexivity].

Lemma alike_andThen f f' k k' :
  alike f f' ->
  (forall s s', view s = view s' -> alike (k s) (k' s')) ->
  alike (andThen f k) (andThen f' k').
Proof.
  intros Hf Hk. destruct Hf; simpl; try (constructor; assumption).
  apply Hk. assumption.
Qed.

Lemma finish_table_alike o w w' s s' :
  view s = view s' -> tw_entries w = tw_entries w' ->
  alike (finish_table wd c o w s) (finish_table wd c o w' s').
Proof.
  intros Hv Hw. destruct (view_inv _ _ Hv) as (V1 & V2 & V3 & V4 & V5 & V6 & V7).
  unfold finish_table, finish.
  destruct (fault wd o) as [e|]; constructor; [exact Hv|].
  apply view_intro; simpl; try assumption; try reflexivity.
  unfold staged in *. simpl. rewrite !map_app, V4, Hw. reflexivity.
Qed.

Lemma tw_alike (s s' : st) :
  option_map tw_entries (tw (snd s)) = option_map tw_entries (tw (snd s')) ->
  match tw (snd s), tw (snd s') with
  | Some w, Some w' => tw_entries w = tw_entries w'
  | None, None => True
  | _, _ => False
  end.
Proof.
  destruct (tw (snd s)), (tw (snd s')); simpl; intros Hw;
    try discriminate; auto. inversion Hw. reflexivity.
Qed.

Lemma stopBefore_alike i ik s s' :
  view s = view s' ->
  alike (stopBefore wd c i ik s) (stopBefore wd c i ik s').
Proof.
  intros Hv. destruct (view_inv _ _ Hv) as (_ & _ & _ & _ & _ & _ & V7).
  apply tw_alike in V7. unfold stopBefore.
  destruct (parseIkey ik); [|constructor; exact Hv].
  destruct (shouldStopBefore c ik); [|constructor; exact Hv].
  destruct (tw (snd s)) as [w|], (tw (snd s')) as [w'|]; try contradiction.
  - apply finish_table_alike; assumption.
  - constructor; exact Hv.
Qed.

Lemma takeSnapshot_alike i s s' :
  view s = view s' -> alike (takeSnapshot i s) (takeSnapshot i s').
Proof.
  intros Hv. destruct (view_inv _ _ Hv) as (V1 & V2 & V3 & V4 & V5 & V6 & V7).
  destruct s as [b lo], s' as [b' lo']. simpl in *. unfold takeSnapshot.
  rewrite V6. destruct (snapSched lo'); constructor; [|exact Hv].
  view_done.
Qed.

Lemma classify_alike ik s s' :
  view s = view s' -> alike (classify db c ik s) (classify db c ik s').
Proof.
  intros Hv. destruct (view_inv _ _ Hv) as (V1 & V2 & V3 & V4 & V5 & V6 & V7).
  destruct s as [b lo], s' as [b' lo']. simpl in *. unfold classify.
  destruct (parseIkey ik) as [uk seq kt|kerr].
  - rewrite V5. destruct (dropped db c _ seq kt); constructor;
      view_done.
  - destruct (GetStrict db); constructor; [exact Hv|].
    view_done.
Qed.

Lemma append_alike i ik v w w' s s' :
  view s = view s' -> tw_entries w = tw_entries w' ->
  alike (append wd db c i ik v w s) (append wd db c i ik v w' s').
Proof.
  intros Hv Hw. destruct (view_inv _ _ Hv) as (V1 & V2 & V3 & V4 & V5 & V6 & V7).
  unfold append. destruct (fault wd (OpAppend i)); [constructor; exact Hv|].
  assert (tw_entries (tw_append w ik v) = tw_entries (tw_append w' ik v))
    as Hw' by (simpl; rewrite Hw; reflexivity).
  assert (view (fst s, with_tw (snd s) (Some (tw_append w ik v)))
          = view (fst s', with_tw (snd s') (Some (tw_append w' ik v))))
    as Hv'.
  { view_done. }
  rewrite Hw'.
  destruct (_ <=? _); [|constructor; exact Hv'].
  apply finish_table_alike; [exact Hv'|exact Hw'].
Qed.

Lemma withWriter_alike i ik v s s' :
  view s = view s' ->
  alike (withWriter wd i s (append wd db c i ik v))
        (withWriter wd i s' (append wd db c i ik v)).
Proof.
  intros Hv. destruct (view_inv _ _ Hv) as (V1 & V2 & V3 & V4 & V5 & V6 & V7).
  pose proof (tw_alike _ _ V7) as Htw.
  destruct s as [b lo], s' as [b' lo']. simpl in *. unfold withWriter.
  destruct (tw lo) as [w|], (tw lo') as [w'|]; try contradiction.
  - apply append_alike; assumption.
  - destruct (pauseAt wd i) as [|[|]|]; try (constructor; exact Hv).
    + destruct (fault wd (OpCreate i)); [constructor; exact Hv|].
      apply append_alike; [|reflexivity].
      view_done.
    + destruct (fault wd (OpCreate i)); [constructor; exact Hv|].
      apply append_alike; [|reflexivity].
      view_done.
Qed.

Lemma handle_alike i r s s' :
  view s = view s' -> alike (handle wd db c i r s) (handle wd db c i r s').
Proof.
  intros Hv. unfold handle. apply alike_andThen.
  - apply classify_alike. exact Hv.
  - intros s1 s1' Hv1. apply withWriter_alike. exact Hv1.
Qed.

Lemma body_alike i r s s' :
  view s = view s' -> alike (body wd db c i r s) (body wd db c i r s').
Proof.
  intros Hv. unfold body. apply alike_andThen.
  - apply stopBefore_alike. exact Hv.
  - intros s1 s1' Hv1. apply alike_andThen.
    + apply takeSnapshot_alike. exact Hv1.
    + intros s2 s2' Hv2. apply handle_alike. exact Hv2.
Qed.

Lemma with_cnt_view s k k' :
  view (fst s, with_cnt (snd s) k) = view (fst s, with_cnt (snd s) k').
Proof. reflexivity. Qed.

Lemma loop_alike rs : forall i s s',
  view s = view s' -> alike (loop wd db c i rs s) (loop wd db c i rs s').
Proof.
  induction rs as [|r rs IH]; intros i s s' Hv.
  - constructor. exact Hv.
  - cbn [loop].
    assert (view (fst s, with_cnt (snd s) (incr (cnt (snd s))))
            = view (fst s', with_cnt (snd s') (incr (cnt (snd s'))))) as Hv1.
    { destruct (view_inv _ _ Hv) as (V1 & V2 & V3 & V4 & V5 & V6 & V7).
      apply view_intro; simpl; assumption. }
    cbn [fst]. destruct (view_inv _ _ Hv) as (-> & _).
    destruct (i <? _); [apply IH; exact Hv1|].
    pose proof (body_alike i r _ _ Hv1) as Hb.
    destruct Hb; try (constructor; assumption); apply IH; assumption.
Qed.

Lemma conclude_alike s s' :
  view s = view s' -> finalOf (conclude wd c s) = finalOf (conclude wd c s').
Proof.
  intros Hv. destruct (view_inv _ _ Hv) as (V1 & V2 & V3 & V4 & V5 & V6 & V7).
  apply tw_alike in V7. unfold conclude.
  destruct (iterError wd); [reflexivity|].
  destruct (tw (snd s)) as [w|], (tw (snd s')) as [w'|]; try contradiction;
    simpl; [|rewrite V4; reflexivity].
  unfold empty. rewrite V7.
  destruct (tw_entries w') eqn:E; simpl; [rewrite V4; reflexivity|].
  unfold finish. destruct (fault wd OpFinishLast); simpl; [reflexivity|].
  unfold staged in *. simpl. rewrite !map_app, V4, V7. simpl.
  rewrite E. reflexivity.
Qed.

Lemma finishRun_alike i rs s s' :
  view s = view s' ->
  finalOf (finishRun wd db c i rs s) = finalOf (finishRun wd db c i rs s').
Proof.
  intros Hv. unfold finishRun.
  destruct (loop_alike rs i s s' Hv); try reflexivity;
    apply conclude_alike; assumption.
Qed.

Lemma resumeAt_alike i r rs s s' :
  view s = view s' ->
  finalOf (resumeAt wd db c i r rs s) = finalOf (resumeAt wd db c i r rs s').
Proof.
  intros Hv. unfold resumeAt.
  destruct (handle_alike i r s s' Hv); try reflexivity;
    apply finishRun_alike; assumption.
Qed.

End Facts.

Section Retry.
Context `{Leveldb}.
Variable db : DB.
Variable c : compaction.
Variable F : list (list (ikey * value)).

Lemma enter_view b b' :
  snap b = snap b' -> staged b = staged b' ->
  view (enter b) = view (enter b').
Proof.
  intros Hs Hst. unfold enter.
  apply view_intro; simpl; first [exact Hst | congruence].
Qed.

(** Whether a build can be resumed depends on its snapshot and on the
    tables it has staged. *)
Lemma resumes_to_alike b b' :
  snap b = snap b' -> staged b = staged b' ->
  resumes_to db c b F -> resumes_to db c b' F.
Proof.
  intros Hs Hst. unfold resumes_to, exec.
  rewrite (finishRun_alike calm db c 0 (yielded calm c) (enter b) (enter b')
             (enter_view b b' Hs Hst)).
  auto.
Qed.

Lemma finish_calm wd o w b :
  fault wd o = None -> finish wd c o w b = finish calm c o w b.
Proof.
  intros Hf. unfold finish. rewrite Hf. reflexivity.
Qed.

Lemma finish_table_calm wd o w s :
  fault wd o = None -> finish_table wd c o w s = finish_table calm c o w s.
Proof.
  intros Hf. unfold finish_table. rewrite (finish_calm wd o w _ Hf).
  reflexivity.
Qed.

Lemma with_cnt_same (s : st) : (fst s, with_cnt (snd s) (cnt (snd s))) = s.
Proof. destruct s as [b [t ss w k]]. reflexivity. Qed.

(** The records before the snapshot are only counted. *)
Lemma loop_skips wd pre : forall i s rs,
  0 <= i ->
  i + Z.of_nat (length pre) <= snapIter (snap (fst s)) ->
  snapIter (snap (fst s)) < 2 ^ 63 ->
  loop wd db c i (pre ++ rs) s
  = loop wd db c (i + Z.of_nat (length pre)) rs
      (fst s, with_cnt (snd s) (incr_by (length pre) (cnt (snd s)))).
Proof.
  induction pre as [|r pre IH]; intros i s rs Hi Hle Hlt.
  - simpl. rewrite Z.add_0_r, with_cnt_same. reflexivity.
  - simpl length in *. cbn [app loop fst].
    assert ((i <? snapIter (snap (fst s))) = true) as -> by lia.
    assert (incr i = i + 1) as -> by (apply MergeFacts.incr_in_range; lia).
    rewrite IH by (simpl; lia). simpl.
    replace (i + 1 + Z.of_nat (length pre))
      with (i + Z.pos (Pos.of_succ_nat (length pre))) by lia.
    reflexivity.
Qed.

Lemma stopBefore_no_writer wd i ik s :
  tw (snd s) = None -> stopBefore wd c i ik s = Go s.
Proof.
  intros Hw. unfold stopBefore. rewrite Hw.
  destruct (parseIkey ik); [|reflexivity].
  destruct (shouldStopBefore c ik); reflexivity.
Qed.

(** One iteration that is not skipped, split at line 448. *)
Lemma finishRun_cons wd i r rs s sA sB :
  (i <? snapIter (snap (fst s))) = false ->
  stopBefore wd c i (fst r) (fst s, with_cnt (snd s) (incr (cnt (snd s))))
  = Go sA ->
  takeSnapshot i sA = Go sB ->
  finishRun wd db c i (r :: rs) s = resumeAt wd db c i r rs sB.
Proof.
  intros Hskip HA HB. unfold finishRun, resumeAt. cbn [loop fst].
  rewrite Hskip. unfold body. rewrite HA. cbn [andThen]. rewrite HB.
  cbn [andThen]. destruct (handle wd db c i r sB); reflexivity.
Qed.

(** A state right after the snapshot of iteration [i]: a call in which
    nothing fails and that starts from its build gets to line 448 of
    iteration [i] in a state with the same view. *)
Lemma snapshot_resumes pre r rs i sB :
  newIterator c = pre ++ r :: rs ->
  i = Z.of_nat (length pre) ->
  Z.of_nat (length (newIterator c)) < 2 ^ 63 ->
  tw (snd sB) = None ->
  snapSched (snd sB) = false ->
  snap (fst sB)
  = Snapshot (hasLastUkey (trk (snd sB))) (lastUkey (trk (snd sB)))
      (lastSeq (trk (snd sB))) i (kerrCnt (fst sB)) (dropCnt (fst sB)) ->
  finalOf (resumeAt calm db c i r rs sB) = Some F ->
  resumes_to db c (fst sB) F.
Proof.
  intros Hrec Hi Hlen Htw Hss Hsnap Hlive.
  assert (Z.of_nat (length pre) < 2 ^ 63) as Hpre.
  { rewrite Hrec, length_app in Hlen. lia. }
  unfold resumes_to, exec. unfold yielded. simpl iterErr. rewrite Hrec.
  unfold finishRun.
  rewrite (loop_skips calm pre 0 (enter (fst sB)) (r :: rs));
    [|lia|simpl; rewrite Hsnap; simpl; lia|simpl; rewrite Hsnap; simpl; lia].
  rewrite Z.add_0_l, <- Hi.
  set (eS := (fst (enter (fst sB)),
              with_cnt (snd (enter (fst sB)))
                (incr_by (length pre) (cnt (snd (enter (fst sB))))))).
  change (finalOf (finishRun calm db c i (r :: rs) eS) = Some F).
  set (s1 := (fst eS, with_cnt (snd eS) (incr (cnt (snd eS))))).
  assert (tw (snd s1) = None) as Htw1 by reflexivity.
  destruct (MergeFacts.takeSnapshot_cases i s1)
    as (s2 & Hts & _ & _ & _ & _).
  rewrite (finishRun_cons calm i r rs eS s1 s2);
    [| simpl; rewrite Hsnap; simpl; lia
     | apply stopBefore_no_writer; exact Htw1
     | exact Hts].
  rewrite <- Hlive. apply resumeAt_alike.
  destruct sB as [bB loB]. simpl in Htw, Hss, Hsnap.
  unfold takeSnapshot in Hts. subst s1 eS. simpl in Hts.
  rewrite Hsnap in Hts. simpl in Hts.
  destruct (i =? 0); inversion Hts; subst s2; clear Hts;
    apply view_intro; simpl; rewrite ?Hsnap; simpl;
    try reflexivity; try (symmetry; assumption).
  all: try (destruct (trk loB); reflexivity).
  all: try (rewrite Htw; reflexivity).
Qed.

Lemma append_sound wd i ik v w s :
  resumes_to db c (fst s) F ->
  snapSched (snd s) = false ->
  match append wd db c i ik v w s with
  | Go s' => append calm db c i ik v w s = Go s' /\ safe db c F s'
  | Fail e s' => resumes_to db c (fst s') F
  | _ => False
  end.
Proof.
  intros Hres Hss. unfold append. simpl fault.
  destruct (fault wd (OpAppend i)) as [e|]; [exact Hres|].
  set (w' := tw_append w ik v).
  set (s' := (fst s, with_tw (snd s) (Some w'))).
  destruct (_ <=? _).
  - pose proof (MergeFacts.finish_table_cases wd c (OpFinishSize i) w' s'
                  eq_refl) as Hf.
    destruct (finish_table wd c (OpFinishSize i) w' s') as [s6| |e s6|] eqn:E;
      try contradiction.
    + destruct Hf as (_ & Htw & Hsched & _ & Hnone).
      rewrite <- (finish_table_calm wd _ _ _ Hnone), E.
      split; [reflexivity|]. split; [congruence|auto].
    + destruct Hf as [-> _]. exact Hres.
  - split; [reflexivity|]. split; [intros _; exact Hres|].
    simpl. congruence.
Qed.

Lemma write_sound wd i ik v s3 :
  resumes_to db c (fst s3) F ->
  snapSched (snd s3) = false ->
  match withWriter wd i s3 (append wd db c i ik v) with
  | Go s' => withWriter calm i s3 (append calm db c i ik v) = Go s'
             /\ safe db c F s'
  | Skip _ => False
  | Fail e s' => resumes_to db c (fst s') F
  | Unwind _ => True
  end.
Proof.
  intros Hres Hss. destruct s3 as [b lo]. unfold withWriter.
  destruct (tw lo) as [w|] eqn:Hw.
  - pose proof (append_sound wd i ik v w (b, lo) Hres Hss) as Ha.
    destruct (append wd db c i ik v w (b, lo)); auto.
  - simpl pauseAt. simpl fault.
    set (w0 := fst (tops_create (sto b))).
    set (s4 := (Build (snap b) (kerrCnt b) (dropCnt b) (rec b)
                  (snd (tops_create (sto b))),
                with_tw lo (Some w0))).
    assert (resumes_to db c (fst s4) F) as Hres4.
    { eapply resumes_to_alike; [| |exact Hres]; reflexivity. }
    pose proof (append_sound wd i ik v w0 s4 Hres4 Hss) as Ha.
    destruct (pauseAt wd i) as [|[|]|]; auto.
    + destruct (fault wd (OpCreate i)); [exact Hres|].
      destruct (append wd db c i ik v w0 s4); auto.
    + destruct (fault wd (OpCreate i)); [exact Hres|].
      destruct (append wd db c i ik v w0 s4); auto.
Qed.

Lemma classify_keeps ik s :
  match classify db c ik s with
  | Go s' | Skip s' =>
      snap (fst s') = snap (fst s) /\ staged (fst s') = staged (fst s)
      /\ snapSched (snd s') = snapSched (snd s)
  | Fail e s' => s' = s
  | Unwind _ => False
  end.
Proof.
  destruct s as [b lo]. unfold classify.
  destruct (parseIkey ik) as [uk seq kt|kerr].
  - destruct (dropped db c _ seq kt); repeat split.
  - destruct (GetStrict db); repeat split.
Qed.

Lemma handle_sound wd i r sB :
  resumes_to db c (fst sB) F ->
  snapSched (snd sB) = false ->
  match handle wd db c i r sB with
  | Go s' | Skip s' =>
      handle calm db c i r sB = handle wd db c i r sB /\ safe db c F s'
  | Fail e s' => resumes_to db c (fst s') F
  | Unwind _ => True
  end.
Proof.
  intros Hres Hss. unfold handle.
  pose proof (classify_keeps (fst r) sB) as Hk.
  destruct (classify db c (fst r) sB) as [s3|s3|e s3|s3]; cbn [andThen].
  - destruct Hk as (K1 & K2 & K3).
    assert (resumes_to db c (fst s3) F) as Hres3.
    { eapply resumes_to_alike; [| |exact Hres]; symmetry; assumption. }
    pose proof (write_sound wd i (fst r) (snd r) s3 Hres3 ltac:(congruence))
      as Hw.
    destruct (withWriter wd i s3 (append wd db c i (fst r) (snd r)));
      try tauto.
  - destruct Hk as (K1 & K2 & K3). split; [reflexivity|].
    split; [|congruence]. intros _.
    eapply resumes_to_alike; [| |exact Hres]; symmetry; assumption.
  - subst s3. exact Hres.
  - exact I.
Qed.

Lemma snapshot_sound pre r rs i s :
  newIterator c = pre ++ r :: rs ->
  i = Z.of_nat (length pre) ->
  Z.of_nat (length (newIterator c)) < 2 ^ 63 ->
  safe db c F s ->
  exists sB, takeSnapshot i s = Go sB
    /\ snapSched (snd sB) = false
    /\ (finalOf (resumeAt calm db c i r rs sB) = Some F ->
        resumes_to db c (fst sB) F).
Proof.
  intros Hrec Hi Hlen [Hsafe1 Hsafe2]. destruct s as [b lo].
  unfold takeSnapshot. destruct (snapSched lo) eqn:Hss.
  - eexists. split; [reflexivity|]. split; [reflexivity|].
    apply (snapshot_resumes pre r rs i); auto.
  - eexists. split; [reflexivity|]. split; [exact Hss|].
    intros _. exact (Hsafe1 Hss).
Qed.

Lemma prelude_sound wd pre r rs i s1 :
  newIterator c = pre ++ r :: rs ->
  i = Z.of_nat (length pre) ->
  Z.of_nat (length (newIterator c)) < 2 ^ 63 ->
  safe db c F s1 ->
  match stopBefore wd c i (fst r) s1 with
  | Go sA =>
      stopBefore calm c i (fst r) s1 = Go sA
      /\ exists sB, takeSnapshot i sA = Go sB
           /\ snapSched (snd sB) = false
           /\ (finalOf (resumeAt calm db c i r rs sB) = Some F ->
               resumes_to db c (fst sB) F)
  | Fail e s' => resumes_to db c (fst s') F
  | _ => False
  end.
Proof.
  intros Hrec Hi Hlen Hsafe.
  pose proof (snapshot_sound pre r rs i s1 Hrec Hi Hlen Hsafe) as Hsame.
  unfold stopBefore.
  destruct (parseIkey (fst r)); [|split; [reflexivity|exact Hsame]].
  destruct (shouldStopBefore c (fst r)); [|split; [reflexivity|exact Hsame]].
  destruct (tw (snd s1)) as [w|] eqn:Hw; [|split; [reflexivity|exact Hsame]].
  pose proof (MergeFacts.finish_table_cases wd c (OpFinishStop i) w s1 Hw)
    as Hf.
  destruct (finish_table wd c (OpFinishStop i) w s1) as [sA| |e sA|] eqn:E;
    try contradiction.
  - destruct Hf as (_ & Htw & Hsched & _ & Hnone).
    rewrite <- (finish_table_calm wd _ _ _ Hnone), E.
    split; [reflexivity|].
    apply (snapshot_sound pre r rs i sA Hrec Hi Hlen).
    split; [congruence|auto].
  - destruct Hf as [-> _]. destruct Hsafe as [Hsafe1 Hsafe2].
    apply Hsafe1. destruct (snapSched (snd s1)); [|reflexivity].
    rewrite Hsafe2 in Hw by reflexivity. discriminate.
Qed.

Lemma finishRun_stop_fail wd i r rs s e s' :
  (i <? snapIter (snap (fst s))) = false ->
  stopBefore wd c i (fst r) (fst s, with_cnt (snd s) (incr (cnt (snd s))))
  = Fail e s' ->
  finishRun wd db c i (r :: rs) s
  = Transact.ExecRet (Some e) (cnt (snd s')) (fst s').
Proof.
  intros Hskip HA. unfold finishRun. cbn [loop fst].
  rewrite Hskip. unfold body. rewrite HA. reflexivity.
Qed.

Lemma finishRun_skip wd i r rs s :
  (i <? snapIter (snap (fst s))) = true ->
  finishRun wd db c i (r :: rs) s
  = finishRun wd db c (incr i) rs
      (fst s, with_cnt (snd s) (incr (cnt (snd s)))).
Proof.
  intros Hskip. unfold finishRun. cbn [loop fst]. rewrite Hskip.
  reflexivity.
Qed.

(** A call whose iterator does not fail, from a safe state from which the
    call without faults ends with [F]: it ends well. *)
Lemma attempt_sound wd rs : forall pre i s,
  iterErr wd = None ->
  newIterator c = pre ++ rs ->
  i = Z.of_nat (length pre) ->
  Z.of_nat (length (newIterator c)) < 2 ^ 63 ->
  finalOf (finishRun calm db c i rs s) = Some F ->
  safe db c F s ->
  sound db c F (finishRun wd db c i rs s).
Proof.
  induction rs as [|r rs IH]; intros pre i s Hiter Hrec Hi Hlen Hlive Hsafe.
  - unfold finishRun in *. cbn [loop] in *. unfold conclude in *.
    unfold iterError in *. rewrite Hiter. simpl iterErr in Hlive.
    destruct (tw (snd s)) as [w|] eqn:Hw.
    + destruct (empty w).
      * simpl in *. congruence.
      * simpl fault in Hlive. unfold finish in *. simpl fault in Hlive.
        destruct (fault wd OpFinishLast) as [e|].
        -- simpl. destruct Hsafe as [Hsafe1 Hsafe2]. apply Hsafe1.
           destruct (snapSched (snd s)); [|reflexivity].
           rewrite Hsafe2 in Hw by reflexivity. discriminate.
        -- simpl in *. congruence.
    + simpl in *. congruence.
  - assert (incr i = i + 1) as Hincr.
    { apply MergeFacts.incr_in_range; [lia|].
      rewrite Hrec, length_app in Hlen. simpl length in Hlen. lia. }
    assert (newIterator c = (pre ++ [r]) ++ rs) as Hrec'
      by (rewrite <- app_assoc; exact Hrec).
    assert (incr i = Z.of_nat (length (pre ++ [r]))) as Hi'.
    { rewrite Hincr, length_app. simpl. lia. }
    set (s1 := (fst s, with_cnt (snd s) (incr (cnt (snd s))))) in *.
    assert (safe db c F s1) as Hsafe1 by exact Hsafe.
    destruct (i <? snapIter (snap (fst s))) eqn:Hskip.
    + rewrite finishRun_skip in * by exact Hskip.
      apply (IH (pre ++ [r]) (incr i) s1); assumption.
    + pose proof (prelude_sound wd pre r rs i s1 Hrec Hi Hlen Hsafe1) as Hp.
      destruct (stopBefore wd c i (fst r) s1) as [sA| |e sA|] eqn:EA;
        try contradiction.
      * destruct Hp as (EA' & sB & EB & Hss & Hres).
        rewrite (finishRun_cons wd i r rs s sA sB Hskip EA EB).
        rewrite (finishRun_cons calm i r rs s sA sB Hskip EA' EB) in Hlive.
        specialize (Hres Hlive).
        pose proof (handle_sound wd i r sB Hres Hss) as Hh.
        unfold resumeAt in *.
        destruct (handle wd db c i r sB) as [s'|s'|e s'|s'] eqn:EH.
        -- destruct Hh as [Hcalm Hsafe']. rewrite Hcalm in Hlive.
           apply (IH (pre ++ [r]) (incr i) s'); assumption.
        -- destruct Hh as [Hcalm Hsafe']. rewrite Hcalm in Hlive.
           apply (IH (pre ++ [r]) (incr i) s'); assumption.
        -- exact Hh.
        -- exact I.
      * rewrite (finishRun_stop_fail wd i r rs s e sA Hskip EA). exact Hp.
Qed.

Lemma exec_sound wd b :
  iterErr wd = None ->
  Z.of_nat (length (newIterator c)) < 2 ^ 63 ->
  resumes_to db c b F ->
  sound db c F (exec db c wd b).
Proof.
  intros Hiter Hlen Hres. unfold exec, yielded. rewrite Hiter.
  apply (attempt_sound wd (newIterator c) [] 0 (enter b));
    try assumption; try reflexivity.
  split.
  - intros _. eapply resumes_to_alike; [| |exact Hres]; reflexivity.
  - reflexivity.
Qed.

(** The runner keeps the build resumable from one attempt to the next. *)
Lemma transact_sound (wds : nat -> world) tr :
  (forall n, iterErr (wds n) = None) ->
  Z.of_nat (length (newIterator c)) < 2 ^ 63 ->
  forall n backoff lastCnt b waits,
  resumes_to db c b F ->
  match snd (Transact.loop db (fun n => exec db c (wds n)) n backoff lastCnt
               tr b waits) with
  | Transact.Return b' => staged b' = F
  | _ => True
  end.
Proof.
  intros Hiter Hlen.
  induction tr as [|a tr IH]; intros n backoff lastCnt b waits Hres.
  - exact I.
  - cbn [Transact.loop]. destruct (Transact.isClosed a); [exact I|].
    pose proof (exec_sound (wds n) b (Hiter n) Hlen Hres) as Hs.
    destruct (exec db c (wds n) b) as [[e|] k b'|b']; [| |exact I].
    + simpl in Hs.
      destruct (Transact.pub a); try exact I;
        (destruct (IsCorrupted e); [exact I|]);
        (destruct (GetDisableCompactionBackoff db); [apply IH; exact Hs|]);
        destruct (Transact.backoff_step backoff lastCnt k) as [w [b1 l1]];
        (destruct (Transact.wait a); [apply IH; exact Hs|exact I]).
    + simpl in Hs. destruct (Transact.pub a); simpl; auto.
Qed.

(** Retrying is idempotent as long as the iterator does not fail: whatever
    else fails in whichever attempts, when the "table@build" transact
    returns it has staged the tables of the call without faults. *)
Lemma retry_without_read_errors (wds : nat -> world) rollback tr b b' :
  (forall n, iterErr (wds n) = None) ->
  Z.of_nat (length (newIterator c)) < 2 ^ 63 ->
  finalOf (exec db c calm b) = Some F ->
  snd (Transact.compactionTransact db (fun n => exec db c (wds n)) rollback
         tr b) = Transact.Done b' ->
  staged b' = F.
Proof.
  intros Hiter Hlen Hres. unfold Transact.compactionTransact.
  pose proof (transact_sound wds tr Hiter Hlen 0%nat Transact.backoffMin 0 b
                [] Hres) as Hs.
  destruct (Transact.loop db _ 0 Transact.backoffMin 0 tr b [])
    as [waits [b1|b1|b1]]; simpl in *.
  - intros Hd. injection Hd as <-. exact Hs.
  - destruct rollback as [rb|]; [destruct (rb b1)|]; discriminate.
  - discriminate.
Qed.

End Retry.
End RetryFacts.

(** ** Abort and rollback *)

Module RollbackFacts.
Import Merge Obs.
Section Facts.
Context `{Leveldb}.

Lemma removeTables_all remove ats : forall d,
  (forall r, r ∈ ats -> remove (file_num (snd r)) = None) ->
  exists d', removeTables remove ats d = (None, d')
    /\ forall n, n ∈ d' ->
         n ∈ d /\ n ∉ map (fun r : Z * tFile => file_num (snd r)) ats.
Proof.
  induction ats as [|r ats IH]; intros d Hok.
  - exists d. split; [reflexivity|]. intros n Hn. split; [exact Hn|].
    simpl. apply not_elem_of_nil.
  - simpl. rewrite (Hok r) by apply list_elem_of_here.
    destruct (IH (Remove (file_num (snd r)) d)) as (d' & -> & Hd').
    { intros r' Hr'. apply Hok. apply list_elem_of_further. exact Hr'. }
    exists d'. split; [reflexivity|]. intros n Hn.
    destruct (Hd' n Hn) as [Hin Hnot].
    unfold Remove in Hin.
    apply elem_of_difference in Hin. destruct Hin as [Hin Hne].
    split; [exact Hin|].
    rewrite not_elem_of_cons. split; [|exact Hnot].
    intros ->. apply Hne. apply elem_of_singleton. reflexivity.
Qed.

Lemma rollback_rec remove b : rec (snd (rollback remove b)) = rec b.
Proof.
  unfold rollback. destruct (removeTables _ _ _). reflexivity.
Qed.

Lemma rollback_clean remove b :
  (forall r, r ∈ addedTables (rec b) -> remove (file_num (snd r)) = None) ->
  fst (rollback remove b) = None
  /\ forall n, ~ dangling (snd (rollback remove b)) n.
Proof.
  intros Hok. unfold rollback.
  destruct (removeTables_all remove _ (disk (sto b)) Hok) as (d' & -> & Hd').
  split; [reflexivity|].
  intros n [Hst Hdisk]. simpl in *.
  destruct (Hd' n Hdisk) as [_ Hnot]. contradiction.
Qed.

(** C5, as the code has it.  Whatever makes the loop of the runner leave
    through [compactionExitTransact] (the database is closed at the start
    of an attempt or during the publication, a persistent error answers the
    publication of a failed attempt, or the attempt failed with a
    corruption), a registered rollback runs on the state reached and the
    call still ends with the sentinel unwinding, the error of the rollback
    going to the log only.  The rollback of "table@build" leaves the record
    as it is and, when no removal fails, leaves none of the table files
    staged as added on disk. *)
Theorem abort_runs_rollback (db : DB) :
  (forall (S : Type) (exec : nat -> S -> Transact.exec_result S)
          (rb : S -> option error * S) tr s waits s',
     Transact.loop db exec 0 Transact.backoffMin 0 tr s [] = (waits, Transact.Exit s') ->
     Transact.compactionTransact db exec (Some rb) tr s
     = (waits, Transact.Unwound (snd (rb s')) (fst (rb s'))))
  /\ (forall (S : Type) (exec : nat -> S -> Transact.exec_result S)
             n backoff lastCnt a tr s waits,
        (Transact.isClosed a = true ->
         Transact.loop db exec n backoff lastCnt (a :: tr) s waits
         = (waits, Transact.Exit s))
        /\ (forall e k s',
              Transact.isClosed a = false ->
              exec n s = Transact.ExecRet (Some e) k s' ->
              Transact.pub a = Transact.PubClosed
              \/ Transact.pub a = Transact.PubPerErr
              \/ IsCorrupted e = true ->
              Transact.loop db exec n backoff lastCnt (a :: tr) s waits
              = (waits, Transact.Exit s')))
  /\ (forall remove b,
        rec (snd (rollback remove b)) = rec b
        /\ ((forall r, r ∈ addedTables (rec b) ->
                       remove (file_num (snd r)) = None) ->
            fst (rollback remove b) = None
            /\ forall n, ~ dangling (snd (rollback remove b)) n)).
Proof.
  split; [|split].
  - intros S exec rb tr s waits s' Hl.
    unfold Transact.compactionTransact. rewrite Hl.
    destruct (rb s'); reflexivity.
  - intros S exec n backoff lastCnt a tr s waits. split.
    + intros Hc. simpl. rewrite Hc. reflexivity.
    + intros e k s' Hc Hx Hcause. simpl. rewrite Hc, Hx.
      destruct (Transact.pub a) eqn:Hp.
      * destruct Hcause as [Hcause|[Hcause|Hcause]]; try discriminate.
        rewrite Hcause. reflexivity.
      * reflexivity.
      * reflexivity.
  - intros remove b. split; [apply rollback_rec|apply rollback_clean].
Qed.

End Facts.
End RollbackFacts.

(** ** Range compaction *)

Module RangeFacts.
Import Compaction Obs.
Section Facts.
Context `{Leveldb}.
Variable db : DB.
Variable w : Z -> tc_world.
Variables umin umax : ukey.

(** With [noTrivial = true] the call is a full merge. *)
Lemma tableCompaction_noTrivial c tw s :
  forall b, tableCompaction db c true tw s <> TcDone TrivialMove b.
Proof.
  intros b. unfold tableCompaction. simpl.
  destruct (snd (Transact.compactionTransact db _ _ (build_trace tw) _));
    try discriminate.
  destruct (snd (Transact.compactionTransact db _ _ (commit_trace tw) _));
    discriminate.
Qed.

Lemma levelsLoop_visits fuel : forall level m s,
  - 2 ^ 63 <= level ->
  m < 2 ^ 63 ->
  m - level <= Z.of_nat fuel ->
  visits db w umin umax m level s
    (fst (levelsLoop fuel db w level m umin umax s))
    (snd (levelsLoop fuel db w level m umin umax s)).
Proof.
  induction fuel as [|fuel IH]; intros level m s Hlo Hm Hfuel.
  - simpl. destruct (level <? m) eqn:Hlt; [lia|].
    apply visits_end. lia.
  - simpl. destruct (level <? m) eqn:Hlt; [|apply visits_end; lia].
    assert (incr level = level + 1) as Hi.
    { unfold incr. apply wrap_int_small. lia. }
    unfold compactLevel.
    destruct (getCompactionRange (Merge.sess s) level umin umax) as [c|] eqn:Hg.
    + destruct (tableCompaction db c true (w level) s) as [p b|b|b|] eqn:Ht.
      * specialize (IH (incr level) m (Merge.sto b) ltac:(lia) Hm ltac:(lia)).
        destruct (levelsLoop fuel db w (incr level) m umin umax (Merge.sto b))
          as [cs e].
        simpl in *. destruct p.
        -- exfalso. exact (tableCompaction_noTrivial _ _ _ _ Ht).
        -- rewrite Hi in IH. eapply visits_run; eauto. lia.
      * simpl. apply visits_abort; [lia|exact Hg|exact Ht|discriminate].
      * simpl. apply visits_abort; [lia|exact Hg|exact Ht|discriminate].
      * simpl. apply visits_abort; [lia|exact Hg|exact Ht|discriminate].
    + specialize (IH (incr level) m s ltac:(lia) Hm ltac:(lia)).
      destruct (levelsLoop fuel db w (incr level) m umin umax s) as [cs e].
      simpl in *. rewrite Hi in IH. eapply visits_none; eauto. lia.
Qed.

(** [m] after the loop of lines 572-576 over the levels from [i + 1] on. *)
Lemma deepest_spec ts : forall i m0,
  0 <= i ->
  i + Z.of_nat (length ts) < 2 ^ 63 ->
  (deepest umin umax i ts m0 = m0
   /\ forall k t, ts !! k = Some t -> overlaps t umin umax = false)
  \/ (exists k t, ts !! k = Some t /\ overlaps t umin umax = true
        /\ deepest umin umax i ts m0 = i + Z.of_nat k + 1
        /\ forall k' t', (k < k')%nat -> ts !! k' = Some t' ->
                         overlaps t' umin umax = false).
Proof.
  induction ts as [|t ts IH]; intros i m0 Hi Hlen.
  - left. split; [reflexivity|]. intros k t Hk. discriminate.
  - simpl length in Hlen. simpl deepest.
    assert (incr i = i + 1) as Hincr by (unfold incr; apply wrap_int_small; lia).
    assert (wrap_int (i + 1) = i + 1) as Hw by (apply wrap_int_small; lia).
    rewrite Hincr, Hw.
    destruct (IH (i + 1) (if overlaps t umin umax then i + 1 else m0)
                ltac:(lia) ltac:(lia))
      as [[Hd Hnone]|(k & t' & Hk & Hov & Hd & Hlater)].
    + destruct (overlaps t umin umax) eqn:Hov.
      * right. exists 0%nat, t. split; [reflexivity|]. split; [exact Hov|].
        split; [rewrite Hd; lia|].
        intros k' t' Hlt Hk'. destruct k' as [|k']; [lia|].
        simpl in Hk'. eapply Hnone; eauto.
      * left. split; [exact Hd|].
        intros k t' Hk. destruct k as [|k]; simpl in Hk.
        -- inversion Hk; subst. exact Hov.
        -- eapply Hnone; eauto.
    + right. exists (Datatypes.S k), t'. split; [exact Hk|].
      split; [exact Hov|]. split; [rewrite Hd; lia|].
      intros k' t'' Hlt Hk'. destruct k' as [|k']; [lia|].
      simpl in Hk'. eapply Hlater; [|exact Hk']. lia.
Qed.

Lemma visits_calls m level s cs e :
  visits db w umin umax m level s cs e ->
  Forall (fun cl => call_noTrivial cl = true
                    /\ level <= call_level cl < m
                    /\ forall b, call_end cl <> TcDone TrivialMove b) cs.
Proof.
  induction 1 as [level s Hm|level s cs e Hlt Hg Hv IH
                  |level s c b cs e Hlt Hg Ht Hv IH|level s c e Hlt Hg Ht Hne].
  - constructor.
  - eapply Forall_impl; [exact IH|]. simpl. intros cl (A & B & C).
    repeat split; auto; lia.
  - constructor.
    + simpl. repeat split; try lia. discriminate.
    + eapply Forall_impl; [exact IH|]. simpl. intros cl (A & B & C).
      repeat split; auto; lia.
  - constructor; [|constructor]. simpl. repeat split; try lia.
    intros b. apply Hne.
Qed.

(** C8, as the code has it.  For [level < 0], with [m] the deepest level
    from 1 on whose tables overlap the range (1 when there is none), the
    range compaction walks the levels 0 to [m - 1] in order: at each of them
    it asks the session for a compaction covering the range and, if there is
    one, runs it with [noTrivial = true], which is never a trivial move; it
    stops early only when a call does not return.  Level [m] itself is not
    compacted. *)
Theorem range_compaction_levels level s t0 deeper :
  level < 0 ->
  version_tables (Merge.sess s) = t0 :: deeper ->
  Z.of_nat (length deeper) < 2 ^ 62 ->
  let m := deepest umin umax 0 deeper 1 in
  let r := tableRangeCompaction db w level umin umax s in
  ((m = 1 /\ forall l, (1 <= l)%nat ->
                       overlapping (t0 :: deeper) umin umax l = false)
   \/ (1 <= m
       /\ overlapping (t0 :: deeper) umin umax (Z.to_nat m) = true
       /\ forall l, (Z.to_nat m < l)%nat ->
                    overlapping (t0 :: deeper) umin umax l = false))
  /\ visits db w umin umax m 0 s (fst r) (snd r)
  /\ Forall (fun cl => call_noTrivial cl = true
                       /\ 0 <= call_level cl < m
                       /\ forall b, call_end cl <> TcDone TrivialMove b)
       (fst r).
Proof.
  intros Hneg Hv Hlen m r.
  assert (1 <= m <= Z.of_nat (length deeper)
          \/ m = 1) as Hm.
  { subst m.
    destruct (deepest_spec deeper 0 1 ltac:(lia) ltac:(lia))
      as [[Hd _]|(k & t & Hk & _ & Hd & _)]; [right; exact Hd|].
    left. rewrite Hd. apply lookup_lt_Some in Hk. lia. }
  assert (visits db w umin umax m 0 s (fst r) (snd r)) as Hvis.
  { subst r. unfold tableRangeCompaction.
    assert ((0 <=? level) = false) as -> by lia.
    rewrite Hv. fold m.
    apply levelsLoop_visits; lia. }
  split; [|split; [exact Hvis|exact (visits_calls _ _ _ _ _ Hvis)]].
  subst m.
  destruct (deepest_spec deeper 0 1 ltac:(lia) ltac:(lia))
    as [[Hd Hnone]|(k & t & Hk & Hov & Hd & Hlater)].
  - left. split; [exact Hd|]. intros l Hl. unfold overlapping.
    destruct l as [|l]; [lia|]. simpl.
    destruct (deeper !! l) as [t|] eqn:Hl'; [|reflexivity].
    eapply Hnone; eauto.
  - right. rewrite Hd.
    replace (Z.to_nat (0 + Z.of_nat k + 1)) with (Datatypes.S k) by lia.
    split; [lia|]. split.
    + unfold overlapping. simpl. rewrite Hk. exact Hov.
    + intros l Hl. unfold overlapping. destruct l as [|l]; [lia|]. simpl.
      destruct (deeper !! l) as [t'|] eqn:Hl'; [|reflexivity].
      eapply Hlater; [|exact Hl']. lia.
Qed.

End Facts.
End RangeFacts.

(** ** The scenarios *)

Module ScenarioFacts.
Import Scenario.
#[local] Existing Instance leveldb.

(** C1, the scenario as the specification has it: at [minSeq = 0] the merge
    of the two versions of ["a"] keeps both and drops nothing, because the
    tracked sequence 5 is above [minSeq]. *)
Lemma rule_A_scenario_keeps_both :
  emitted (Merge.exec (db 0 100 false) versions calm start)
  = Some ([[("a#5", "v5"); ("a#3", "v3")]], 0, 0)
  /\ emitted (Merge.exec (db 0 100 false) versions calm start)
     <> Some ([[("a#5", "v5")]], 1, 0).
Proof. split; [reflexivity|discriminate]. Qed.

(** C1, as the code has it.  A well-formed record whose user key is the
    tracked one is dropped by lines 448-473 whenever the tracked [lastSeq]
    is not above [minSeq]: nothing is appended to any output table and
    [dropCnt] is incremented (the iteration that handles it drops it, or
    fails before looking at it because the table before a grandparent
    boundary cannot be finished), and the call that reaches it passes over
    it.  In particular the merge of
    [(a#5,"v5"), (a#3,"v3")] at [minSeq = 5] emits only [(a#5,"v5")] with
    [dropCnt = 1]. *)
Theorem rule_A_suppression :
  (forall (L : Leveldb) (wd : Merge.world) (db : DB) (c : compaction)
          ik v uk seq kt,
     parseIkey ik = Parsed uk seq kt ->
     (forall s,
        Merge.hasLastUkey (Merge.trk (snd s)) = true ->
        uCompare db (Merge.lastUkey (Merge.trk (snd s))) uk = 0 ->
        Merge.lastSeq (Merge.trk (snd s)) <= minSeq db ->
        (exists s', Merge.classify db c ik s = Merge.Skip s'
                    /\ Obs.dropped_into s s' seq)
        /\ forall i, Obs.body_drops wd db c i (ik, v) s seq)
     /\ (forall b pre post s1,
           Merge.yielded wd c = pre ++ (ik, v) :: post ->
           Merge.loop wd db c 0 pre (Merge.enter b) = Merge.Go s1 ->
           (Obs.incr_by (length pre) 0
              <? Merge.snapIter (Merge.snap (fst s1))) = false ->
           Merge.hasLastUkey (Merge.trk (snd s1)) = true ->
           uCompare db (Merge.lastUkey (Merge.trk (snd s1))) uk = 0 ->
           Merge.lastSeq (Merge.trk (snd s1)) <= minSeq db ->
           Obs.passes_over wd db c b pre post s1))
  /\ emitted (Merge.exec (db 5 100 false) versions calm start)
     = Some ([[("a#5", "v5")]], 1, 0).
Proof.
  split; [|reflexivity].
  intros L wd db c ik v uk seq kt.
  apply MergeFacts.rule_A_drops.
Qed.

(** Rule A at the second record of the two versions of ["a"], at
    [minSeq = 5]. *)
Lemma rule_A_suppression_witness :
  exists s', Merge.classify (db 5 100 false) versions "a#3" second
             = Merge.Skip s'
             /\ Obs.dropped_into second s' 3.
Proof.
  apply (proj1 (proj1 (proj1 rule_A_suppression leveldb calm
                         (db 5 100 false) versions "a#3" "v3" "a" 3 ktVal
                         eq_refl)
                  second eq_refl eq_refl ltac:(simpl; lia))).
Defined.

(** Rule B at the tombstone [a#7D], at [minSeq = 7]. *)
Lemma rule_B_drops_tombstone_witness :
  exists s', Merge.classify (db 7 100 false) tombstone "a#7D"
               (Merge.enter start) = Merge.Skip s'
             /\ Obs.dropped_into (Merge.enter start) s' 7.
Proof.
  apply (proj1 (proj1 (MergeFacts.rule_B_drops_tombstone calm
                         (db 7 100 false) tombstone "a#7D" "" "a" 7
                         (fun _ _ _ => eq_refl) eq_refl ltac:(simpl; lia)
                         eq_refl)
                  (Merge.enter start))).
Defined.

(** C3: a transient read error right after a table has been finished for
    its size.  The first call of the build closure finishes the table of
    ["b#1"] and then sees the iterator fail; the snapshot is still the one
    taken at record 0, so the second call starts over with the finished
    table still staged and stages it again: the compaction commits three
    tables where the run without the fault commits two. *)
Theorem retry_after_read_error_duplicates :
  stagedBy (Compaction.tableCompaction (db 0 1 false) two true
              (firstCall readFails (fun _ => None)) emptyStore)
  = Some [[("b#1", "x")]; [("b#1", "x")]; [("c#1", "y")]]
  /\ stagedBy (Compaction.tableCompaction (db 0 1 false) two true
                 steady emptyStore)
     = Some [[("b#1", "x")]; [("c#1", "y")]].
Proof. split; reflexivity. Qed.

(** A failure elsewhere is retried from the snapshot: when the second table
    cannot be created, the second call resumes at record 1 and the result is
    that of the run without the fault. *)
Lemma retry_after_create_error_agrees :
  stagedBy (Compaction.tableCompaction (db 0 1 false) two true
              (firstCall (createFails (ErrIO "no space")) (fun _ => None))
              emptyStore)
  = stagedBy (Compaction.tableCompaction (db 0 1 false) two true
                steady emptyStore).
Proof. reflexivity. Qed.

(** C5, as the specification has it: the second table cannot be created
    because of a corruption, the transact unwinds, and the removal of the
    first table fails; the file stays on disk, staged in the record. *)
Lemma rollback_failure_leaves_file :
  match Compaction.tableCompaction (db 0 1 false) two true
          (firstCall (createFails (ErrCorrupted "bad block"))
             (fun _ => Some (ErrIO "busy")))
          emptyStore with
  | Compaction.TcUnwound b => Obs.dangling b 0%N
  | _ => False
  end.
Proof.
  vm_compute. split; [apply list_elem_of_here|reflexivity].
Qed.

(** The rollback of a build with one staged table, when the removal
    succeeds. *)
Lemma abort_runs_rollback_witness :
  fst (Merge.rollback (fun _ => None) oneStaged) = None
  /\ forall n, ~ Obs.dangling (snd (Merge.rollback (fun _ => None) oneStaged)) n.
Proof.
  apply (proj2 (proj2 (proj2 (RollbackFacts.abort_runs_rollback
                                (db 0 1 false)))
                  (fun _ => None) oneStaged)).
  intros r _. reflexivity.
Defined.

(** Four failing attempts without progress wait 1s, 8s, 8s, 8s. *)
Lemma backoff_waits_without_progress_witness :
  fst (Transact.compactionTransact (db 0 1 false) (failing 0) None
         [quiet; quiet; quiet; quiet] tt)
  = [1000000000; 8000000000; 8000000000; 8000000000].
Proof.
  apply (TransactFacts.backoff_waits_without_progress (db 0 1 false)
           (failing 0) None (ErrIO "disk full") 0
           [quiet; quiet; quiet; quiet] tt eq_refl eq_refl).
  - intros n s. reflexivity.
  - repeat constructor.
Defined.



(** C8, as the specification has it: level 1 is the deepest level whose
    tables overlap the range and the session yields a compaction there, but
    the walk compacts level 0 only. *)
Lemma range_compaction_skips_deepest :
  let r := Compaction.tableRangeCompaction (db 0 1 false) (fun _ => steady)
             (-1) "a" "z" twoLevels in
  Obs.overlapping (version_tables (Merge.sess twoLevels)) "a" "z" 1 = true
  /\ length (version_tables (Merge.sess twoLevels)) = 2%nat
  /\ (forall s, getCompactionRange s 1 "a" "z"
                = Some (mergeOf [("b#1", "x")]))
  /\ map Compaction.call_level (fst r) = [0]
  /\ exists s, snd r = Compaction.RangeDone s.
Proof.
  repeat split. eexists. vm_compute. reflexivity.
Qed.

(** The walk over the store with two levels. *)
Lemma range_compaction_levels_witness :
  Forall (fun cl => Compaction.call_noTrivial cl = true
                    /\ 0 <= Compaction.call_level cl < 1
                    /\ forall b, Compaction.call_end cl
                                 <> Compaction.TcDone Compaction.TrivialMove b)
    (fst (Compaction.tableRangeCompaction (db 0 1 false) (fun _ => steady)
            (-1) "a" "z" twoLevels)).
Proof.
  apply (proj2 (proj2 (RangeFacts.range_compaction_levels (db 0 1 false)
                         (fun _ => steady) "a" "z" (-1) twoLevels
                         [] [[TFile 7 [("b#0", "w")]]]
                         ltac:(lia) eq_refl ltac:(simpl; lia)))).
Defined.

(** The key that does not parse, in strict mode. *)
Lemma corrupt_key_handling_witness :
  exists s2, Obs.same_merge (Merge.enter start) s2
    /\ Merge.body calm (db 5 100 true) garbled 0 ("zzz", "?")
         (Merge.enter start)
       = Merge.Fail (ErrCorrupted "zzz") s2.
Proof.
  apply (proj1 (proj1 (MergeFacts.corrupt_key_handling calm
                         (db 5 100 true) garbled 0 "zzz" "?"
                         (ErrCorrupted "zzz") (Merge.enter start) eq_refl)
                  eq_refl)).
Defined.

(** C10, as the specification has it: between the tombstone of ["a"],
    which is dropped, and the older version of ["a"] comes a key that does
    not parse; it resets the tracking, and the older version is kept. *)
Lemma drop_forgotten_after_corrupt_key :
  emitted (Merge.exec (db 7 100 false) interrupted calm start)
  = Some ([[("zzz", "?"); ("a#2", "v2")]], 1, 1).
Proof. vm_compute. reflexivity. Qed.

(** The older version of ["a"] after its dropped tombstone. *)
Lemma drop_is_sticky_witness :
  Merge.lastSeq (Merge.trk (snd afterTombstone)) = 7
  /\ 7 <= 7
  /\ match Merge.loop calm (db 7 100 false) tombstone (incr 0)
             [("a#2", "v2")] afterTombstone with
     | Merge.Go s' =>
         Obs.output s' = Obs.output afterTombstone
         /\ Merge.dropCnt (fst s')
            = Obs.incr_by 1 (Merge.dropCnt (fst afterTombstone))
         /\ Merge.lastSeq (Merge.trk (snd s')) <= 7
     | Merge.Fail e s' =>
         (exists j, Merge.fault calm (Merge.OpFinishStop j) = Some e)
         /\ Obs.output s' = Obs.output afterTombstone
     | _ => False
     end.
Proof.
  apply (MergeFacts.drop_is_sticky calm (db 7 100 false) tombstone 0
           "a#7D" "" "a" 7 ktDel (Merge.enter start) afterTombstone
           [("a#2", "v2")] eq_refl eq_refl).
  - vm_compute. discriminate.
  - vm_compute. repeat split.
  - simpl. lia.
  - lia.
  - simpl. lia.
Defined.

End ScenarioFacts.

(** * More properties of the code *)

(** ** The retry wrapper, continued *)

Module TransactMore.
Import Transact.
Section Facts.
Context `{Leveldb}.
Context {S : Type}.

Lemma backoff_step_waits backoff lastCnt cnt :
  backoff = 1000000000 \/ backoff = 8000000000 ->
  (fst (backoff_step backoff lastCnt cnt) = 1000000000
   \/ fst (backoff_step backoff lastCnt cnt) = 8000000000)
  /\ fst (snd (backoff_step backoff lastCnt cnt)) = 8000000000.
Proof.
  intros [-> | ->]; unfold backoff_step;
    destruct (lastCnt <? cnt); simpl; auto.
Qed.

Lemma loop_waits (db : DB) (exec : nat -> S -> exec_result S) tr :
  forall n backoff lastCnt s waits,
  backoff = 1000000000 \/ backoff = 8000000000 ->
  Forall (fun w => w = 1000000000 \/ w = 8000000000) waits ->
  Forall (fun w => w = 1000000000 \/ w = 8000000000)
    (fst (loop db exec n backoff lastCnt tr s waits)).
Proof.
  induction tr as [|a tr IH]; intros n backoff lastCnt s waits Hb Hw.
  - exact Hw.
  - cbn [loop]. destruct (isClosed a); [exact Hw|].
    destruct (exec n s) as [err k s'|s']; [|exact Hw].
    destruct (backoff_step_waits backoff lastCnt k Hb) as [Hw1 Hb2].
    assert (Forall (fun w => w = 1000000000 \/ w = 8000000000)
              (waits ++ [fst (backoff_step backoff lastCnt k)])) as Hw'.
    { apply Forall_app. split; [exact Hw|]. constructor; [exact Hw1|constructor]. }
    destruct (backoff_step backoff lastCnt k) as [w [b2 l2]]. simpl in *.
    destruct (pub a), err as [e|]; try exact Hw;
      (destruct (IsCorrupted e); [exact Hw|]);
      (destruct (GetDisableCompactionBackoff db); [apply IH; assumption|]);
      (destruct (wait a); [apply IH; auto|exact Hw']).
Qed.

(** X1. Whatever the closure does and however long the transact retries,
    every wait it asks of the timer lasts one second or eight seconds. *)
Theorem waits_are_min_or_max (db : DB) (exec : nat -> S -> exec_result S)
    rollback tr s :
  Forall (fun w => w = 1 * Second \/ w = 8 * Second)
    (fst (compactionTransact db exec rollback tr s)).
Proof.
  unfold compactionTransact.
  pose proof (loop_waits db exec tr 0%nat backoffMin 0 s []
                (or_introl eq_refl) ltac:(constructor)) as Hl.
  destruct (loop db exec 0 backoffMin 0 tr s []) as [waits e].
  destruct e as [s'|s'|s']; simpl in *; try exact Hl.
  destruct rollback as [rb|]; [destruct (rb s')|]; exact Hl.
Qed.

Lemma loop_no_backoff (db : DB) (exec : nat -> S -> exec_result S) tr :
  GetDisableCompactionBackoff db = true ->
  forall n backoff lastCnt s waits,
  fst (loop db exec n backoff lastCnt tr s waits) = waits.
Proof.
  intros Hd. induction tr as [|a tr IH]; intros n backoff lastCnt s waits.
  - reflexivity.
  - cbn [loop]. destruct (isClosed a); [reflexivity|].
    destruct (exec n s) as [err k s'|s']; [|reflexivity].
    rewrite Hd.
    destruct (pub a), err as [e|]; try reflexivity;
      (destruct (IsCorrupted e); [reflexivity|apply IH]).
Qed.

(** X2. With the backoff disabled by the options the transact never waits,
    however often it retries. *)
Theorem no_waits_when_backoff_disabled (db : DB)
    (exec : nat -> S -> exec_result S) rollback tr s :
  GetDisableCompactionBackoff db = true ->
  fst (compactionTransact db exec rollback tr s) = [].
Proof.
  intros Hd. unfold compactionTransact.
  pose proof (loop_no_backoff db exec tr Hd 0%nat backoffMin 0 s []) as Hl.
  destruct (loop db exec 0 backoffMin 0 tr s []) as [waits e].
  destruct e as [s'|s'|s']; simpl in *; try exact Hl.
  destruct rollback as [rb|]; [destruct (rb s')|]; exact Hl.
Qed.

(** The states the closure is called on and returns, attempt by attempt:
    the loop ends in a state that satisfies every invariant of the
    closure. *)
Lemma loop_invariant (db : DB) (exec : nat -> S -> exec_result S)
    (I : S -> Prop) tr :
  (forall n s, I s ->
     match exec n s with
     | ExecRet _ _ s' | ExecExit s' => I s'
     end) ->
  forall n backoff lastCnt s waits,
  I s ->
  match snd (loop db exec n backoff lastCnt tr s waits) with
  | Return s' | Exit s' | Pending s' => I s'
  end.
Proof.
  intros Hexec. induction tr as [|a tr IH]; intros n backoff lastCnt s waits Hs.
  - exact Hs.
  - cbn [loop]. destruct (isClosed a); [exact Hs|].
    specialize (Hexec n s Hs).
    destruct (exec n s) as [err k s'|s']; [|exact Hexec].
    destruct (backoff_step backoff lastCnt k) as [w [b2 l2]].
    destruct (pub a), err as [e|]; try exact Hexec;
      (destruct (IsCorrupted e); [exact Hexec|]);
      (destruct (GetDisableCompactionBackoff db); [apply IH; assumption|]);
      (destruct (wait a); [apply IH; assumption|exact Hexec]).
Qed.

Lemma loop_return (db : DB) (exec : nat -> S -> exec_result S) tr :
  forall n backoff lastCnt s waits s',
  snd (loop db exec n backoff lastCnt tr s waits) = Return s' ->
  exists m s0 k, (n <= m < n + length tr)%nat
    /\ exec m s0 = ExecRet None k s'.
Proof.
  induction tr as [|a tr IH]; intros n backoff lastCnt s waits s'.
  - discriminate.
  - cbn [loop]. destruct (isClosed a); [discriminate|].
    destruct (exec n s) as [err k s1|s1] eqn:Hx; [|discriminate].
    assert (forall b l w, snd (loop db exec (Datatypes.S n) b l tr s1 w)
                          = Return s' ->
              exists m s0 k0, (n <= m < n + length (a :: tr))%nat
                /\ exec m s0 = ExecRet None k0 s') as Hrec.
    { intros b l w Hl. destruct (IH _ _ _ _ _ _ Hl) as (m & s0 & k0 & Hm & He).
      exists m, s0, k0. split; [simpl; lia|exact He]. }
    destruct (backoff_step backoff lastCnt k) as [w [b2 l2]].
    destruct (pub a), err as [e|]; try discriminate;
      try (intros Hr; injection Hr as <-; exists n, s, k;
           split; [simpl; lia|exact Hx]);
      (destruct (IsCorrupted e); [discriminate|]);
      (destruct (GetDisableCompactionBackoff db); [apply Hrec|]);
      (destruct (wait a); [apply Hrec|discriminate]).
Qed.

(** A property the failed calls keep holds of the state on which the
    successful call was made. *)
Lemma loop_return_from (db : DB) (exec : nat -> S -> exec_result S)
    (I : S -> Prop) tr :
  (forall n s e k s', I s -> exec n s = ExecRet (Some e) k s' -> I s') ->
  forall n backoff lastCnt s waits s',
  I s ->
  snd (loop db exec n backoff lastCnt tr s waits) = Return s' ->
  exists m s0 k, I s0 /\ exec m s0 = ExecRet None k s'.
Proof.
  intros Hexec.
  induction tr as [|a tr IH]; intros n backoff lastCnt s waits s' Hs.
  - discriminate.
  - cbn [loop]. destruct (isClosed a); [discriminate|].
    destruct (exec n s) as [err k s1|s1] eqn:Hx; [|discriminate].
    destruct (backoff_step backoff lastCnt k) as [w [b2 l2]].
    destruct err as [e|].
    + pose proof (Hexec _ _ _ _ _ Hs Hx) as Hs1.
      destruct (pub a); try discriminate;
        (destruct (IsCorrupted e); [discriminate|]);
        (destruct (GetDisableCompactionBackoff db); [apply IH; exact Hs1|]);
        (destruct (wait a); [apply IH; exact Hs1|discriminate]).
    + destruct (pub a); try discriminate;
        (intros Hd; injection Hd as <-; exists n, s, k; auto).
Qed.

Lemma transact_done_from (db : DB) (exec : nat -> S -> exec_result S)
    (I : S -> Prop) rollback tr s s' :
  (forall n s e k s', I s -> exec n s = ExecRet (Some e) k s' -> I s') ->
  I s ->
  snd (compactionTransact db exec rollback tr s) = Done s' ->
  exists m s0 k, I s0 /\ exec m s0 = ExecRet None k s'.
Proof.
  intros Hexec Hs. unfold compactionTransact.
  pose proof (loop_return_from db exec I tr Hexec 0%nat backoffMin 0 s [])
    as Hl.
  destruct (loop db exec 0 backoffMin 0 tr s []) as [waits e].
  destruct e as [s1|s1|s1]; simpl in *.
  - intros Hd. injection Hd as <-. apply Hl; auto.
  - destruct rollback as [rb|]; [destruct (rb s1)|]; discriminate.
  - discriminate.
Qed.

(** An invariant of the closure and of the rollback holds however the
    transact ends. *)
Lemma transact_invariant (db : DB) (exec : nat -> S -> exec_result S)
    (I : S -> Prop) rollback tr s :
  (forall n s, I s ->
     match exec n s with
     | ExecRet _ _ s' | ExecExit s' => I s'
     end) ->
  (forall rb s, rollback = Some rb -> I s -> I (snd (rb s))) ->
  I s ->
  match snd (compactionTransact db exec rollback tr s) with
  | Done s' | Unwound s' _ | Running s' => I s'
  end.
Proof.
  intros Hexec Hrb Hs. unfold compactionTransact.
  pose proof (loop_invariant db exec I tr Hexec 0%nat backoffMin 0 s [] Hs)
    as Hl.
  destruct (loop db exec 0 backoffMin 0 tr s []) as [waits e].
  destruct e as [s1|s1|s1]; simpl in *; try exact Hl.
  destruct rollback as [rb|]; [|exact Hl].
  specialize (Hrb rb s1 eq_refl Hl). destruct (rb s1); exact Hrb.
Qed.

(** A closure that changes the state only when it succeeds, and then by
    [f]: the loop has applied [f] once when it returns, at most once when
    it exits, and not at all while it is retrying. *)
Lemma loop_once (db : DB) (exec : nat -> S -> exec_result S) (f : S -> S)
    tr :
  (forall n s,
     match exec n s with
     | ExecRet (Some _) _ s' => s' = s
     | ExecRet None _ s' => s' = f s
     | ExecExit s' => s' = s
     end) ->
  forall n backoff lastCnt s waits,
  match snd (loop db exec n backoff lastCnt tr s waits) with
  | Return s' => s' = f s
  | Exit s' => s' = s \/ s' = f s
  | Pending s' => s' = s
  end.
Proof.
  intros Hexec. induction tr as [|a tr IH]; intros n backoff lastCnt s waits.
  - reflexivity.
  - cbn [loop]. destruct (isClosed a); [left; reflexivity|].
    specialize (Hexec n s).
    destruct (exec n s) as [err k s'|s']; [|left; exact Hexec].
    destruct (backoff_step backoff lastCnt k) as [w [b2 l2]].
    destruct err as [e|]; subst s'.
    + destruct (pub a); try (left; reflexivity);
        (destruct (IsCorrupted e); [left; reflexivity|]);
        (destruct (GetDisableCompactionBackoff db); [apply IH|]);
        (destruct (wait a); [apply IH|left; reflexivity]).
    + destruct (pub a); try reflexivity. right. reflexivity.
Qed.

Lemma transact_once (db : DB) (exec : nat -> S -> exec_result S)
    (f : S -> S) tr s :
  (forall n s,
     match exec n s with
     | ExecRet (Some _) _ s' => s' = s
     | ExecRet None _ s' => s' = f s
     | ExecExit s' => s' = s
     end) ->
  match snd (compactionTransact db exec None tr s) with
  | Done s' => s' = f s
  | Unwound s' _ => s' = s \/ s' = f s
  | Running s' => s' = s
  end.
Proof.
  intros Hexec. unfold compactionTransact.
  pose proof (loop_once db exec f tr Hexec 0%nat backoffMin 0 s []) as Hl.
  destruct (loop db exec 0 backoffMin 0 tr s []) as [waits e].
  destruct e; exact Hl.
Qed.

Lemma transact_done_once (db : DB) (exec : nat -> S -> exec_result S)
    (f : S -> S) rollback tr s s' :
  (forall n s,
     match exec n s with
     | ExecRet (Some _) _ s' => s' = s
     | ExecRet None _ s' => s' = f s
     | ExecExit s' => s' = s
     end) ->
  snd (compactionTransact db exec rollback tr s) = Done s' ->
  s' = f s.
Proof.
  intros Hexec. unfold compactionTransact.
  pose proof (loop_once db exec f tr Hexec 0%nat backoffMin 0 s []) as Hl.
  destruct (loop db exec 0 backoffMin 0 tr s []) as [waits e].
  destruct e as [s1|s1|s1]; simpl in *.
  - intros [= <-]. exact Hl.
  - destruct rollback as [rb|]; [destruct (rb s1)|]; discriminate.
  - discriminate.
Qed.

(** X3. The transact returns normally only with the state that a call of
    the closure returning nil has left: never after a failed call, and
    never after the rollback has run. *)
Theorem returns_only_after_success (db : DB)
    (exec : nat -> S -> exec_result S) rollback tr s s' :
  snd (compactionTransact db exec rollback tr s) = Done s' ->
  exists m s0 k, (m < length tr)%nat /\ exec m s0 = ExecRet None k s'.
Proof.
  unfold compactionTransact.
  pose proof (loop_return db exec tr 0%nat backoffMin 0 s []) as Hl.
  destruct (loop db exec 0 backoffMin 0 tr s []) as [waits e].
  destruct e as [s1|s1|s1]; simpl in *.
  - intros Hd. injection Hd as <-.
    destruct (Hl s1 eq_refl) as (m & s0 & k & Hm & He).
    exists m, s0, k. split; [lia|exact He].
  - destruct rollback as [rb|]; [destruct (rb s1)|]; discriminate.
  - discriminate.
Qed.

End Facts.
End TransactMore.

(** ** The error state machine, continued *)

Module CompErrMore.
Import CompErr.
Section Facts.
Context `{Leveldb}.

(** What the goroutine holds in [err] at each label. *)
Lemma step_err m ev m' :
  match pc m with
  | noerr => err m = None
  | haserr => exists e, err m = Some e /\ IsCorrupted e = false
  | hasperr => exists e, err m = Some e /\ IsCorrupted e = true
  end ->
  step m ev = Running m' ->
  match pc m' with
  | noerr => err m' = None
  | haserr => exists e, err m' = Some e /\ IsCorrupted e = false
  | hasperr => exists e, err m' = Some e /\ IsCorrupted e = true
  end.
Proof.
  assert (forall e w,
            match pc (Machine (target e) e w) with
            | noerr => err (Machine (target e) e w) = None
            | haserr => exists x, err (Machine (target e) e w) = Some x
                                  /\ IsCorrupted x = false
            | hasperr => exists x, err (Machine (target e) e w) = Some x
                                   /\ IsCorrupted x = true
            end) as Htarget.
  { intros [x|] w; simpl; [|reflexivity].
    destruct (IsCorrupted x) eqn:Hc; simpl; eauto. }
  intros Hinv. unfold step.
  destruct (pc m) eqn:Hpc; destruct ev; intros Hs; inversion Hs; subst;
    try apply Htarget; try (rewrite Hpc; exact Hinv).
  simpl. exact Hinv.
Qed.

Lemma run_err evs : forall m,
  match pc m with
  | noerr => err m = None
  | haserr => exists e, err m = Some e /\ IsCorrupted e = false
  | hasperr => exists e, err m = Some e /\ IsCorrupted e = true
  end ->
  match run m evs with
  | Running m' =>
      match pc m' with
      | noerr => err m' = None
      | haserr => exists e, err m' = Some e /\ IsCorrupted e = false
      | hasperr => exists e, err m' = Some e /\ IsCorrupted e = true
      end
  | Returned _ => True
  | NotOffered => False
  end.
Proof.
  induction evs as [|ev evs IH]; intros m Hinv; simpl; [exact Hinv|].
  destruct (step m ev) as [m1| |] eqn:Hs; [|exact I|apply IH; exact Hinv].
  apply IH. exact (step_err m ev m1 Hinv Hs).
Qed.

(** X4. Whatever has been published to it, the goroutine offers on
    db.compErrC only errors that are not nil, and on db.compPerErrC only
    corruptions: at [noerr] its error is nil, at [haserr] it is an error
    that is not a corruption, at [hasperr] it is a corruption. *)
Theorem offered_errors (evs : list event) :
  match compactionError evs with
  | Running m =>
      match pc m with
      | noerr => err m = None
      | haserr => exists e, err m = Some e /\ IsCorrupted e = false
      | hasperr => exists e, err m = Some e /\ IsCorrupted e = true
      end
  | Returned _ => True
  | NotOffered => False
  end.
Proof. apply run_err. reflexivity. Qed.

Lemma step_lock m ev m' :
  (wlocked m = true -> pc m = hasperr) ->
  step m ev = Running m' ->
  (wlocked m' = true -> pc m' = hasperr)
  /\ (wlocked m' = true -> wlocked m = true \/ ev = SendWriteLock)
  /\ (wlocked m = true -> wlocked m' = true).
Proof.
  intros Hinv. unfold step.
  destruct (pc m) eqn:Hpc; destruct ev; intros Hs; inversion Hs; subst;
    simpl; repeat split; auto; intros Hw;
    try (specialize (Hinv Hw); congruence).
Qed.

Lemma run_lock evs : forall m,
  (wlocked m = true -> pc m = hasperr) ->
  match run m evs with
  | Running m' =>
      (wlocked m' = true -> pc m' = hasperr)
      /\ (wlocked m' = true -> wlocked m = true \/ In SendWriteLock evs)
      /\ (wlocked m = true -> wlocked m' = true)
  | Returned r =>
      (r = true -> wlocked m = true \/ In SendWriteLock evs)
      /\ (wlocked m = true -> r = true)
  | NotOffered => False
  end.
Proof.
  induction evs as [|ev evs IH]; intros m Hinv; simpl.
  - auto.
  - destruct (step m ev) as [m1|r|] eqn:Hs.
    + destruct (step_lock m ev m1 Hinv Hs) as (H1 & H2 & H3).
      specialize (IH m1 H1).
      destruct (run m1 evs) as [m2|r|]; [| |exact IH].
      * destruct IH as (I1 & I2 & I3). repeat split; auto.
        intros Hw. destruct (I2 Hw) as [Hw1|Hin]; [|auto].
        destruct (H2 Hw1) as [Hw0 | ->]; auto.
      * destruct IH as (I1 & I2). split; [|auto].
        intros Hr. destruct (I1 Hr) as [Hw1|Hin]; [|auto].
        destruct (H2 Hw1) as [Hw0 | ->]; auto.
    + unfold step in Hs.
      destruct (pc m) eqn:Hpc; destruct ev; inversion Hs; subst;
        split; auto; intros Hw; try discriminate;
        specialize (Hinv Hw); congruence.
    + specialize (IH m Hinv).
      destruct (run m evs) as [m2|r|]; [| |exact IH].
      * destruct IH as (I1 & I2 & I3). repeat split; auto.
        intros Hw. destruct (I2 Hw); auto.
      * destruct IH as (I1 & I2). split; auto.
        intros Hr. destruct (I1 Hr); auto.
Qed.

(** X5. The goroutine holds the write lock only at [hasperr], and when it
    returns it has drained db.writeLockC only if it had taken the lock by
    sending on it. *)
Theorem write_lock_discipline (evs : list event) :
  match compactionError evs with
  | Running m =>
      (wlocked m = true -> pc m = hasperr)
      /\ (wlocked m = true -> In SendWriteLock evs)
  | Returned r => r = true -> In SendWriteLock evs
  | NotOffered => False
  end.
Proof.
  unfold compactionError.
  pose proof (run_lock evs init ltac:(discriminate)) as Hr.
  destruct (run init evs) as [m|r|]; [| |exact Hr].
  - destruct Hr as (I1 & I2 & _). split; [exact I1|].
    intros Hw. destruct (I2 Hw) as [Hf|Hin]; [discriminate|exact Hin].
  - destruct Hr as (I1 & _). intros Hw.
    destruct (I1 Hw) as [Hf|Hin]; [discriminate|exact Hin].
Qed.

End Facts.
End CompErrMore.

(** ** The full merge, continued *)

Module MergeMore.
Import Merge Obs Inv.

(** Invariants of the output: a property [PB] of the build, with a property
    [PW] of the writer left open between two records and a property [PF] of
    a writer about to be finished, that the table operations keep. *)
Section Preserved.
Context `{Leveldb}.
Variable wd : world.
Variable db : DB.
Variable c : compaction.
Variable PB : build -> Prop.
Variables PW PF : build -> tWriter -> Prop.

Hypothesis PB_rec_sto : forall b b',
  rec b = rec b' -> sto b = sto b' -> PB b -> PB b'.
Hypothesis PW_rec_sto : forall b b' w,
  rec b = rec b' -> sto b = sto b' -> PW b w -> PW b' w.
Hypothesis PB_create : forall b,
  PB b ->
  PB (Build (snap b) (kerrCnt b) (dropCnt b) (rec b)
        (snd (tops_create (sto b)))).
Hypothesis PW_first : forall b ik v,
  PB b ->
  let b1 := Build (snap b) (kerrCnt b) (dropCnt b) (rec b)
              (snd (tops_create (sto b))) in
  let w := tw_append (fst (tops_create (sto b))) ik v in
  PF b1 w /\ (BytesLen (tw_entries w) < tableSize db c -> PW b1 w).
Hypothesis PW_append : forall b w ik v,
  PB b -> PW b w ->
  PF b (tw_append w ik v)
  /\ (BytesLen (tw_entries (tw_append w ik v)) < tableSize db c ->
      PW b (tw_append w ik v)).
Hypothesis PF_open : forall b w, PW b w -> PF b w.
Hypothesis PB_finish : forall b w o b',
  PB b -> PF b w -> finish wd c o w b = inr b' -> PB b'.

Local Abbreviation kept := (Inv.kept PB PW).
Local Abbreviation keeps := (Inv.keeps PB PW).

Lemma keeps_andThen f k :
  keeps f -> (forall s, kept s -> keeps (k s)) -> keeps (andThen f k).
Proof.
  intros Hf Hk. destruct f; simpl in *; auto.
Qed.

Lemma finish_table_kept o w s :
  PB (fst s) -> PF (fst s) w -> keeps (finish_table wd c o w s).
Proof.
  intros Hb Hf. unfold finish_table.
  destruct (finish wd c o w (fst s)) as [e|b'] eqn:E; simpl; [exact Hb|].
  split; [|exact I]. exact (PB_finish _ _ _ _ Hb Hf E).
Qed.

Lemma stopBefore_kept i ik s : kept s -> keeps (stopBefore wd c i ik s).
Proof.
  intros Hk. unfold stopBefore.
  destruct (parseIkey ik); [|exact Hk].
  destruct (shouldStopBefore c ik); [|exact Hk].
  destruct (tw (snd s)) as [w|] eqn:Hw; [|exact Hk].
  destruct Hk as [Hb Hw']. rewrite Hw in Hw'.
  apply finish_table_kept; auto.
Qed.

Lemma takeSnapshot_kept i s : kept s -> keeps (takeSnapshot i s).
Proof.
  intros [Hb Hw]. destruct s as [b [t sched w n]]. unfold takeSnapshot.
  simpl in Hb, Hw |- *.
  destruct sched; simpl; [|split; assumption].
  split; [eapply PB_rec_sto; [| |exact Hb]; reflexivity|].
  destruct w; [|exact I].
  eapply PW_rec_sto; [| |exact Hw]; reflexivity.
Qed.

Lemma classify_kept ik s : kept s -> keeps (classify db c ik s).
Proof.
  intros [Hb Hw]. destruct s as [b [t sched w n]]. unfold classify.
  simpl in Hb, Hw |- *.
  destruct (parseIkey ik) as [uk seq kt|kerr].
  - destruct (dropped db c _ seq kt); simpl.
    + split; [eapply PB_rec_sto; [| |exact Hb]; reflexivity|].
      destruct w; [|exact I].
      eapply PW_rec_sto; [| |exact Hw]; reflexivity.
    + split; [exact Hb|]. destruct w; [exact Hw|exact I].
  - destruct (GetStrict db); simpl; [exact Hb|].
    split; [eapply PB_rec_sto; [| |exact Hb]; reflexivity|].
    destruct w; [|exact I].
    eapply PW_rec_sto; [| |exact Hw]; reflexivity.
Qed.

Lemma append_kept i ik v w s :
  PB (fst s) ->
  PF (fst s) (tw_append w ik v) ->
  (BytesLen (tw_entries (tw_append w ik v)) < tableSize db c ->
   PW (fst s) (tw_append w ik v)) ->
  keeps (append wd db c i ik v w s).
Proof.
  intros Hb Hf Hw. unfold append.
  destruct (fault wd (OpAppend i)); [exact Hb|].
  fold (tableSize db c).
  destruct (tableSize db c <=? BytesLen (tw_entries (tw_append w ik v)))
    eqn:Hsize.
  - apply finish_table_kept; assumption.
  - simpl. split; [exact Hb|]. apply Hw. lia.
Qed.

Lemma withWriter_kept i ik v s :
  kept s -> keeps (withWriter wd i s (append wd db c i ik v)).
Proof.
  intros [Hb Hw]. destruct s as [b lo]. unfold withWriter. simpl in Hb, Hw.
  destruct (tw lo) as [w|] eqn:Etw.
  - destruct (PW_append b w ik v Hb Hw) as [Hf Hw'].
    apply append_kept; assumption.
  - destruct (PW_first b ik v Hb) as [Hf Hw'].
    destruct (pauseAt wd i) as [|[|]|]; try exact Hb;
      (destruct (fault wd (OpCreate i)); [exact Hb|]);
      (apply append_kept; [apply PB_create; exact Hb|exact Hf|exact Hw']).
Qed.

Lemma body_kept i r s : kept s -> keeps (body wd db c i r s).
Proof.
  intros Hk. unfold body, handle.
  apply keeps_andThen; [apply stopBefore_kept; exact Hk|].
  intros s1 H1. apply keeps_andThen; [apply takeSnapshot_kept; exact H1|].
  intros s2 H2. apply keeps_andThen; [apply classify_kept; exact H2|].
  intros s3 H3. apply withWriter_kept; exact H3.
Qed.

Lemma loop_kept rs : forall i s, kept s -> keeps (loop wd db c i rs s).
Proof.
  induction rs as [|r rs IH]; intros i s Hk; [exact Hk|].
  cbn [loop].
  assert (kept (fst s, with_cnt (snd s) (incr (cnt (snd s))))) as Hk1
    by exact Hk.
  destruct (i <? _); [apply IH; exact Hk1|].
  pose proof (body_kept i r _ Hk1) as Hb.
  destruct (body wd db c i r _); simpl in Hb; auto.
Qed.

Lemma exec_kept b : PB b -> PB (build_of (exec db c wd b)).
Proof.
  intros Hb. unfold exec, finishRun.
  assert (kept (enter b)) as Hk.
  { split; [|exact I]. eapply PB_rec_sto; [| |exact Hb]; reflexivity. }
  pose proof (loop_kept (yielded wd c) 0 (enter b) Hk) as Hl.
  assert (forall s, kept s -> PB (build_of (conclude wd c s))) as Hc.
  { intros s [Hsb Hsw]. unfold conclude.
    destruct (iterError wd); [exact Hsb|].
    destruct (tw (snd s)) as [w|]; [|exact Hsb].
    destruct (empty w); [exact Hsb|].
    destruct (finish wd c OpFinishLast w (fst s)) as [e|b'] eqn:E;
      [exact Hsb|].
    simpl. exact (PB_finish _ _ _ _ Hsb (PF_open _ _ Hsw) E). }
  destruct (loop wd db c 0 (yielded wd c) (enter b)); simpl in Hl; auto.
Qed.

End Preserved.

Section Tables.
Context `{Leveldb}.
Variable db : DB.
Variable c : compaction.

Lemma staged_after_finish wd o w b b' :
  finish wd c o w b = inr b' ->
  addedTables (rec b')
  = addedTables (rec b)
    ++ [(wrap_int (c_level c + 1), TFile (tw_num w) (tw_entries w))]
  /\ compPtrs (rec b') = compPtrs (rec b)
  /\ deletedTables (rec b') = deletedTables (rec b)
  /\ sto b' = Store (nextFileNum (sto b)) ({[ tw_num w ]} ∪ disk (sto b))
              (sess (sto b)).
Proof.
  unfold finish. destruct (fault wd o); [discriminate|].
  intros [= <-]. simpl. auto.
Qed.

(** A call of the closure keeps the staged tables cut in time. *)
Lemma exec_cut_in_time wd b :
  tables_cut_in_time db c b ->
  tables_cut_in_time db c (build_of (exec db c wd b)).
Proof.
  apply (exec_kept wd db c (tables_cut_in_time db c)
           (fun _ w => cut_in_time db c (tw_entries w)
                       /\ BytesLen (tw_entries w) < tableSize db c)
           (fun _ w => cut_in_time db c (tw_entries w))).
  - intros b1 b2 Hr _. unfold tables_cut_in_time, staged. now rewrite Hr.
  - intros b1 b2 w _ _ Hw. exact Hw.
  - intros b1 Hb. exact Hb.
  - intros b1 ik v _. simpl.
    assert (cut_in_time db c ([] ++ [(ik, v)])) as Hcut
      by (exists [], (ik, v); auto).
    split; [exact Hcut|]. intros Hlt. split; [exact Hcut|exact Hlt].
  - intros b1 w ik v _ [_ Hlt]. simpl.
    assert (cut_in_time db c (tw_entries w ++ [(ik, v)])) as Hcut
      by (exists (tw_entries w), (ik, v); auto).
    split; [exact Hcut|]. intros Hlt'. split; [exact Hcut|exact Hlt'].
  - intros b1 w [Hcut _]. exact Hcut.
  - intros b1 w o b2 Hb Hcut Hfin.
    destruct (staged_after_finish _ _ _ _ _ Hfin) as (Ha & _).
    unfold tables_cut_in_time, staged. rewrite Ha, map_app.
    apply Forall_app. split; [exact Hb|].
    constructor; [exact Hcut|constructor].
Qed.

(** A call of the closure keeps the staged tables distinct files, numbered
    from [n0] on, that are on disk. *)
Lemma exec_fresh_files n0 wd b :
  fresh_files n0 b -> fresh_files n0 (build_of (exec db c wd b)).
Proof.
  set (PW := fun (b : build) (w : tWriter) =>
               (n0 <= tw_num w < nextFileNum (sto b))%N
               /\ tw_num w ∉ staged_nums b).
  apply (exec_kept wd db c (fresh_files n0) PW PW).
  - intros b1 b2 Hr Hs. unfold fresh_files, staged_nums.
    now rewrite Hr, Hs.
  - intros b1 b2 w Hr Hs. unfold PW, staged_nums. now rewrite Hr, Hs.
  - intros b1 (Hnd & Hle & Hin). unfold fresh_files, staged_nums in *.
    simpl. split; [exact Hnd|]. split; [lia|].
    intros n Hn. destruct (Hin n Hn) as [Hb Hd]. split; [lia|exact Hd].
  - intros b1 ik v (Hnd & Hle & Hin).
    assert (PW (Build (snap b1) (kerrCnt b1) (dropCnt b1) (rec b1)
                  (snd (tops_create (sto b1))))
               (tw_append (fst (tops_create (sto b1))) ik v)) as Hw.
    { unfold PW, staged_nums. simpl. split; [lia|].
      intros Hn. destruct (Hin _ Hn) as [Hb _]. lia. }
    simpl. split; [exact Hw|]. intros _. exact Hw.
  - intros b1 w ik v _ Hw. split; [exact Hw|]. intros _. exact Hw.
  - intros b1 w Hw. exact Hw.
  - intros b1 w o b2 (Hnd & Hle & Hin) [Hb Hnotin] Hfin.
    destruct (staged_after_finish _ _ _ _ _ Hfin) as (Ha & _ & _ & Hs).
    unfold fresh_files, staged_nums in *. rewrite Ha, Hs, map_app. simpl.
    split; [|split; [exact Hle|]].
    + apply NoDup_app. split; [exact Hnd|]. split.
      * intros n Hn Hn'. apply list_elem_of_singleton in Hn'. subst n.
        exact (Hnotin Hn).
      * apply NoDup_singleton.
    + intros n Hn. apply elem_of_app in Hn. destruct Hn as [Hn|Hn].
      * destruct (Hin n Hn) as [Hb' Hd]. split; [exact Hb'|].
        apply elem_of_union. right. exact Hd.
      * apply list_elem_of_singleton in Hn. subst n. split; [exact Hb|].
        apply elem_of_union. left. apply elem_of_singleton. reflexivity.
Qed.

(** A call of the closure changes the record only by adding tables at the
    target level, and leaves the session alone. *)
Lemma exec_merge_record cp dt ss wd b :
  merge_record c cp dt ss b ->
  merge_record c cp dt ss (build_of (exec db c wd b)).
Proof.
  apply (exec_kept wd db c (merge_record c cp dt ss)
           (fun _ _ => True) (fun _ _ => True)); auto.
  - intros b1 b2 Hr Hs. unfold merge_record. now rewrite Hr, Hs.
  - intros b1 w o b2 (Hc & Hd & Hs & Ha) _ Hfin.
    destruct (staged_after_finish _ _ _ _ _ Hfin) as (Ea & Ec & Ed & Es).
    unfold merge_record. rewrite Ea, Ec, Ed, Es. simpl.
    repeat split; try assumption.
    apply Forall_app. split; [exact Ha|]. constructor; [reflexivity|constructor].
Qed.

(** A call of the closure leaves the session alone. *)
Lemma exec_sess wd b : sess (sto (build_of (exec db c wd b))) = sess (sto b).
Proof.
  apply (exec_kept wd db c (fun b' => sess (sto b') = sess (sto b))
           (fun _ _ => True) (fun _ _ => True)); auto.
  - intros b1 b2 _ Hs. now rewrite Hs.
  - intros b1 w o b2 Hs _ Hfin.
    destruct (staged_after_finish _ _ _ _ _ Hfin) as (_ & _ & _ & Es).
    rewrite Es. exact Hs.
Qed.

End Tables.

(** What a call appends to the output, and what it counts. *)
Section Output.
Context `{Leveldb}.
Variable wd : world.
Variable db : DB.
Variable c : compaction.

Lemma grows_refl s : grows s s [].
Proof.
  split; [exists []|]; now rewrite app_nil_r.
Qed.

Lemma grows_same s s' :
  rec (fst s') = rec (fst s) -> tw (snd s') = tw (snd s) -> grows s s' [].
Proof.
  intros Hr Hw. unfold grows, output, staged. rewrite Hr, Hw.
  split; [exists []|]; now rewrite app_nil_r.
Qed.

Lemma grows_trans s1 s2 s3 l1 l2 :
  grows s1 s2 l1 -> grows s2 s3 l2 -> grows s1 s3 (l1 ++ l2).
Proof.
  intros [[m1 H1] O1] [[m2 H2] O2]. split.
  - exists (m1 ++ m2). now rewrite H2, H1, app_assoc.
  - now rewrite O2, O1, app_assoc.
Qed.

Lemma still_refl i s : still i s s.
Proof.
  split; [apply grows_refl|]. auto.
Qed.

Lemma still_trans i s1 s2 s3 : still i s1 s2 -> still i s2 s3 -> still i s1 s3.
Proof.
  intros (G1 & D1 & C1 & I1) (G2 & D2 & C2 & I2).
  split; [exact (grows_trans _ _ _ _ _ G1 G2)|].
  split; [congruence|]. split; [congruence|].
  destruct I2 as [I2|I2]; [|auto].
  rewrite I2. exact I1.
Qed.

Lemma finish_table_still i o w s :
  tw (snd s) = Some w ->
  match finish_table wd c o w s with
  | Go s' => still i s s' /\ snap (fst s') = snap (fst s)
  | Fail _ s' => s' = s
  | _ => False
  end.
Proof.
  intros Hw. unfold finish_table.
  destruct (finish wd c o w (fst s)) as [e|b'] eqn:E; [reflexivity|].
  destruct (staged_after_finish c _ _ _ _ _ E) as (Ha & _).
  unfold finish in E. destruct (fault wd o); [discriminate|].
  injection E as <-.
  unfold still, grows, output, staged in *. simpl in *. rewrite Hw.
  split; [|reflexivity]. split; [|auto].
  rewrite map_app, concat_app. simpl. rewrite !app_nil_r.
  split; [eexists; reflexivity|reflexivity].
Qed.

Lemma stopBefore_still i ik s :
  match stopBefore wd c i ik s with
  | Go s' => still i s s'
  | Fail _ s' => s' = s
  | _ => False
  end.
Proof.
  unfold stopBefore.
  destruct (parseIkey ik); [|apply still_refl].
  destruct (shouldStopBefore c ik); [|apply still_refl].
  destruct (tw (snd s)) as [w|] eqn:Hw; [|apply still_refl].
  pose proof (finish_table_still i (OpFinishStop i) w s Hw) as Hf.
  destruct (finish_table wd c (OpFinishStop i) w s); try exact Hf.
  apply Hf.
Qed.

Lemma takeSnapshot_still i s :
  exists s', takeSnapshot i s = Go s' /\ still i s s'.
Proof.
  destruct s as [b [t sched w n]]. unfold takeSnapshot. simpl.
  destruct sched; eexists; (split; [reflexivity|]); [|apply still_refl].
  split; [apply grows_same; reflexivity|]. simpl. auto.
Qed.

Lemma classify_effect i ik s :
  match classify db c ik s with
  | Go s' => still i s s'
  | Skip s' =>
      grows s s' []
      /\ dropCnt (fst s') = incr (dropCnt (fst s))
      /\ cnt (snd s') = cnt (snd s)
      /\ snapIter (snap (fst s')) = snapIter (snap (fst s))
  | Fail _ s' => s' = s
  | Unwind _ => False
  end.
Proof.
  destruct s as [b [t sched w n]]. unfold classify. simpl.
  destruct (parseIkey ik) as [uk seq kt|kerr].
  - destruct (dropped db c _ seq kt).
    + split; [apply grows_same; reflexivity|]. simpl. auto.
    + split; [apply grows_same; reflexivity|]. simpl. auto.
  - destruct (GetStrict db); [reflexivity|].
    split; [apply grows_same; reflexivity|]. simpl. auto.
Qed.

Lemma append_effect i ik v w s :
  tw (snd s) = Some w ->
  match append wd db c i ik v w s with
  | Go s' =>
      grows s s' [(ik, v)]
      /\ dropCnt (fst s') = dropCnt (fst s)
      /\ cnt (snd s') = cnt (snd s)
      /\ snapIter (snap (fst s')) = snapIter (snap (fst s))
  | Fail _ s' =>
      (grows s s' [] \/ grows s s' [(ik, v)]) /\ cnt (snd s') = cnt (snd s)
  | _ => False
  end.
Proof.
  intros Hw. unfold append.
  destruct (fault wd (OpAppend i)); [split; [left; apply grows_refl|auto]|].
  set (s1 := (fst s, with_tw (snd s) (Some (tw_append w ik v)))).
  assert (grows s s1 [(ik, v)]) as Hg.
  { unfold grows, output. simpl. rewrite Hw. split.
    - exists []. now rewrite app_nil_r.
    - now rewrite app_assoc. }
  destruct (_ <=? _).
  - pose proof (finish_table_still i (OpFinishSize i) (tw_append w ik v) s1
                  eq_refl) as Hf.
    destruct (finish_table wd c (OpFinishSize i) (tw_append w ik v) s1)
      as [s2|s2|e s2|s2]; try contradiction.
    + destruct Hf as ((G & D & C & _) & Hsn). split.
      * pose proof (grows_trans _ _ _ _ _ Hg G) as Hg'.
        simpl in Hg'. exact Hg'.
      * split; [exact D|]. split; [exact C|]. rewrite Hsn. reflexivity.
    + subst s2. split; [right; exact Hg|reflexivity].
  - split; [exact Hg|]. auto.
Qed.

Lemma withWriter_effect i ik v s :
  match withWriter wd i s (append wd db c i ik v) with
  | Go s' =>
      grows s s' [(ik, v)]
      /\ dropCnt (fst s') = dropCnt (fst s)
      /\ cnt (snd s') = cnt (snd s)
      /\ snapIter (snap (fst s')) = snapIter (snap (fst s))
  | Fail _ s' | Unwind s' =>
      (grows s s' [] \/ grows s s' [(ik, v)]) /\ cnt (snd s') = cnt (snd s)
  | Skip _ => False
  end.
Proof.
  destruct s as [b lo]. unfold withWriter.
  destruct (tw lo) as [w|] eqn:Hw.
  - pose proof (append_effect i ik v w (b, lo) Hw) as Ha.
    destruct (append wd db c i ik v w (b, lo)); try contradiction;
      exact Ha.
  - set (s1 := (Build (snap b) (kerrCnt b) (dropCnt b) (rec b)
                  (snd (tops_create (sto b))),
                with_tw lo (Some (fst (tops_create (sto b)))))).
    assert (grows (b, lo) s1 []) as Hg.
    { unfold grows, output, staged, s1. simpl. rewrite Hw.
      split; [exists []|]; now rewrite ?app_nil_r. }
    assert (match append wd db c i ik v (fst (tops_create (sto b))) s1 with
            | Go s' =>
                grows (b, lo) s' [(ik, v)]
                /\ dropCnt (fst s') = dropCnt b
                /\ cnt (snd s') = cnt lo
                /\ snapIter (snap (fst s')) = snapIter (snap b)
            | Fail _ s' | Unwind s' =>
                (grows (b, lo) s' [] \/ grows (b, lo) s' [(ik, v)])
                /\ cnt (snd s') = cnt lo
            | Skip _ => False
            end) as Hk.
    { pose proof (append_effect i ik v (fst (tops_create (sto b))) s1
                    eq_refl) as Ha.
      destruct (append wd db c i ik v (fst (tops_create (sto b))) s1)
        as [s2|s2|e s2|s2]; try contradiction.
      - destruct Ha as (G & D & C & Sn).
        split; [exact (grows_trans _ _ _ _ _ Hg G)|]. auto.
      - destruct Ha as ([G|G] & C); (split; [|exact C]).
        + left. exact (grows_trans _ _ _ _ _ Hg G).
        + right. exact (grows_trans _ _ _ _ _ Hg G). }
    destruct (pauseAt wd i) as [|[|]|];
      try (split; [left; apply grows_refl|reflexivity]);
      (destruct (fault wd (OpCreate i));
       [split; [left; apply grows_refl|reflexivity]|exact Hk]).
Qed.

Lemma body_handled i r s : handled i r s (body wd db c i r s).
Proof.
  unfold body, handle. destruct r as [ik v]. simpl fst. simpl snd.
  pose proof (stopBefore_still i ik s) as H1.
  destruct (stopBefore wd c i ik s) as [s1|s1|e s1|s1]; try contradiction;
    [|subst s1; simpl; split; [left; apply grows_refl|reflexivity]].
  cbn [andThen].
  destruct (takeSnapshot_still i s1) as (s2 & -> & H2).
  cbn [andThen].
  pose proof (still_trans _ _ _ _ H1 H2) as H12.
  pose proof (classify_effect i ik s2) as H3.
  destruct (classify db c ik s2) as [s3|s3|e s3|s3]; try contradiction;
    cbn [andThen].
  - pose proof (still_trans _ _ _ _ H12 H3) as (G & D & C & Sn).
    pose proof (withWriter_effect i ik v s3) as H4.
    destruct (withWriter wd i s3 (append wd db c i ik v))
      as [s4|s4|e s4|s4]; try contradiction; simpl.
    + destruct H4 as (G4 & D4 & C4 & Sn4).
      split; [exact (grows_trans _ _ _ _ _ G G4)|].
      split; [congruence|]. split; [congruence|]. rewrite Sn4. exact Sn.
    + destruct H4 as ([G4|G4] & C4); (split; [|congruence]).
      * left. exact (grows_trans _ _ _ _ _ G G4).
      * right. exact (grows_trans _ _ _ _ _ G G4).
    + destruct H4 as ([G4|G4] & C4); (split; [|congruence]).
      * left. exact (grows_trans _ _ _ _ _ G G4).
      * right. exact (grows_trans _ _ _ _ _ G G4).
  - destruct H12 as (G & D & C & Sn). destruct H3 as (G3 & D3 & C3 & Sn3).
    simpl. split; [exact (grows_trans _ _ _ _ _ G G3)|].
    split; [congruence|]. split; [congruence|]. rewrite Sn3. exact Sn.
  - subst s3. destruct H12 as (G & D & C & Sn). simpl.
    split; [left; exact G|exact C].
Qed.

Lemma loop_grows rs : forall i s,
  exists l, grows s (state_of (loop wd db c i rs s)) l /\ l `sublist_of` rs.
Proof.
  induction rs as [|r rs IH]; intros i s.
  - exists []. split; [apply grows_refl|constructor].
  - cbn [loop].
    set (s1 := (fst s, with_cnt (snd s) (incr (cnt (snd s))))).
    assert (grows s s1 []) as G1 by (apply grows_same; reflexivity).
    destruct (i <? _).
    + destruct (IH (incr i) s1) as (l & G & Hl).
      exists l. split; [exact (grows_trans _ _ _ _ _ G1 G)|].
      apply sublist_cons. exact Hl.
    + pose proof (body_handled i r s1) as Hb.
      destruct (body wd db c i r s1) as [s2|s2|e s2|s2]; simpl in Hb.
      * destruct Hb as (G2 & _). destruct (IH (incr i) s2) as (l & G & Hl).
        exists (r :: l). split.
        -- exact (grows_trans _ _ _ _ _ G1 (grows_trans _ _ _ _ _ G2 G)).
        -- apply sublist_skip. exact Hl.
      * destruct Hb as (G2 & _). destruct (IH (incr i) s2) as (l & G & Hl).
        exists l. split.
        -- exact (grows_trans _ _ _ _ _ G1 (grows_trans _ _ _ _ _ G2 G)).
        -- apply sublist_cons. exact Hl.
      * destruct Hb as ([G2|G2] & _).
        -- exists []. split; [exact (grows_trans _ _ _ _ _ G1 G2)|].
           apply sublist_nil_l.
        -- exists [r]. split; [exact (grows_trans _ _ _ _ _ G1 G2)|].
           apply sublist_skip, sublist_nil_l.
      * destruct Hb as ([G2|G2] & _).
        -- exists []. split; [exact (grows_trans _ _ _ _ _ G1 G2)|].
           apply sublist_nil_l.
        -- exists [r]. split; [exact (grows_trans _ _ _ _ _ G1 G2)|].
           apply sublist_skip, sublist_nil_l.
Qed.

Lemma grows_staged s s' l :
  grows s s' l -> tw (snd s) = None ->
  exists more, staged (fst s') = staged (fst s) ++ more
    /\ exists rest, l = concat more ++ rest
       /\ rest = match tw (snd s') with
                 | Some w => tw_entries w
                 | None => []
                 end.
Proof.
  intros [[more Hm] Ho] Hw. exists more. split; [exact Hm|].
  unfold output in Ho. rewrite Hw, Hm, concat_app, app_nil_r in Ho.
  rewrite <- app_assoc in Ho. apply app_inv_head in Ho.
  eexists. split; [symmetry; exact Ho|reflexivity].
Qed.

Lemma yielded_sublist : yielded wd c `sublist_of` newIterator c.
Proof.
  unfold yielded. destruct (iterErr wd) as [[p e]|]; [|reflexivity].
  apply sublist_take.
Qed.

Lemma incr_by_in_range n : forall x,
  - 2 ^ 63 <= x -> x + Z.of_nat n < 2 ^ 63 -> incr_by n x = x + Z.of_nat n.
Proof.
  induction n as [|n IH]; intros x Hl Hu; simpl incr_by.
  - lia.
  - rewrite (MergeFacts.incr_in_range x) by lia. rewrite IH by lia. lia.
Qed.

(** From the snapshot position on, every record is appended or counted as
    dropped, and all are counted by the transact counter. *)
Lemma loop_counts rs : forall i s s',
  0 <= i -> snapIter (snap (fst s)) <= i ->
  i + Z.of_nat (length rs) < 2 ^ 63 ->
  - 2 ^ 63 <= dropCnt (fst s) ->
  dropCnt (fst s) + Z.of_nat (length rs) < 2 ^ 63 ->
  - 2 ^ 63 <= cnt (snd s) ->
  cnt (snd s) + Z.of_nat (length rs) < 2 ^ 63 ->
  loop wd db c i rs s = Go s' ->
  cnt (snd s') = cnt (snd s) + Z.of_nat (length rs)
  /\ Z.of_nat (length (output s')) + dropCnt (fst s')
     = Z.of_nat (length (output s)) + dropCnt (fst s)
       + Z.of_nat (length rs).
Proof.
  induction rs as [|r rs IH]; intros i s s' Hi Hsn Hir Hd Hdr Hc Hcr.
  - intros [= <-]. simpl. lia.
  - cbn [loop]. simpl length in *.
    set (s1 := (fst s, with_cnt (snd s) (incr (cnt (snd s))))).
    assert ((i <? snapIter (snap (fst s1))) = false) as -> by (simpl; lia).
    assert (incr i = i + 1) as -> by (apply MergeFacts.incr_in_range; lia).
    assert (cnt (snd s1) = cnt (snd s) + 1) as Hc1
      by (simpl; apply MergeFacts.incr_in_range; lia).
    assert (output s1 = output s) as Ho1 by reflexivity.
    assert (dropCnt (fst s1) = dropCnt (fst s)) as Hd1 by reflexivity.
    pose proof (body_handled i r s1) as Hb.
    destruct (body wd db c i r s1) as [s2|s2|e s2|s2]; unfold handled in Hb;
      try discriminate.
    + destruct Hb as ([_ Ho] & D & C & Sn). intros Hl.
      assert (snapIter (snap (fst s2)) <= i + 1) as Sn2
        by (destruct Sn as [Sn|Sn]; rewrite Sn; simpl; lia).
      rewrite Hd1 in D.
      destruct (IH (i + 1) s2 s' ltac:(lia) Sn2 ltac:(lia) ltac:(lia)
                  ltac:(lia) ltac:(lia) ltac:(lia) Hl) as [Hc' Hn].
      rewrite Ho, length_app, Ho1 in Hn. simpl in Hn. lia.
    + destruct Hb as ([_ Ho] & D & C & Sn). intros Hl.
      assert (dropCnt (fst s2) = dropCnt (fst s) + 1) as D'.
      { rewrite D, Hd1. apply MergeFacts.incr_in_range; lia. }
      assert (snapIter (snap (fst s2)) <= i + 1) as Sn2
        by (destruct Sn as [Sn|Sn]; rewrite Sn; simpl; lia).
      destruct (IH (i + 1) s2 s' ltac:(lia) Sn2 ltac:(lia) ltac:(lia)
                  ltac:(lia) ltac:(lia) ltac:(lia) Hl) as [Hc' Hn].
      rewrite Ho, app_nil_r, Ho1 in Hn. lia.
Qed.

(** X6. A call of the build closure keeps the tables staged before it and
    stages after them only records that the iterator yielded, in the order
    in which it yielded them, each at most once. *)
Theorem call_stages_yielded_records b :
  exists more,
    staged (build_of (exec db c wd b)) = staged b ++ more
    /\ concat more `sublist_of` newIterator c.
Proof.
  unfold exec, finishRun.
  destruct (loop_grows (yielded wd c) 0 (enter b)) as (l & G & Hl).
  destruct (grows_staged _ _ _ G eq_refl) as (more & Hm & rest & -> & Hr).
  assert (concat more `sublist_of` newIterator c) as Hsub.
  { etransitivity; [|exact yielded_sublist].
    etransitivity; [|exact Hl]. apply sublist_inserts_r. reflexivity. }
  assert (staged (fst (enter b)) = staged b) as He by reflexivity.
  rewrite He in Hm.
  assert (forall s', state_of (loop wd db c 0 (yielded wd c) (enter b)) = s' ->
            exists more0,
              staged (build_of (conclude wd c s')) = staged b ++ more0
              /\ concat more0 `sublist_of` newIterator c) as Hcon.
  { intros s' Hs'. rewrite Hs' in *. unfold conclude.
    destruct (iterError wd); [exists more; auto|].
    destruct (tw (snd s')) as [w|]; [|exists more; auto].
    destruct (empty w); [exists more; auto|].
    destruct (finish wd c OpFinishLast w (fst s')) as [e|b'] eqn:E;
      [exists more; auto|].
    destruct (staged_after_finish c _ _ _ _ _ E) as (Ha & _).
    exists (more ++ [tw_entries w]). simpl. split.
    - unfold staged in *. rewrite Ha, map_app, Hm, app_assoc. reflexivity.
    - rewrite concat_app. simpl. rewrite app_nil_r.
      etransitivity; [|exact yielded_sublist].
      subst rest. exact Hl. }
  destruct (loop wd db c 0 (yielded wd c) (enter b)) as [s'|s'|e s'|s'];
    simpl in *.
  - apply Hcon. reflexivity.
  - apply Hcon. reflexivity.
  - exists more. auto.
  - exists more. auto.
Qed.

Lemma loop_not_skip rs : forall i s s', loop wd db c i rs s <> Skip s'.
Proof.
  induction rs as [|r rs IH]; intros i s s'; [discriminate|].
  cbn [loop]. destruct (i <? _); [apply IH|].
  destruct (body wd db c i r _); try apply IH; discriminate.
Qed.

(** X7. A call of the build closure that returns nil has consumed every
    record of the iterator, which is what the transact counter says, and
    has appended to the staged tables or counted as dropped each record
    from the snapshot position on: none is lost without being counted. *)
Theorem every_record_staged_or_dropped b k b' :
  0 <= snapIter (snap b) <= Z.of_nat (length (newIterator c)) ->
  0 <= snapDropCnt (snap b) ->
  snapDropCnt (snap b) + Z.of_nat (length (newIterator c)) < 2 ^ 63 ->
  exec db c wd b = Transact.ExecRet None k b' ->
  k = Z.of_nat (length (newIterator c))
  /\ Z.of_nat (length (concat (staged b'))) + dropCnt b'
     = Z.of_nat (length (concat (staged b))) + snapDropCnt (snap b)
       + (Z.of_nat (length (newIterator c)) - snapIter (snap b)).
Proof.
  intros Hk Hd Hn. unfold exec, finishRun.
  destruct (iterErr wd) as [[p e]|] eqn:Hie.
  { unfold conclude, iterError. rewrite Hie.
    destruct (loop wd db c 0 (yielded wd c) (enter b)); discriminate. }
  unfold yielded. rewrite Hie.
  set (rs := newIterator c) in *.
  set (k0 := Z.to_nat (snapIter (snap b))).
  assert (length (take k0 rs) = k0) as Hlen
    by (rewrite length_take; lia).
  rewrite <- (take_drop k0 rs) at 1.
  rewrite (RetryFacts.loop_skips db c wd (take k0 rs) 0 (enter b)
             (drop k0 rs)) by (simpl; lia).
  rewrite Hlen.
  set (s1 := (fst (enter b),
              with_cnt (snd (enter b))
                (incr_by k0 (cnt (snd (enter b)))))).
  assert (cnt (snd s1) = Z.of_nat k0) as Hc1.
  { simpl. rewrite incr_by_in_range; lia. }
  assert (length (drop k0 rs) = (length rs - k0)%nat) as Hdrop
    by apply length_drop.
  pose proof (loop_counts (drop k0 rs) (0 + Z.of_nat k0) s1) as Hl.
  pose proof (loop_not_skip (drop k0 rs) (0 + Z.of_nat k0) s1) as Hns.
  destruct (loop wd db c (0 + Z.of_nat k0) (drop k0 rs) s1)
    as [s'|s'|e s'|s']; try discriminate; [|exfalso; exact (Hns s' eq_refl)].
  assert (dropCnt (fst s1) = snapDropCnt (snap b)) as Hd1 by reflexivity.
  assert (snapIter (snap (fst s1)) = snapIter (snap b)) as Hs1
    by reflexivity.
  destruct (Hl s') as [Hc Ho]; try rewrite Hd1; try rewrite Hs1;
    try rewrite Hc1; try rewrite Hdrop; try lia; try reflexivity.
  assert (output s1 = concat (staged b)) as Ho1
    by (unfold output; simpl; apply app_nil_r).
  rewrite Ho1, Hd1, Hdrop in Ho. rewrite Hc1, Hdrop in Hc.
  unfold conclude, iterError. rewrite Hie.
  unfold output in Ho.
  destruct (tw (snd s')) as [w|].
  - destruct (empty w) eqn:He.
    + intros [= <- <-]. split; [lia|].
      unfold empty in He. destruct (tw_entries w); [|discriminate].
      rewrite app_nil_r in Ho. lia.
    + destruct (finish wd c OpFinishLast w (fst s')) as [e|b2] eqn:E;
        [discriminate|].
      intros [= <- <-]. split; [lia|].
      destruct (staged_after_finish c _ _ _ _ _ E) as (Ha & _).
      unfold finish in E. destruct (fault wd OpFinishLast); [discriminate|].
      injection E as <-. unfold staged in *. simpl in *.
      rewrite map_app, concat_app. simpl. rewrite app_nil_r. lia.
  - intros [= <- <-]. split; [lia|]. rewrite app_nil_r in Ho. lia.
Qed.

End Output.

End MergeMore.

(** ** [tableCompaction], continued *)

Module CompactionMore.
Import Merge Compaction Obs Inv.

Section Facts.
Context `{Leveldb}.
Variable db : DB.
Variable c : compaction.

Local Abbreviation rec0 :=
  (addCompPtr (c_level c) (c_imax c) (SessionRecord [] [] [])).

Lemma foldl_delTable (l : Z) ts : forall r,
  compPtrs (foldl (fun r t => delTable l (file_num t) r) r ts) = compPtrs r
  /\ addedTables (foldl (fun r t => delTable l (file_num t) r) r ts)
     = addedTables r
  /\ deletedTables (foldl (fun r t => delTable l (file_num t) r) r ts)
     = deletedTables r ++ map (fun t => (l, file_num t)) ts.
Proof.
  induction ts as [|t ts IH]; intros r; simpl.
  - rewrite app_nil_r. auto.
  - destruct (IH (delTable l (file_num t) r)) as (Hc & Ha & Hd).
    rewrite Hc, Ha, Hd. simpl. rewrite <- app_assoc. auto.
Qed.

Lemma delInputs_spec r :
  compPtrs (delInputs c r) = compPtrs r
  /\ addedTables (delInputs c r) = addedTables r
  /\ deletedTables (delInputs c r) = deletedTables r ++ inputs c.
Proof.
  unfold delInputs, inputs.
  destruct (foldl_delTable (wrap_int (c_level c + 0)) (fst (c_tables c)) r)
    as (Hc & Ha & Hd).
  destruct (foldl_delTable (wrap_int (c_level c + 1)) (snd (c_tables c))
              (foldl (fun r t =>
                        delTable (wrap_int (c_level c + 0)) (file_num t) r)
                 r (fst (c_tables c)))) as (Hc' & Ha' & Hd').
  rewrite Hc', Ha', Hd', Hc, Ha, Hd, app_assoc. auto.
Qed.

Lemma commit_exec_once fails n b :
  match commit_exec fails n b with
  | Transact.ExecRet (Some _) _ b' => b' = b
  | Transact.ExecRet None _ b' => b' = committed b
  | Transact.ExecExit b' => b' = b
  end.
Proof.
  unfold commit_exec. destruct (fails n); reflexivity.
Qed.

(** A full merge that returned: whatever the calls of the closure keep
    holds of the build the closure left, which was then committed. *)
Lemma full_merge_done (P : build -> Prop) noTrivial w s b :
  (forall wd b, P b -> P (build_of (exec db c wd b))) ->
  P (fresh (delInputs c rec0) s) ->
  tableCompaction db c noTrivial w s = TcDone FullMerge b ->
  exists b1, P b1 /\ b = committed b1.
Proof.
  intros Hexec H0. unfold tableCompaction.
  destruct (negb noTrivial && trivial c).
  { destruct (fst (c_tables c)); [discriminate|].
    destruct (snd (Transact.compactionTransact _ _ _ _ _)); discriminate. }
  destruct (snd (Transact.compactionTransact db
                   (fun n => exec db c (build_world w n)) _ _ _))
    as [b1| |] eqn:Hb; try discriminate.
  pose proof (TransactMore.transact_once db (commit_exec (commit_fault w))
                committed (commit_trace w) b1
                (commit_exec_once (commit_fault w))) as Hc.
  destruct (snd (Transact.compactionTransact db (commit_exec _) _ _ _))
    as [b2| |]; try discriminate.
  intros [= <-]. subst b2. exists b1. split; [|reflexivity].
  destruct (TransactMore.transact_done_from db _ P _ _ _ _
              (fun n s0 e k s1 Hs0 Hx =>
                 eq_ind _ (fun r => P (build_of r)) (Hexec _ _ Hs0) _ Hx)
              H0 Hb) as (m & b0 & k & Hb0 & Hx).
  pose proof (Hexec (build_world w m) b0 Hb0) as Hb1.
  rewrite Hx in Hb1. exact Hb1.
Qed.

Lemma full_merge_invariant (P : build -> Prop) noTrivial w s b :
  (forall wd b, P b -> P (build_of (exec db c wd b))) ->
  (forall b ss, P b -> P (with_sess b ss)) ->
  P (fresh (delInputs c rec0) s) ->
  tableCompaction db c noTrivial w s = TcDone FullMerge b ->
  P b.
Proof.
  intros Hexec Hsess H0 Hd.
  destruct (full_merge_done P _ _ _ _ Hexec H0 Hd) as (b1 & Hb1 & ->).
  apply Hsess. exact Hb1.
Qed.

(** X8. The tables a full merge commits are cut in time: each one is not
    empty, and before its last record it was empty or smaller than the
    table size of the target level.  No record is appended to a table that
    has reached the size. *)
Theorem merged_tables_cut_in_time noTrivial w s b :
  tableCompaction db c noTrivial w s = TcDone FullMerge b ->
  Forall (fun es => exists es' e, es = es' ++ [e]
            /\ (es' = [] \/ BytesLen es' < tableSize db c))
    (staged b).
Proof.
  apply (full_merge_invariant (tables_cut_in_time db c)).
  - intros wd b0. apply MergeMore.exec_cut_in_time.
  - intros b0 ss Hb0. exact Hb0.
  - unfold tables_cut_in_time, staged, fresh. simpl.
    destruct (delInputs_spec rec0) as (_ & -> & _). constructor.
Qed.

(** X9. The tables a full merge commits are files of their own: their
    numbers are pairwise distinct, none was in use when the compaction
    started, and every one is on disk. *)
Theorem merged_tables_are_new_files noTrivial w s b :
  tableCompaction db c noTrivial w s = TcDone FullMerge b ->
  NoDup (staged_nums b)
  /\ forall n, n ∈ staged_nums b ->
       (nextFileNum s <= n < nextFileNum (sto b))%N /\ n ∈ disk (sto b).
Proof.
  intros Hd.
  assert (fresh_files (nextFileNum s) b) as (Hnd & _ & Hin).
  { revert Hd. apply (full_merge_invariant (fresh_files (nextFileNum s))).
    - intros wd b0. apply MergeMore.exec_fresh_files.
    - intros b0 ss Hb0. exact Hb0.
    - unfold fresh_files, staged_nums, fresh. simpl.
      destruct (delInputs_spec rec0) as (_ & -> & _). simpl.
      split; [constructor|]. split; [lia|].
      intros n Hn. inversion Hn. }
  split; assumption.
Qed.

(** X10. The record a full merge commits holds the compaction pointer of
    the source level, the deletion of every input table from its level, and
    added tables at the next level only; the session the compaction leaves
    is the one it found with that record committed once. *)
Theorem merged_record_committed noTrivial w s b :
  tableCompaction db c noTrivial w s = TcDone FullMerge b ->
  compPtrs (rec b) = [(c_level c, c_imax c)]
  /\ deletedTables (rec b) = inputs c
  /\ Forall (fun r : Z * tFile => fst r = wrap_int (c_level c + 1))
       (addedTables (rec b))
  /\ sess (sto b) = commit (rec b) (sess s).
Proof.
  intros Hd.
  destruct (full_merge_done
              (merge_record c [(c_level c, c_imax c)] (inputs c) (sess s))
              _ _ _ _
              (fun wd b0 => MergeMore.exec_merge_record db c _ _ _ wd b0)
              ltac:(unfold merge_record, fresh; simpl;
                    destruct (delInputs_spec rec0) as (-> & -> & ->);
                    simpl; repeat split; constructor)
              Hd) as (b1 & (Hc & Hdel & Hs & Ha) & ->).
  unfold committed, with_sess. simpl. rewrite Hs. auto.
Qed.

(** X11. A trivial move is taken only when it is allowed and the compaction
    says so; when it returns, its record moves the first table of the
    source level to the next level, the session is the one found with that
    record committed once, and no file was created or removed. *)
Theorem trivial_move_record noTrivial w s b :
  tableCompaction db c noTrivial w s = TcDone TrivialMove b ->
  noTrivial = false /\ trivial c = true
  /\ exists t rest, fst (c_tables c) = t :: rest
     /\ rec b = SessionRecord [(c_level c, c_imax c)]
                 [(wrap_int (c_level c + 1), t)] [(c_level c, file_num t)]
     /\ sto b = Store (nextFileNum s) (disk s) (commit (rec b) (sess s)).
Proof.
  unfold tableCompaction.
  destruct noTrivial; simpl.
  { destruct (snd (Transact.compactionTransact _ _ _ _ _)) as [b1| |];
      [|discriminate..].
    destruct (snd (Transact.compactionTransact _ _ _ _ _)); discriminate. }
  destruct (trivial c).
  2:{ destruct (snd (Transact.compactionTransact _ _ _ _ _)) as [b1| |];
        [|discriminate..].
      destruct (snd (Transact.compactionTransact _ _ _ _ _)); discriminate. }
  destruct (fst (c_tables c)) as [|t rest]; [discriminate|].
  match goal with
  | |- context [Transact.compactionTransact db ?e None ?tr ?b0] =>
      pose proof (TransactMore.transact_once db e committed tr b0
                    (commit_exec_once (move_fault w))) as Hc
  end.
  destruct (snd (Transact.compactionTransact _ _ _ _ _)) as [b1| |];
    try discriminate.
  intros [= <-]. subst b1.
  split; [reflexivity|]. split; [reflexivity|].
  exists t, rest. split; [reflexivity|]. split; reflexivity.
Qed.

(** X12. However a compaction ends, its record is committed to the session
    at most once, and exactly once when it returns: the session it leaves
    is the one it found, or that with the final record committed, and
    always the latter when the compaction returns. *)
Theorem commits_at_most_once noTrivial w s :
  match tableCompaction db c noTrivial w s with
  | TcDone _ b => sess (sto b) = commit (rec b) (sess s)
  | TcUnwound b =>
      sess (sto b) = sess s \/ sess (sto b) = commit (rec b) (sess s)
  | TcRunning b => sess (sto b) = sess s
  | TcIndexPanic => True
  end.
Proof.
  unfold tableCompaction.
  destruct (negb noTrivial && trivial c).
  - destruct (fst (c_tables c)) as [|t rest]; [exact I|].
    match goal with
    | |- context [Transact.compactionTransact db ?e None ?tr ?b0] =>
        pose proof (TransactMore.transact_once db e committed tr b0
                      (commit_exec_once (move_fault w))) as Hc
    end.
    destruct (snd (Transact.compactionTransact _ _ _ _ _)) as [b1|b1 ?|b1].
    + subst b1. reflexivity.
    + destruct Hc as [->| ->]; [left|right]; reflexivity.
    + subst b1. reflexivity.
  - pose proof (TransactMore.transact_invariant db
                  (fun n => exec db c (build_world w n))
                  (fun b => sess (sto b) = sess s)
                  (Some (rollback (remove_fault w))) (build_trace w)
                  (fresh (delInputs c rec0) s)) as Hb.
    cbv beta in Hb.
    assert (forall n b0, sess (sto b0) = sess s ->
              match exec db c (build_world w n) b0 with
              | Transact.ExecRet _ _ s' | Transact.ExecExit s' =>
                  sess (sto s') = sess s
              end) as Hexec.
    { intros n b0 Hs.
      pose proof (MergeMore.exec_sess db c (build_world w n) b0) as Hx.
      destruct (exec db c (build_world w n) b0); simpl in Hx; congruence. }
    assert (forall rb b0, Some (rollback (remove_fault w)) = Some rb ->
              sess (sto b0) = sess s -> sess (sto (snd (rb b0))) = sess s)
      as Hrb.
    { intros rb b0 [= <-] Hs. unfold rollback.
      destruct (removeTables _ _ _). exact Hs. }
    specialize (Hb Hexec Hrb eq_refl).
    destruct (snd (Transact.compactionTransact db
                     (fun n => exec db c (build_world w n)) _ _ _))
      as [b1|b1 ?|b1]; [|left; exact Hb|exact Hb].
    pose proof (TransactMore.transact_once db (commit_exec (commit_fault w))
                  committed (commit_trace w) b1
                  (commit_exec_once (commit_fault w))) as Hc.
    destruct (snd (Transact.compactionTransact db (commit_exec _) _ _ _))
      as [b2|b2 ?|b2].
    + subst b2. simpl. now rewrite Hb.
    + destruct Hc as [->| ->]; [left; exact Hb|right; simpl; now rewrite Hb].
    + subst b2. exact Hb.
Qed.

End Facts.
End CompactionMore.

(** ** The flush of the frozen memtable *)

Module MemMore.
Import Mem.

Section Facts.
Context `{Leveldb}.
Variable pickLevel : session -> tFile -> Z.
Variable setJournalNum : Z -> sessionRecord -> sessionRecord.
Variable setSeqNum : Z -> sessionRecord -> sessionRecord.
Variable db : DB.

Local Abbreviation memCompaction :=
  (Mem.memCompaction pickLevel setJournalNum setSeqNum db).
Local Abbreviation stamp := (Mem.stamp setJournalNum setSeqNum).

(** The state a successful [flush] of the entries [es] leaves. *)
Lemma flush_exec_once w es n st :
  match flush_exec pickLevel w es n st with
  | Transact.ExecRet (Some _) _ st' => st' = st
  | Transact.ExecRet None _ st' =>
      st' = (CMem (pickLevel (Merge.sess (snd st))
                     (TFile (Merge.nextFileNum (snd st)) es))
               (addTableFile
                  (pickLevel (Merge.sess (snd st))
                     (TFile (Merge.nextFileNum (snd st)) es))
                  (TFile (Merge.nextFileNum (snd st)) es) (rec (fst st))),
             snd (createFrom es (snd st)))
  | Transact.ExecExit st' => st' = st
  end.
Proof.
  unfold flush_exec, flush. destruct (flush_fault w n); reflexivity.
Qed.

(** The record is stamped at every call of the commit closure; the session
    is not touched until one succeeds. *)
Lemma commit_done w journal seq st st' :
  snd (Transact.compactionTransact db
         (commit_exec setJournalNum setSeqNum w journal seq) None
         (commit_trace w) st) = Transact.Done st' ->
  exists k,
    rec (fst st') = Nat.iter (Datatypes.S k) (stamp journal seq)
                      (rec (fst st))
    /\ level (fst st') = level (fst st)
    /\ snd st' = Merge.Store (Merge.nextFileNum (snd st))
                   (Merge.disk (snd st))
                   (commit (rec (fst st')) (Merge.sess (snd st))).
Proof.
  intros Hd.
  destruct (TransactMore.transact_done_from db
              (commit_exec setJournalNum setSeqNum w journal seq)
              (fun s0 => exists k,
                 s0 = (CMem (level (fst st))
                         (Nat.iter k (stamp journal seq) (rec (fst st))),
                       snd st))
              None (commit_trace w) st st') as (m & s0 & k0 & Hs0 & Hx).
  - intros n s0 e k1 s1 (k & ->).
    unfold commit_exec, commit_rec. simpl.
    destruct (commit_fault w n); [|discriminate].
    intros [= _ _ <-]. exists (Datatypes.S k). reflexivity.
  - exists 0%nat. destruct st as [[l r] s0]. reflexivity.
  - exact Hd.
  - destruct Hs0 as (k & ->). exists k.
    unfold commit_exec, commit_rec in Hx. simpl in Hx.
    destruct (commit_fault w m); [discriminate|].
    injection Hx as _ <-. simpl. auto.
Qed.

Lemma commit_sto w journal seq st :
  match snd (Transact.compactionTransact db
               (commit_exec setJournalNum setSeqNum w journal seq) None
               (commit_trace w) st) with
  | Transact.Done st' | Transact.Unwound st' _ | Transact.Running st' =>
      Merge.nextFileNum (snd st') = Merge.nextFileNum (snd st)
      /\ Merge.disk (snd st') = Merge.disk (snd st)
  end.
Proof.
  apply (TransactMore.transact_invariant db
           (commit_exec setJournalNum setSeqNum w journal seq)
           (fun s0 => Merge.nextFileNum (snd s0) = Merge.nextFileNum (snd st)
                      /\ Merge.disk (snd s0) = Merge.disk (snd st))).
  - intros n s0 Hs0. unfold commit_exec, commit_rec.
    destruct (commit_fault w n); exact Hs0.
  - discriminate.
  - auto.
Qed.

Lemma flush_commit_done w d es st1 st2 :
  snd (Transact.compactionTransact db (flush_exec pickLevel w es)
         (Some (flush_rollback w)) (flush_trace w) (newCMem, sto d))
  = Transact.Done st1 ->
  snd (Transact.compactionTransact db
         (commit_exec setJournalNum setSeqNum w (journalNum d) (frozenSeq d))
         None (commit_trace w) st1) = Transact.Done st2 ->
  exists k,
    let t := TFile (Merge.nextFileNum (sto d)) es in
    level (fst st2) = pickLevel (Merge.sess (sto d)) t
    /\ rec (fst st2) = Nat.iter (Datatypes.S k)
                         (stamp (journalNum d) (frozenSeq d))
                         (SessionRecord [] [(level (fst st2), t)] [])
    /\ Merge.sess (snd st2) = commit (rec (fst st2)) (Merge.sess (sto d))
    /\ Merge.disk (snd st2)
       = {[ Merge.nextFileNum (sto d) ]} ∪ Merge.disk (sto d).
Proof.
  intros E1 E2.
  pose proof (TransactMore.transact_done_once db _ _ _ _ _ _
                (flush_exec_once w es) E1) as H1.
  destruct (commit_done _ _ _ _ _ E2) as (k & Hr & Hl & Hs).
  exists k. subst st1. simpl in *.
  rewrite Hl, Hs, Hr. simpl. auto.
Qed.

(** X13. A flush that went through has committed one table and no more,
    whatever was retried: the table holds the entries of the frozen
    memtable, in their order, under the file number that was free when the
    call began, at the level picked for it; the record, stamped with the
    journal number and the sequence number of the memtable, was committed
    once to the session found; the file is on disk and the memtable is
    dropped. *)
Theorem flushed_memtable_committed w d triggered c d' :
  memCompaction w d = MemFlushed triggered c d' ->
  exists es k,
    let t := TFile (Merge.nextFileNum (sto d)) es in
    frozen d = Some es /\ es <> []
    /\ level c = pickLevel (Merge.sess (sto d)) t
    /\ rec c = Nat.iter (Datatypes.S k)
                 (stamp (journalNum d) (frozenSeq d))
                 (SessionRecord [] [(level c, t)] [])
    /\ Merge.sess (sto d') = commit (rec c) (Merge.sess (sto d))
    /\ Merge.disk (sto d')
       = {[ Merge.nextFileNum (sto d) ]} ∪ Merge.disk (sto d)
    /\ frozen d' = None.
Proof.
  unfold Mem.memCompaction.
  destruct (frozen d) as [es|] eqn:Hf; [|discriminate].
  destruct (Z.of_nat (length es) =? 0) eqn:Hlen; [discriminate|].
  assert (es <> []) as Hne by (intros ->; discriminate).
  destruct (pause w); [| |discriminate];
    (destruct (snd (Transact.compactionTransact db
                      (flush_exec pickLevel w es) _ _ _))
       as [st1| |] eqn:E1; try discriminate);
    (destruct (snd (Transact.compactionTransact db (commit_exec _ _ _ _ _)
                      _ _ _)) as [st2| |] eqn:E2; try discriminate);
    destruct (flush_commit_done w d es st1 st2 E1 E2)
      as (k & Hl & Hr & Hs & Hd);
    (destruct (resume w); intros HX; injection HX as <- <- <-;
     exists es, k; simpl; auto 10).
Qed.

(** How a call that returns leaves the frozen memtable. *)
Lemma memCompaction_ends w d :
  match memCompaction w d with
  | MemReturned _ d' | MemFlushed _ _ d' =>
      frozen d' = None \/ pause w = PauseClosed
  | _ => True
  end.
Proof.
  unfold Mem.memCompaction.
  destruct (frozen d) as [es|] eqn:Hfz; [|auto].
  destruct (Z.of_nat (length es) =? 0); [left; reflexivity|].
  destruct (pause w); [| |auto];
    (destruct (snd (Transact.compactionTransact db
                      (flush_exec pickLevel w es) _ _ _)); [|exact I..]);
    (destruct (snd (Transact.compactionTransact db (commit_exec _ _ _ _ _)
                      _ _ _)); [|exact I..]);
    destruct (resume w); left; reflexivity.
Qed.

(** X14. The frozen memtable is given up only when it is empty or when
    its table has been flushed and committed: a call that returns without
    a flush leaves the store as it found it and has not triggered the table
    compaction, and after a call that unwinds or is still retrying the
    memtable is still there. *)
Theorem memtable_kept_until_committed w d :
  match memCompaction w d with
  | MemReturned triggered d' =>
      triggered = false /\ sto d' = sto d
      /\ (frozen d' = frozen d \/ frozen d = Some [] /\ frozen d' = None)
  | MemFlushed _ c d' =>
      frozen d' = None
      /\ Merge.sess (sto d') = commit (rec c) (Merge.sess (sto d))
  | MemUnwound _ d' | MemRunning _ d' => frozen d' = frozen d
  end.
Proof.
  unfold Mem.memCompaction.
  destruct (frozen d) as [es|] eqn:Hfz; [|auto].
  destruct (Z.of_nat (length es) =? 0) eqn:Hlen.
  { simpl. repeat split. right. destruct es; [auto|discriminate]. }
  destruct (pause w); [| |auto];
    (destruct (snd (Transact.compactionTransact db
                      (flush_exec pickLevel w es) _ _ _))
       as [st1|st1 ?|st1] eqn:E1; [|exact Hfz..]);
    (destruct (snd (Transact.compactionTransact db (commit_exec _ _ _ _ _)
                      _ _ _)) as [st2|st2 ?|st2] eqn:E2; [|exact Hfz..]);
    destruct (flush_commit_done w d es st1 st2 E1 E2)
      as (k & Hl & Hr & Hs & Hd);
    destruct (resume w); simpl; auto.
Qed.

End Facts.
End MemMore.

(** ** The dispatch loops *)

Module DispatchMore.
Import Dispatch.

Section MemLoop.
Context `{Leveldb}.
Variable pickLevel : session -> tFile -> Z.
Variable setJournalNum : Z -> sessionRecord -> sessionRecord.
Variable setSeqNum : Z -> sessionRecord -> sessionRecord.
Variable db : DB.

Local Abbreviation mCompaction :=
  (Dispatch.mCompaction pickLevel setJournalNum setSeqNum db).

Lemma m_acks_inv x e w d a :
  a ∈ m_acks x e w d -> m_err a = e /\ m_world a = w /\ m_after a = d.
Proof.
  unfold m_acks. intros Ha. apply list_elem_of_fmap in Ha.
  destruct Ha as ([x' e'] & -> & Hin). simpl.
  unfold ack in Hin.
  destruct x as [[ch|]|l mi ma [ch|]|];
    try (apply list_elem_of_singleton in Hin; injection Hin as _ <-; auto);
    inversion Hin.
Qed.

(** X15. When the mem loop acknowledges an idle command with nil, the call
    of [memCompaction] it made has left no frozen memtable (there was none,
    it was empty, or it was flushed and committed), unless that call saw
    the close channel while asking the table compaction to pause. *)
Theorem idle_acked_after_flush evs : forall d a,
  a ∈ fst (mCompaction evs d) ->
  m_err a = AckNil ->
  Mem.frozen (m_after a) = None \/ Mem.pause (m_world a) = Mem.PauseClosed.
Proof.
  induction evs as [|ev evs IH]; intros d a Ha Hnil.
  - inversion Ha.
  - destruct ev as [x w|es journal seq|]; cbn [Dispatch.mCompaction] in Ha.
    + destruct x as [ch| |]; try (inversion Ha; fail).
      pose proof (MemMore.memCompaction_ends pickLevel setJournalNum
                    setSeqNum db w d) as Hend.
      destruct (Mem.memCompaction pickLevel setJournalNum setSeqNum db w d)
        as [tr d'|tr c d'|c d'|c d'].
      * destruct (mCompaction evs d') as [acks l] eqn:E. simpl in Ha.
        apply elem_of_app in Ha. destruct Ha as [Ha|Ha].
        -- destruct (m_acks_inv _ _ _ _ _ Ha) as (_ & -> & ->). exact Hend.
        -- apply (IH d'); [rewrite E; exact Ha|exact Hnil].
      * destruct (mCompaction evs d') as [acks l] eqn:E. simpl in Ha.
        apply elem_of_app in Ha. destruct Ha as [Ha|Ha].
        -- destruct (m_acks_inv _ _ _ _ _ Ha) as (_ & -> & ->). exact Hend.
        -- apply (IH d'); [rewrite E; exact Ha|exact Hnil].
      * simpl in Ha. destruct (m_acks_inv _ _ _ _ _ Ha) as (He & _).
        congruence.
      * inversion Ha.
    + apply (IH _ a Ha Hnil).
    + inversion Ha.
Qed.

End MemLoop.

Section TableLoop.









Lemma ack_inv x e a : a ∈ ack x e -> a = (x, e).
Proof.
  unfold ack. intros Ha.
  destruct x as [[ch|]|l mi ma [ch|]|];
    try (apply list_elem_of_singleton in Ha; exact Ha); inversion Ha.
Qed.

Lemma ackAll_inv q e a : a ∈ ackAll q e -> snd a = e /\ fst a ∈ q.
Proof.
  unfold ackAll. induction q as [|x q IH]; simpl; intros Ha.
  - inversion Ha.
  - apply elem_of_app in Ha. destruct Ha as [Ha|Ha].
    + apply ack_inv in Ha. subst a. split; [reflexivity|].
      apply list_elem_of_here.
    + destruct (IH Ha) as [He Hq]. split; [exact He|].
      apply list_elem_of_further. exact Hq.
Qed.

Lemma closing_inv q x a : a ∈ closing q x -> snd a = AckClosed.
Proof.
  unfold closing. intros Ha. apply elem_of_app in Ha.
  destruct Ha as [Ha|Ha]; [apply ackAll_inv in Ha; tauto|].
  destruct x as [x|]; [apply ack_inv in Ha; subst a; reflexivity|].
  inversion Ha.
Qed.

(** An idle command acknowledged with nil was in the queue, or was received
    during the run, when an iteration found that no compaction is
    needed. *)
Lemma tCompaction_idle x its : forall ackQ,
  is_idle x = true ->
  (x, AckNil) ∈ fst (tCompaction its ackQ) ->
  (x ∈ ackQ /\ exists j it, its !! j = Some it /\ need it = false)
  \/ exists i j it it', (i < j)%nat
       /\ its !! i = Some it /\ sel it = TCmd x
       /\ its !! j = Some it' /\ need it' = false.
Proof.
  intros ackQ Hidle. revert ackQ.
  induction its as [|it its IH]; intros ackQ Hin; [inversion Hin|].
  cbn [tCompaction] in Hin.
  set (drained := if need it then [] else ackAll ackQ AckNil) in *.
  set (ackQ1 := if need it then ackQ else []) in *.
  assert ((x, AckNil) ∈ drained ->
          x ∈ ackQ /\ exists j it0, (it :: its) !! j = Some it0
                                    /\ need it0 = false) as Hdr.
  { unfold drained. destruct (need it) eqn:Hn; [intros Hx; inversion Hx|].
    intros Hx. apply ackAll_inv in Hx. split; [tauto|].
    exists 0%nat, it. auto. }
  assert (forall y, y ∈ ackQ1 -> y ∈ ackQ) as Hq1.
  { unfold ackQ1. destruct (need it); [auto|]. intros y Hy. inversion Hy. }
  assert (forall q,
            (forall y, y ∈ q -> y ∈ ackQ \/ sel it = TCmd y) ->
            (x, AckNil) ∈ fst (tCompaction its q) ->
            (x ∈ ackQ /\ exists j it0, (it :: its) !! j = Some it0
                                       /\ need it0 = false)
            \/ exists i j it0 it', (i < j)%nat
                 /\ (it :: its) !! i = Some it0 /\ sel it0 = TCmd x
                 /\ (it :: its) !! j = Some it' /\ need it' = false)
    as Hrec.
  { intros q Hq Hx. destruct (IH q Hx) as [(Hxq & j & it0 & Hj & Hn)|Hr].
    - destruct (Hq x Hxq) as [Hx0|Hx0].
      + left. split; [exact Hx0|]. exists (Datatypes.S j), it0. auto.
      + right. exists 0%nat, (Datatypes.S j), it, it0.
        split; [lia|]. auto.
    - destruct Hr as (i & j & it0 & it' & Hij & Hi & Hs & Hj & Hn).
      right. exists (Datatypes.S i), (Datatypes.S j), it0, it'.
      split; [lia|]. auto. }
  assert (forall sent q,
            (forall y, y ∈ q -> y ∈ ackQ \/ sel it = TCmd y) ->
            ((x, AckNil) ∈ sent -> (x, AckNil) ∈ drained) ->
            (x, AckNil) ∈ fst (match auto_end it with
                               | Returns =>
                                   let '(acks, l) := tCompaction its q in
                                   (sent ++ acks, l)
                               | Exits => (sent ++ closing q None, Stopped)
                               | Panics => (sent, Panicked)
                               end) ->
            (x ∈ ackQ /\ exists j it0, (it :: its) !! j = Some it0
                                       /\ need it0 = false)
            \/ exists i j it0 it', (i < j)%nat
                 /\ (it :: its) !! i = Some it0 /\ sel it0 = TCmd x
                 /\ (it :: its) !! j = Some it' /\ need it' = false)
    as Hauto.
  { intros sent q Hq Hsent.
    destruct (auto_end it).
    - pose proof (Hrec q Hq) as Hr.
      destruct (tCompaction its q) as [acks l]. cbn [fst] in *.
      intros Hx. apply elem_of_app in Hx. destruct Hx as [Hx|Hx].
      + left. apply Hdr, Hsent, Hx.
      + apply Hr, Hx.
    - cbn [fst]. intros Hx. apply elem_of_app in Hx.
      destruct Hx as [Hx|Hx]; [left; apply Hdr, Hsent, Hx|].
      apply closing_inv in Hx. discriminate.
    - cbn [fst]. intros Hx. left. apply Hdr, Hsent, Hx. }
  assert (forall q k, (x, AckNil) ∈ drained ++ closing q k ->
            (x, AckNil) ∈ drained) as Hcl.
  { intros q k Hx. apply elem_of_app in Hx. destruct Hx as [Hx|Hx]; [auto|].
    apply closing_inv in Hx. discriminate. }
  destruct (sel it) as [|y|[|]|] eqn:Hsel.
  - destruct (need it) eqn:Hneed.
    + apply (Hauto drained ackQ1); auto.
    + left. apply Hdr. exact Hin.
  - destruct y as [ch|l mi ma ch|].
    + apply (Hauto drained (ackQ1 ++ [CIdle ch])); auto.
      intros y Hy. apply elem_of_app in Hy. destruct Hy as [Hy|Hy]; [auto|].
      apply list_elem_of_singleton in Hy. subst y. right. reflexivity.
    + destruct (range_end it).
      * apply (Hauto (drained ++ ack (CRange l mi ma ch) AckNil) ackQ1);
          auto.
        intros Hx. apply elem_of_app in Hx. destruct Hx as [Hx|Hx]; [auto|].
        apply ack_inv in Hx. injection Hx as ->. discriminate.
      * left. apply Hdr. exact (Hcl _ _ Hin).
      * left. apply Hdr. exact Hin.
    + left. apply Hdr. exact Hin.
  - pose proof (Hrec ackQ1 (fun y Hy => or_introl (Hq1 y Hy))) as Hr.
    destruct (tCompaction its ackQ1) as [acks l]. cbn [fst] in *.
    apply elem_of_app in Hin. destruct Hin as [Hx|Hx]; [left; auto|auto].
  - left. apply Hdr. exact (Hcl _ _ Hin).
  - left. apply Hdr. exact (Hcl _ _ Hin).
Qed.

(** X17. The table loop acknowledges an idle command with nil only when,
    in an iteration after the one that received the command,
    [tableNeedCompaction()] has said that no compaction is needed: a
    sender that is told nil has waited for the compactions to be done. *)
Theorem idle_acked_nil_when_quiet its x :
  is_idle x = true ->
  (x, AckNil) ∈ fst (tCompaction its []) ->
  exists i j it it', (i < j)%nat
    /\ its !! i = Some it /\ sel it = TCmd x
    /\ its !! j = Some it' /\ need it' = false.
Proof.
  intros Hidle Hin.
  destruct (tCompaction_idle x its [] Hidle Hin) as [(Hx & _)|Hr];
    [inversion Hx|exact Hr].
Qed.

End TableLoop.

End DispatchMore.

(** ** The scenarios *)

Module CasesFacts.
Import Scenario Cases.
#[local] Existing Instance Scenario.leveldb.

(** Two failing attempts with the backoff disabled. *)
Lemma no_waits_when_backoff_disabled_witness :
  fst (Transact.compactionTransact dbNoBackoff (failing 0) None
         [quiet; quiet] tt) = [].
Proof.
  apply (TransactMore.no_waits_when_backoff_disabled dbNoBackoff (failing 0)
           None [quiet; quiet] tt eq_refl).
Defined.

(** A transact that returns at its second attempt. *)
Lemma returns_only_after_success_witness :
  exists m s0 k, (m < 2)%nat /\ flaky m s0 = Transact.ExecRet None k tt.
Proof.
  apply (TransactMore.returns_only_after_success (db 0 1 false) flaky None
           [quiet; quiet] tt tt eq_refl).
Defined.

(** The two tables of one entry each that the merge of [two] commits. *)
Lemma merged_tables_cut_in_time_witness :
  Forall (fun es => exists es' e, es = es' ++ [e]
            /\ (es' = [] \/ BytesLen es' < Inv.tableSize (db 0 1 false) two))
    (Obs.staged merged).
Proof.
  apply (CompactionMore.merged_tables_cut_in_time (db 0 1 false) two true
           steady emptyStore merged).
  vm_compute. reflexivity.
Defined.

Lemma merged_tables_are_new_files_witness :
  NoDup (Inv.staged_nums merged)
  /\ forall n, n ∈ Inv.staged_nums merged ->
       (Merge.nextFileNum emptyStore <= n
        < Merge.nextFileNum (Merge.sto merged))%N
       /\ n ∈ Merge.disk (Merge.sto merged).
Proof.
  apply (CompactionMore.merged_tables_are_new_files (db 0 1 false) two true
           steady emptyStore merged).
  vm_compute. reflexivity.
Defined.

Lemma merged_record_committed_witness :
  compPtrs (Merge.rec merged) = [(c_level two, c_imax two)]
  /\ deletedTables (Merge.rec merged) = Inv.inputs two
  /\ Forall (fun r : Z * tFile => fst r = wrap_int (c_level two + 1))
       (addedTables (Merge.rec merged))
  /\ Merge.sess (Merge.sto merged)
     = commit (Merge.rec merged) (Merge.sess emptyStore).
Proof.
  apply (CompactionMore.merged_record_committed (db 0 1 false) two true
           steady emptyStore merged).
  vm_compute. reflexivity.
Defined.

(** The move of table 3 from level 0 to level 1. *)
Lemma trivial_move_record_witness :
  false = false /\ trivial movable = true
  /\ exists t rest, fst (c_tables movable) = t :: rest
     /\ Merge.rec moved
        = SessionRecord [(c_level movable, c_imax movable)]
            [(wrap_int (c_level movable + 1), t)]
            [(c_level movable, file_num t)]
     /\ Merge.sto moved
        = Merge.Store (Merge.nextFileNum oneTable) (Merge.disk oneTable)
            (commit (Merge.rec moved) (Merge.sess oneTable)).
Proof.
  apply (CompactionMore.trivial_move_record (db 0 1 false) movable false
           steady oneTable moved).
  vm_compute. reflexivity.
Defined.

(** Of the two versions of ["a"] one is staged and one is dropped. *)
Lemma every_record_staged_or_dropped_witness :
  2 = Z.of_nat (length (newIterator versions))
  /\ Z.of_nat (length (concat (Obs.staged versionsBuilt)))
     + Merge.dropCnt versionsBuilt
     = Z.of_nat (length (concat (Obs.staged start)))
       + Merge.snapDropCnt (Merge.snap start)
       + (Z.of_nat (length (newIterator versions))
          - Merge.snapIter (Merge.snap start)).
Proof.
  apply (MergeMore.every_record_staged_or_dropped calm (db 5 100 false)
           versions start 2 versionsBuilt).
  - simpl. lia.
  - simpl. lia.
  - simpl. lia.
  - vm_compute. reflexivity.
Defined.

(** The flush of a memtable of one entry. *)
Lemma flushed_memtable_committed_witness :
  exists es k,
    let t := TFile (Merge.nextFileNum (Mem.sto frozenDb)) es in
    Mem.frozen frozenDb = Some es /\ es <> []
    /\ Mem.level flushedCMem = levelZero (Merge.sess (Mem.sto frozenDb)) t
    /\ Mem.rec flushedCMem
       = Nat.iter (Datatypes.S k)
           (Mem.stamp unstamped unstamped (Mem.journalNum frozenDb)
              (Mem.frozenSeq frozenDb))
           (SessionRecord [] [(Mem.level flushedCMem, t)] [])
    /\ Merge.sess (Mem.sto flushedDb)
       = commit (Mem.rec flushedCMem) (Merge.sess (Mem.sto frozenDb))
    /\ Merge.disk (Mem.sto flushedDb)
       = {[ Merge.nextFileNum (Mem.sto frozenDb) ]}
         ∪ Merge.disk (Mem.sto frozenDb)
    /\ Mem.frozen flushedDb = None.
Proof.
  apply (MemMore.flushed_memtable_committed levelZero unstamped unstamped
           (db 0 1 false) memWorld frozenDb true flushedCMem flushedDb).
  vm_compute. reflexivity.
Defined.

(** The mem loop answers an idle command after the flush. *)
Lemma idle_acked_after_flush_witness :
  Mem.frozen (Dispatch.m_after idleAck) = None
  \/ Mem.pause (Dispatch.m_world idleAck) = Mem.PauseClosed.
Proof.
  apply (DispatchMore.idle_acked_after_flush levelZero unstamped unstamped
           (db 0 1 false)
           [Dispatch.MCmd (Dispatch.CIdle (Some 1%N)) memWorld]
           frozenDb idleAck).
  - vm_compute. apply list_elem_of_here.
  - reflexivity.
Defined.


Lemma idle_acked_nil_when_quiet_witness :
  exists i j it it', (i < j)%nat
    /\ busyThenQuiet !! i = Some it
    /\ Dispatch.sel it = Dispatch.TCmd (Dispatch.CIdle (Some 1%N))
    /\ busyThenQuiet !! j = Some it' /\ Dispatch.need it' = false.
Proof.
  apply (DispatchMore.idle_acked_nil_when_quiet busyThenQuiet
           (Dispatch.CIdle (Some 1%N)) eq_refl).
  vm_compute. apply list_elem_of_further, list_elem_of_here.
Defined.

End CasesFacts.
